(** * Motif discovery: expectation maximisation and Gibbs sampling

    A shallow embedding of the two programs of the repository
    ([expectation_maximisation_algorithm.py] and [gibbs_sampling.py]) and
    theorems about the matrices, likelihoods and loops they compute.

    Modelling conventions.
    - Python numbers ([int] and [float]) are exact rationals [Q]: rounding,
      overflow and underflow of IEEE doubles are not part of the model.  The
      only real-valued function is the base-2 logarithm of [ppm_to_pwm],
      taken in [R] through [Q2R].
    - A Python exception is a value [Raise e] of the [result] monad; the
      statements of a function are sequenced with its bind, so the first
      failing statement decides the exception, as in Python.
    - A [dict] keyed by one-character strings is a [gmap ascii _]; a [str] is
      a [list ascii]; list indexing is stdpp's lookup, with [IndexError] out
      of range.
    - Motif lengths and start offsets are natural numbers.
    - The random generators are oracles: a stream of raw integers for
      [random.randint] and a stream of rationals in [0,1) for
      [numpy.random.choice]. *)

From Stdlib Require Import Ascii String.
From Stdlib Require Import ZArith QArith Qabs Lia Reals Qreals Psatz.
From stdpp Require Import gmap strings list fin_maps.

#[local] Open Scope Q_scope.

Ltac qlra := Lqa.lra.
Ltac rlra := Lra.lra.

(** ** Python primitives *)

Module Py.

Inductive exn : Set :=
| ZeroDivisionError
| KeyError
| IndexError
| ValueError
| InvalidMotifLength.  (* named by the specification; raised nowhere in the source *)

Inductive result (A : Type) : Type :=
| Ok (a : A)
| Raise (e : exn).
Arguments Ok {A} a.
Arguments Raise {A} e.

#[global] Instance result_ret : MRet result := @Ok.
#[global] Instance result_bind : MBind result :=
  λ A B f m, match m with Ok a => f a | Raise e => Raise e end.
#[global] Instance result_fmap : FMap result :=
  λ A B f m, match m with Ok a => Ok (f a) | Raise e => Raise e end.

Definition is_Ok {A} (r : result A) : Prop := ∃ a, r = Ok a.

(** [for x in l: acc = body acc x] *)
Fixpoint foldM {A B} (body : B → A → result B) (l : list A) (acc : B) : result B :=
  match l with
  | [] => Ok acc
  | x :: l => acc' ← body acc x; foldM body l acc'
  end.

Abbreviation str := (list ascii).
Definition lit (s : string) : str := list_ascii_of_string s.

(** [a / b] on numbers *)
Definition truediv (a b : Q) : result Q :=
  if Qeq_bool b 0 then Raise ZeroDivisionError else Ok (a / b).

(** [a < b] on numbers *)
Definition lt (a b : Q) : bool := negb (Qle_bool b a).

(** [range(n)]; empty when [n <= 0] *)
Definition range (n : Z) : list nat := seq 0 (Z.to_nat n).

(** [range(a, b)] *)
Definition range2 (a b : nat) : list nat := seq a (b - a).

Definition len {A} (l : list A) : Z := Z.of_nat (length l).

(** [l[a:b]] for non-negative bounds: out-of-range bounds are clamped *)
Definition slice {A} (l : list A) (a b : nat) : list A := take (b - a) (drop a l).

(** [l[i]] *)
Definition index {A} (l : list A) (i : nat) : result A :=
  match l !! i with Some x => Ok x | None => Raise IndexError end.

(** [d[k]] *)
Definition getitem {V} (d : gmap ascii V) (k : ascii) : result V :=
  match d !! k with Some v => Ok v | None => Raise KeyError end.

Definition enumerate {A} (l : list A) : list (nat * A) := zip (seq 0 (length l)) l.

(** [sum(l)]: starts from 0 and adds from the left *)
Definition sum (l : list Q) : Q := fold_left Qplus l 0.

(** [s.count(c)] for a one-character [c] *)
Definition count (s : str) (c : ascii) : nat := length (filter (λ x, x = c) s).

(** [{base: [zero] * n for base in alphabet}] *)
Definition zeros_matrix {V} (zero : V) (alphabet : str) (n : nat) : gmap ascii (list V) :=
  fold_left (λ d base, <[base := replicate n zero]> d) alphabet ∅.

(** [{base: 0 for base in alphabet}] *)
Definition zeros_vector (alphabet : str) : gmap ascii Q :=
  fold_left (λ d base, <[base := 0]> d) alphabet ∅.

(** [m[base][i]] *)
Definition cell_get {V} (m : gmap ascii (list V)) (base : ascii) (i : nat) : result V :=
  row ← getitem m base; index row i.

(** [m[base][i] = rhs]: the right-hand side is evaluated first, then the row
    is fetched and the cell stored *)
Definition cell_set {V} (m : gmap ascii (list V)) (base : ascii) (i : nat)
    (rhs : result V) : result (gmap ascii (list V)) :=
  y ← rhs;
  row ← getitem m base;
  if decide (i < length row)%nat then Ok (<[base := <[i := y]> row]> m)
  else Raise IndexError.

(** [m[base][i] = f(m[base][i])], the shape of [+=] and [/=] on a cell:
    the row is fetched, the cell is read, the new value is computed and
    stored back in the row *)
Definition cell_update {V} (m : gmap ascii (list V)) (base : ascii) (i : nat)
    (f : V → result V) : result (gmap ascii (list V)) :=
  row ← getitem m base;
  x ← index row i;
  y ← f x;
  Ok (<[base := <[i := y]> row]> m).

(** [d[base] = f(d[base])] *)
Definition item_update (d : gmap ascii Q) (base : ascii) (f : Q → result Q)
    : result (gmap ascii Q) :=
  x ← getitem d base;
  y ← f x;
  Ok (<[base := y]> d).

(** [random.randint(a, b)], the generator's raw output given: a value of
    [a..b], both ends included; an empty range is a [ValueError] *)
Definition randint (a b : Z) (raw : nat) : result Z :=
  if (b <? a)%Z then Raise ValueError
  else Ok (a + Z.of_nat raw mod (b - a + 1))%Z.

(** [max(l)] on real numbers *)
Definition max_R (l : list R) : result R :=
  match l with
  | [] => Raise ValueError
  | x :: l => Ok (fold_left Rmax l x)
  end.

(** [math.log(x, 2)] *)
Definition log2 (x : R) : R := (ln x / ln 2)%R.
Definition math_log2 (x : Q) : result R :=
  if Qle_bool x 0 then Raise ValueError else Ok (log2 (Q2R x)).

(** [numpy.cumsum] *)
Fixpoint cumsum_from (acc : Q) (p : list Q) : list Q :=
  match p with
  | [] => []
  | x :: p => (acc + x) :: cumsum_from (acc + x) p
  end.

(** [numpy.random.choice(a, 1, p=p)[0]] for an integer [a], after numpy's
    documented behaviour: the population must be non-empty, [p] must have [a]
    entries, none negative, summing to 1 within numpy's tolerance
    (the square root of the double precision epsilon, 2^-26); the draw is the
    number of entries of the normalised cumulative sums not above the uniform
    sample [u] *)
Definition np_atol : Q := 1 # (2 ^ 26).
Definition np_choice (a : Z) (p : list Q) (u : Q) : result nat :=
  if (a <=? 0)%Z then Raise ValueError
  else if negb (len p =? a)%Z then Raise ValueError
  else if existsb (λ x, lt x 0) p then Raise ValueError
  else if lt np_atol (Qabs (sum p - 1)) then Raise ValueError
  else
    let cdf := cumsum_from 0 p in
    let total := List.last cdf 0 in
    Ok (length (filter (λ c, Qle_bool (c / total) u = true) cdf)).

(** [d.values()] and the keys of [for k in d], in the order of the model's map *)
Definition values {V} (d : gmap ascii V) : list V := (map_to_list d).*2.
Definition keys {V} (d : gmap ascii V) : list ascii := (map_to_list d).*1.

End Py.
Import Py.

(** ** Expectation maximisation ([expectation_maximisation_algorithm.py]) *)

Module EM.

Definition ATGC : str := lit "ATGC".

(** [for i, base in enumerate(site): pfm[base][i] += weight] *)
Definition add_site (pfm : gmap ascii (list Q)) (site : str) (weight : Q)
    : result (gmap ascii (list Q)) :=
  foldM (λ pfm '(i, base), cell_update pfm base i (λ x, Ok (x + weight)))
        (enumerate site) pfm.

(** [for base in "ATGC": background[base] += sequence.count(base)] *)
Definition add_counts (background : gmap ascii Q) (sequence : str)
    : result (gmap ascii Q) :=
  foldM (λ background base,
           item_update background base
             (λ x, Ok (x + inject_Z (Z.of_nat (count sequence base)))))
        ATGC background.

Definition initialize_pfm (sequences : list str) (motif_length : nat)
    : result (gmap ascii (list Q) * gmap ascii Q) :=
  let pfm := zeros_matrix 0 ATGC motif_length in
  let background := zeros_vector ATGC in
  let total_bases := fold_left Z.add (len <$> sequences) 0%Z in
  first ← index sequences 0;
  weight ← truediv 1 (inject_Z (len first - Z.of_nat motif_length + 1));
  pfm ← foldM (λ pfm sequence,
           foldM (λ pfm start,
                    add_site pfm (slice sequence start (start + motif_length)) weight)
                 (range (len sequence - Z.of_nat motif_length + 1)) pfm)
         sequences pfm;
  pfm ← foldM (λ pfm i,
           col ← mapM (λ base, cell_get pfm base i) ATGC;
           let total_at_position := sum col in
           foldM (λ pfm base, cell_update pfm base i (λ x, truediv x total_at_position))
                 ATGC pfm)
         (range (Z.of_nat motif_length)) pfm;
  background ← foldM add_counts sequences background;
  background ← foldM (λ background base,
                  item_update background base (λ x, truediv x (inject_Z total_bases)))
                ATGC background;
  Ok (pfm, background).

Definition motif_probability (site : str) (pfm : gmap ascii (list Q)) : result Q :=
  foldM (λ probability '(i, base), x ← cell_get pfm base i; Ok (probability * x))
        (enumerate site) 1e-6.

Definition background_probability (site : str) (background : gmap ascii Q) : result Q :=
  foldM (λ probability base, x ← getitem background base; Ok (probability * x))
        site 1e-6.

(** The two lists a sequence's windows are scored into. *)
Definition score_windows (sequence : str) (pfm : gmap ascii (list Q))
    (background : gmap ascii Q) (motif_length : nat) : result (list Q * list Q) :=
  foldM (λ '(binding_probs, background_probs) start,
           let site := slice sequence start (start + motif_length) in
           bp ← motif_probability site pfm;
           bg ← background_probability site background;
           Ok (binding_probs ++ [bp], background_probs ++ [bg]))
        (range (len sequence - Z.of_nat motif_length + 1)) ([], []).

(** The weights of one sequence, normalised. *)
Definition normalise_windows (probs : list Q * list Q) : result (list Q) :=
  let '(binding_probs, background_probs) := probs in
  weighted_probs ← mapM (λ '(bp, bg), truediv bp (bp + bg))
                     (zip binding_probs background_probs);
  let total := sum weighted_probs in
  mapM (λ wp, truediv wp total) weighted_probs.

Definition calculate_expectation (sequences : list str) (pfm : gmap ascii (list Q))
    (background : gmap ascii Q) (motif_length : nat) : result (list (list Q)) :=
  totals ← mapM (λ sequence, score_windows sequence pfm background motif_length) sequences;
  mapM normalise_windows totals.

Definition maximize_expectation (sequences : list str) (background : gmap ascii Q)
    (weighted_probs : list (list Q)) (motif_length : nat)
    : result (gmap ascii (list Q) * gmap ascii Q) :=
  let pfm := zeros_matrix 0 ATGC motif_length in
  let new_background := zeros_vector ATGC in
  '(pfm, new_background) ←
    foldM (λ '(pfm, new_background) '(seq_id, sequence),
             pfm ← foldM (λ pfm start,
                      let site := slice sequence start (start + motif_length) in
                      weights ← index weighted_probs seq_id;
                      foldM (λ pfm '(i, base),
                               cell_update pfm base i
                                 (λ x, w ← index weights start; Ok (x + w)))
                            (enumerate site) pfm)
                    (range (len sequence - Z.of_nat motif_length + 1)) pfm;
             new_background ← add_counts new_background sequence;
             Ok (pfm, new_background))
          (enumerate sequences) (pfm, new_background);
  pfm ← foldM (λ pfm base,
           foldM (λ pfm i, cell_update pfm base i (λ x, truediv x (inject_Z (len sequences))))
                 (range (Z.of_nat motif_length)) pfm)
         ATGC pfm;
  let total := sum (values new_background) in
  new_background ← foldM (λ new_background base,
                      item_update new_background base (λ x, truediv x total))
                    ATGC new_background;
  Ok (pfm, new_background).

Definition squared_distance (old_pfm new_pfm : gmap ascii (list Q)) (motif_length : nat)
    : result Q :=
  terms ← mapM (λ '(base, i),
                  n ← cell_get new_pfm base i;
                  o ← cell_get old_pfm base i;
                  Ok ((n - o) ^ 2))
             (base ← keys old_pfm; i ← range (Z.of_nat motif_length); [(base, i)]);
  Ok (sum terms).

Definition has_converged (old_pfm new_pfm : gmap ascii (list Q)) (motif_length : nat)
    : result bool :=
  d ← squared_distance old_pfm new_pfm motif_length;
  Ok (lt d 1e-6).

(** One pass of the body of [while True]: the new matrices and whether the
    loop breaks. *)
Definition em_step (sequences : list str) (motif_length : nat)
    (st : gmap ascii (list Q) * gmap ascii Q)
    : result (gmap ascii (list Q) * gmap ascii Q * bool) :=
  let '(pfm, background) := st in
  let old_pfm := pfm in
  weighted_probs ← calculate_expectation sequences pfm background motif_length;
  '(pfm, background) ← maximize_expectation sequences background weighted_probs motif_length;
  stop ← has_converged old_pfm pfm motif_length;
  Ok (pfm, background, stop).

(** The [while True] loop, with fuel: [None] when the fuel runs out before
    the loop breaks. *)
Fixpoint em_loop (fuel : nat) (sequences : list str) (motif_length : nat)
    (st : gmap ascii (list Q) * gmap ascii Q)
    : option (result (gmap ascii (list Q) * gmap ascii Q)) :=
  match fuel with
  | O => None
  | S fuel =>
      match em_step sequences motif_length st with
      | Raise e => Some (Raise e)
      | Ok (pfm, background, true) => Some (Ok (pfm, background))
      | Ok (pfm, background, false) => em_loop fuel sequences motif_length (pfm, background)
      end
  end.

(** [expectation_maximization]: the source prints the final background; the
    model returns the final matrix with it. *)
Definition expectation_maximization (fuel : nat) (sequences : list str) (motif_length : nat)
    : option (result (gmap ascii (list Q) * gmap ascii Q)) :=
  match initialize_pfm sequences motif_length with
  | Raise e => Some (Raise e)
  | Ok st => em_loop fuel sequences motif_length st
  end.

End EM.


(** ** Gibbs sampling ([gibbs_sampling.py]) *)

Module Gibbs.

Definition protein_alphabet : str := lit "ACDEFGHIKLMNPQRSTVWY".

(** Motif length *)
Definition M : nat := 12.

Definition iterations : nat := 5000.
Definition pseudocount : Q := 1e-6.

Definition build_ppm (sequences : list (str * nat)) (left_out_sequence_index : nat)
    : result (gmap ascii (list Q)) :=
  let ppm := zeros_matrix 0 protein_alphabet M in
  ppm ← foldM (λ ppm '(j, (seq, starting_pos)),
           if decide (j ≠ left_out_sequence_index) then
             foldM (λ ppm '(i, seq_pos),
                      base ← index seq seq_pos;
                      cell_update ppm base i (λ x, Ok (x + 1)))
                   (enumerate (range2 starting_pos (starting_pos + M))) ppm
           else Ok ppm)
         (enumerate sequences) ppm;
  total_at_each_pos ←
    mapM (λ i, col ← mapM (λ base, cell_get ppm base i) protein_alphabet; Ok (sum col))
         (range (Z.of_nat M));
  foldM (λ ppm i,
           foldM (λ ppm base,
                    ppm ← cell_update ppm base i
                            (λ x, d ← truediv pseudocount (inject_Z (len protein_alphabet));
                                  Ok (x + d));
                    cell_update ppm base i
                      (λ x, t ← index total_at_each_pos i; truediv x (t + pseudocount)))
                 protein_alphabet ppm)
        (range (Z.of_nat M)) ppm.

Definition ppm_to_pwm (ppm : gmap ascii (list Q)) (background_probabilities : gmap ascii Q)
    : result (gmap ascii (list R)) :=
  let pwm := zeros_matrix 0%R protein_alphabet M in
  foldM (λ pwm base,
           foldM (λ pwm i,
                    cell_set pwm base i
                      (x ← cell_get ppm base i;
                       b ← getitem background_probabilities base;
                       r ← truediv x b;
                       math_log2 r))
                 (range (Z.of_nat M)) pwm)
        protein_alphabet pwm.

Definition calculate_background_probabilities (sequences : list (str * nat)) (M : nat)
    : result (gmap ascii Q) :=
  let background_frequencies := zeros_vector protein_alphabet in
  background_frequencies ←
    foldM (λ bf '(seq, start),
             foldM (λ bf base,
                      item_update bf base
                        (λ x, Ok (x + inject_Z (Z.of_nat (count (take start seq) base
                                                   + count (drop (start + M) seq) base)))))
                   protein_alphabet bf)
          sequences background_frequencies;
  let total_background_probs := sum (values background_frequencies) in
  foldM (λ bf base, item_update bf base (λ x, truediv x total_background_probs))
        protein_alphabet background_frequencies.

(** The parameter is named [PWM] in the source; the main loop passes the
    probability matrix [PPM]. *)
Definition generate_distribution_for_left_out_sequence (PWM : gmap ascii (list Q))
    (background_probabilities : gmap ascii Q) (left_out_sequence : str)
    : result (list Q) :=
  let distribution := replicate (Z.to_nat (len left_out_sequence - Z.of_nat M)) 1e-6 in
  distribution ←
    foldM (λ distribution i,
             foldM (λ distribution '(j, base),
                      d ← index distribution i;
                      x ← cell_get PWM base j;
                      b ← getitem background_probabilities base;
                      r ← truediv x b;
                      Ok (<[i := d * r]> distribution))
                   (enumerate (slice left_out_sequence i (i + M))) distribution)
          (range (len left_out_sequence - Z.of_nat M)) distribution;
  let distribution_sum := sum distribution in
  mapM (λ x, truediv x distribution_sum) distribution.

Definition choose_new_position (distribution : list Q) (left_out_sequence : str) (u : Q)
    : result nat :=
  np_choice (len left_out_sequence - Z.of_nat M) distribution u.

(** The consensus symbol of column [i]: [max(PWM, key=lambda base: PWM[base][i])],
    the first key with the greatest score, the keys taken in the order the
    matrix was filled. *)
Definition best_base (PWM : gmap ascii (list R)) (i : nat) : result ascii :=
  match protein_alphabet with
  | [] => Raise ValueError
  | k :: ks =>
      s ← cell_get PWM k i;
      fst <$> foldM (λ '(best, bs) k,
                       s ← cell_get PWM k i;
                       Ok (if Rlt_dec bs s then (k, s) else (best, bs)))
                    ks (k, s)
  end.

(** [max([PWM[base][i] for base in protein_alphabet])] *)
Definition column_max (PWM : gmap ascii (list R)) (i : nat) : result R :=
  col ← mapM (λ base, cell_get PWM base i) protein_alphabet;
  max_R col.

(** What an iteration prints: the consensus motif and its score. *)
Definition report (PWM : gmap ascii (list R)) : result (str * R) :=
  most_likely_motif ← mapM (best_base PWM) (range (Z.of_nat M));
  maxima ← mapM (column_max PWM) (range (Z.of_nat M));
  Ok (most_likely_motif, fold_left Rplus maxima 0%R).

Record state : Type := {
  sequences : list (str * nat);
  num_of_sequences : Z;
  previous_sequence_indexes : list nat;
  randint_calls : nat;   (* draws taken from [random] so far *)
  choice_calls : nat     (* draws taken from [numpy.random] so far *)
}.

Section Sampler.

(** The generators: the raw value of the k-th call of [randint], the uniform
    sample of the k-th call of [numpy.random.choice]. *)
Variable random_raw : nat → nat.
Variable uniform : nat → Q.

(** Lines 16-19: every sequence gets a start offset of [0..len(seq) - M]. *)
Definition initial_state (seqs : list str) : result state :=
  '(sequences, k) ←
     foldM (λ '(acc, k) seq,
              pos ← randint 0 (len seq - Z.of_nat M) (random_raw k);
              Ok (acc ++ [(seq, Z.to_nat pos)], S k))
           seqs ([], O);
  Ok {| sequences := sequences; num_of_sequences := len sequences;
        previous_sequence_indexes := []; randint_calls := k; choice_calls := 0 |}.

(** The [while] of [choose_left_out_sequence]: [None] when the fuel runs out
    while the drawn index is still in the list. *)
Fixpoint wait_for_fresh_index (fuel : nat) (n : Z) (previous : list nat)
    (left_out_sequence_index : nat) (k : nat) : option (result (nat * nat)) :=
  if bool_decide (left_out_sequence_index ∈ previous) then
    match fuel with
    | O => None
    | S fuel =>
        match randint 0 (n - 1) (random_raw k) with
        | Raise e => Some (Raise e)
        | Ok idx => wait_for_fresh_index fuel n previous (Z.to_nat idx) (S k)
        end
    end
  else Some (Ok (left_out_sequence_index, k)).

Definition choose_left_out_sequence (fuel : nat) (n : Z) (k : nat)
    (sequences : list (str * nat)) (previous_sequence_indexes : list nat)
    : option (result (nat * str * nat)) :=
  match randint 0 (n - 1) (random_raw k) with
  | Raise e => Some (Raise e)
  | Ok idx =>
      match wait_for_fresh_index fuel n previous_sequence_indexes (Z.to_nat idx) (S k) with
      | None => None
      | Some (Raise e) => Some (Raise e)
      | Some (Ok (left_out_sequence_index, k)) =>
          Some (entry ← index sequences left_out_sequence_index;
                Ok (left_out_sequence_index, entry.1, k))
      end
  end.

(** The part of an iteration that changes the program's variables: the
    hold-out choice, the matrices, the draw and the assignment to
    [sequences].  It returns the held-out index and the two matrices with the
    new state. *)
Definition resample (st : state) (left_out_sequence_index : nat)
    (left_out_sequence_string : str) (k : nat)
    : result (state * gmap ascii (list Q) * gmap ascii Q) :=
  background_probabilities ← calculate_background_probabilities (sequences st) M;
  PPM ← build_ppm (sequences st) left_out_sequence_index;
  distribution ← generate_distribution_for_left_out_sequence
                   PPM background_probabilities left_out_sequence_string;
  new_position ← choose_new_position distribution left_out_sequence_string
                   (uniform (choice_calls st));
  entry ← index (sequences st) left_out_sequence_index;
  Ok ({| sequences := <[left_out_sequence_index := (entry.1, new_position)]> (sequences st);
         num_of_sequences := num_of_sequences st;
         previous_sequence_indexes := previous_sequence_indexes st;
         randint_calls := k;
         choice_calls := S (choice_calls st) |},
      PPM, background_probabilities).

(** One iteration of the main loop: the new state, the index held out and
    what is printed. *)
Definition iteration (fuel : nat) (st : state)
    : option (result (state * nat * (str * R))) :=
  match choose_left_out_sequence fuel (num_of_sequences st) (randint_calls st)
          (sequences st) (previous_sequence_indexes st) with
  | None => None
  | Some (Raise e) => Some (Raise e)
  | Some (Ok (left_out_sequence_index, left_out_sequence_string, k)) =>
      Some ('(st', PPM, background_probabilities) ←
              resample st left_out_sequence_index left_out_sequence_string k;
            PWM ← ppm_to_pwm PPM background_probabilities;
            out ← report PWM;
            Ok (st', left_out_sequence_index, out))
  end.

(** [for iteration in range(n)]: the final state, the indices held out and
    the lines printed, in order. *)
Fixpoint run (fuel : nat) (n : nat) (st : state)
    : option (result (state * list nat * list (str * R))) :=
  match n with
  | O => Some (Ok (st, [], []))
  | S n =>
      match iteration fuel st with
      | None => None
      | Some (Raise e) => Some (Raise e)
      | Some (Ok (st', idx, out)) =>
          match run fuel n st' with
          | None => None
          | Some (Raise e) => Some (Raise e)
          | Some (Ok (st'', idxs, outs)) => Some (Ok (st'', idx :: idxs, out :: outs))
          end
      end
  end.

Definition main (fuel : nat) (st : state) := run fuel iterations st.

End Sampler.

End Gibbs.

(** ** Mathematical vocabulary of the statements *)

(** The sum of [f] over a list. *)
Definition Qsum {A} (f : A → Q) (l : list A) : Q := fold_right (λ x acc, f x + acc) 0 l.

(** The product of a list of numbers. *)
Definition product (l : list Q) : Q := fold_right Qmult 1 l.

(** 1 when the window [site] has symbol [b] in column [i], 0 otherwise. *)
Definition hit (site : str) (b : ascii) (i : nat) : Q :=
  if decide (site !! i = Some b) then 1 else 0.

(** The matrix [m] has no row outside the alphabet and holds, up to the
    equality [eqv] of its numbers, the value [F b i] in every cell of the
    alphabet's rows and the first [L] columns. *)
Definition models_in {V} (eqv : V → V → Prop) (alphabet : str) (L : nat)
    (m : gmap ascii (list V)) (F : ascii → nat → V) : Prop :=
  (∀ b, is_Some (m !! b) → b ∈ alphabet) ∧
  ∀ b i, b ∈ alphabet → (i < L)%nat → ∃ x, cell_get m b i = Ok x ∧ eqv x (F b i).

(** Rational matrices, up to equality of rationals. *)
Definition models := models_in Qeq.

(** The start offsets [range(len(sequence) - L + 1)] of a sequence's windows
    and the window [sequence[start : start + L]]. *)
Definition starts (sequence : str) (L : nat) : list nat :=
  range (len sequence - Z.of_nat L + 1).
Definition window (sequence : str) (L start : nat) : str :=
  slice sequence start (start + L).

(** What the windows of one sequence, the window at [start] weighted
    [W start], put in cell [(b, i)]. *)
Definition sequence_mass (W : nat → Q) (sequence : str) (L : nat) (b : ascii) (i : nat) : Q :=
  Qsum (λ start, W start * hit (window sequence L start) b i) (starts sequence L).

(** [sum(m[base][i] for base in alphabet)], the total of column [i]. *)
Definition column_sum (alphabet : str) (m : gmap ascii (list Q)) (i : nat) : result Q :=
  col ← mapM (λ base, cell_get m base i) alphabet; Ok (sum col).

(** Every one of the [L] columns adds up to 1, exactly, hence within 1e-9. *)
Definition columns_sum_to_one (alphabet : str) (L : nat) (m : gmap ascii (list Q)) : Prop :=
  ∀ i, (i < L)%nat →
    ∃ s, column_sum alphabet m i = Ok s ∧ s == 1 ∧ Qabs (s - 1) <= 1e-9.



(** Vectors indexed by the alphabet, as [models] for matrices. *)
Definition vmodels (alphabet : str) (d : gmap ascii Q) (G : ascii → Q) : Prop :=
  (∀ b, is_Some (d !! b) → b ∈ alphabet) ∧
  ∀ b, b ∈ alphabet → ∃ x, d !! b = Some x ∧ x == G b.

(** The sequence is written in the alphabet. *)
Definition over (alphabet : str) (s : str) : Prop := Forall (λ c, c ∈ alphabet) s.

(** How often [b] occurs in the corpus. *)
Definition occurrences (sequences : list str) (b : ascii) : Q :=
  Qsum (λ s, inject_Z (Z.of_nat (count s b))) sequences.

(** The number of windows of the corpus. *)
Definition window_count (sequences : list str) (L : nat) : Q :=
  Qsum (λ s, inject_Z (Z.of_nat (length (starts s L)))) sequences.

(** What initialisation adds up in cell [(b, i)] before it normalises the
    columns: [w] for every window of the corpus with [b] in column [i]. *)
Definition initial_mass (w : Q) (sequences : list str) (L : nat) (b : ascii) (i : nat) : Q :=
  Qsum (λ s, sequence_mass (λ _, w) s L b i) sequences.

(** A non-empty corpus over ATGC with a valid motif length: positive and no
    longer than any sequence. *)
Definition valid_corpus (sequences : list str) (L : nat) : Prop :=
  sequences ≠ [] ∧ (0 < L)%nat ∧
  ∀ s, s ∈ sequences → (L ≤ length s)%nat ∧ over EM.ATGC s.

(** [weighted_probs[seq_id][start]], 0 where there is no such entry. *)
Definition responsibility (weighted_probs : list (list Q)) (seq_id start : nat) : Q :=
  match weighted_probs !! seq_id with
  | Some weights => default 0 (weights !! start)
  | None => 0
  end.

(** What the maximisation step adds up in cell [(b, i)] before it divides:
    the responsibilities of the windows with [b] in column [i]. *)
Definition posterior_mass (weighted_probs : list (list Q)) (sequences : list str)
    (L : nat) (b : ascii) (i : nat) : Q :=
  Qsum (λ '(seq_id, s), sequence_mass (responsibility weighted_probs seq_id) s L b i)
       (enumerate sequences).

(** Posterior responsibilities: one positive weight per window of each
    sequence, the weights of a sequence adding up to 1. *)
Definition responsibilities_for (sequences : list str) (L : nat)
    (weighted_probs : list (list Q)) : Prop :=
  Forall2 (λ s weights,
             length weights = length (starts s L)
             ∧ Forall (λ x, 0 < x) weights
             ∧ sum weights == 1)
          sequences weighted_probs.

(** The matrices the EM loop works on: the matrix is non-negative, positive
    where a window of the corpus reads it, with columns adding up to 1; the
    background is positive on the symbols of the corpus. *)
Definition em_invariant (sequences : list str) (L : nat)
    (st : gmap ascii (list Q) * gmap ascii Q) : Prop :=
  ∃ F B,
    models EM.ATGC L st.1 F ∧ vmodels EM.ATGC st.2 B
    ∧ (∀ b i, 0 <= F b i)
    ∧ (∀ s start i b, s ∈ sequences → (start + L ≤ length s)%nat → (i < L)%nat →
         s !! (start + i)%nat = Some b → 0 < F b i)
    ∧ (∀ i, (i < L)%nat → Qsum (λ b, F b i) EM.ATGC == 1)
    ∧ (∀ s b, s ∈ sequences → b ∈ s → 0 < B b).

(** The matrices after [n] passes of the loop body, whatever the
    convergence test says. *)
Fixpoint em_iterate (sequences : list str) (L : nat) (n : nat)
    : result (gmap ascii (list Q) * gmap ascii Q) :=
  match n with
  | O => EM.initialize_pfm sequences L
  | S n =>
      st ← em_iterate sequences L n;
      '(pfm, background, _) ← EM.em_step sequences L st;
      Ok (pfm, background)
  end.

(** Whether pass [n] of the loop body (counted from 0) ends with the
    [break]. *)
Definition breaks_at (sequences : list str) (L : nat) (n : nat) : result bool :=
  st ← em_iterate sequences L n;
  '(_, _, stop) ← EM.em_step sequences L st;
  Ok stop.



(** *** Vocabulary of the Gibbs sampler *)

(** Every sequence is written in the protein alphabet and its motif window
    lies inside it. *)
Definition aligned (sequences : list (str * nat)) : Prop :=
  ∀ seq start, (seq, start) ∈ sequences →
    (start + Gibbs.M ≤ length seq)%nat ∧ over Gibbs.protein_alphabet seq.

(** The count of symbol [b] at column [i] over the motif windows of all
    sequences except the held-out one. *)
Definition count_at (sequences : list (str * nat)) (left_out : nat) (b : ascii) (i : nat)
    : nat :=
  length (filter (λ '(j, (seq, start)), j ≠ left_out ∧ seq !! (start + i)%nat = Some b)
                 (enumerate sequences)).

(** The total count in column [i]. *)
Definition column_total (sequences : list (str * nat)) (left_out : nat) (i : nat) : nat :=
  sum_list ((λ b, count_at sequences left_out b i) <$> Gibbs.protein_alphabet).

(** What [build_ppm] adds up in cell [(b, i)] before smoothing. *)
Definition window_mass (sequences : list (str * nat)) (left_out : nat) (b : ascii) (i : nat)
    : Q :=
  Qsum (λ '(j, (seq, start)),
          if decide (j ≠ left_out) then hit (window seq Gibbs.M start) b i else 0)
       (enumerate sequences).

(** How often [b] occurs outside the motif windows. *)
Definition outside_count (sequences : list (str * nat)) (M : nat) (b : ascii) : Q :=
  Qsum (λ '(seq, start),
          inject_Z (Z.of_nat (count (take start seq) b + count (drop (start + M) seq) b)))
       sequences.

(** [b] occurs outside the motif window of some sequence. *)
Definition outside_window (sequences : list (str * nat)) (M : nat) (b : ascii) : Prop :=
  ∃ seq start, (seq, start) ∈ sequences ∧ (b ∈ take start seq ∨ b ∈ drop (start + M) seq).

(** The computation does not end in exception [e]. *)
Definition never_raises {A} (e : exn) (r : result A) : Prop := r ≠ Raise e.

(** *** Example inputs *)

(** A corpus of two nucleotide sequences. *)
Definition example_sequences : list str := [lit "ATGC"; lit "AAT"].

(** Two protein sequences with their motif offsets: the first is one symbol
    longer than the motif, the second holds every residue outside its
    window. *)
Definition example_alignment : list (str * nat) :=
  [(lit "ACDEFGHIKLMNA", 0%nat); (lit "ACDEFGHIKLMNACDEFGHIKLMNPQRSTVWY", 0%nat)].

(** A matrix with an entry that is exactly zero, and a background. *)
Definition example_pfm : gmap ascii (list Q) :=
  <["A"%char := [1 # 2; 0]]> (<["T"%char := [1 # 2; 1]]> ∅).
Definition example_background : gmap ascii Q :=
  <["A"%char := 1 # 2]> (<["T"%char := 0]> ∅).


(** The number in a cell or under a key, 0 where there is none. *)
Definition cell_value (m : gmap ascii (list Q)) (b : ascii) (i : nat) : Q :=
  match cell_get m b i with Ok x => x | Raise _ => 0 end.
Definition item_value (d : gmap ascii Q) (b : ascii) : Q := default 0 (d !! b).

(** The matrix whose row [base] holds [f base] in each of [n] columns, and
    the vector that holds [f base] under [base]. *)
Definition constant_rows (f : ascii → Q) (alphabet : str) (n : nat) : gmap ascii (list Q) :=
  fold_left (λ d base, <[base := replicate n (f base)]> d) alphabet ∅.
Definition tabulate (f : ascii → Q) (alphabet : str) : gmap ascii Q :=
  fold_left (λ d base, <[base := f base]> d) alphabet ∅.

(** A well-formed pair: alanine is the most frequent residue of every column
    (1/2, then cysteine 1/4, the others 1/72 each), but cysteine is rare in
    the background (1/16 against 1/2 for alanine, 7/288 for the others). *)
Definition skewed_frequency (b : ascii) : Q :=
  if decide (b = "A"%char) then 1 # 2 else if decide (b = "C"%char) then 1 # 4 else 1 # 72.
Definition skewed_background (b : ascii) : Q :=
  if decide (b = "A"%char) then 1 # 2 else if decide (b = "C"%char) then 1 # 16 else 7 # 288.
Definition skewed_ppm : gmap ascii (list Q) :=
  constant_rows skewed_frequency Gibbs.protein_alphabet Gibbs.M.
Definition skewed_bg : gmap ascii Q := tabulate skewed_background Gibbs.protein_alphabet.

(** The generators of the example run: every raw integer and every uniform
    sample is 0. *)
Definition zero_raw : nat → nat := λ _, 0%nat.
Definition zero_uniform : nat → Q := λ _, 0.

(** The state in which the main loop starts on the two example sequences. *)
Definition example_state : Gibbs.state :=
  {| Gibbs.sequences := example_alignment;
     Gibbs.num_of_sequences := 2;
     Gibbs.previous_sequence_indexes := [];
     Gibbs.randint_calls := 2;
     Gibbs.choice_calls := 0 |}.

(** *** Vocabulary of the further properties *)





(** The keys of the matrix are the symbols of the alphabet and every row
    has at least [L] cells. *)
Definition matrix_over (alphabet : str) (L : nat) (m : gmap ascii (list Q)) : Prop :=
  (∀ b, is_Some (m !! b) ↔ b ∈ alphabet)
  ∧ ∀ b row, m !! b = Some row → (L ≤ length row)%nat.

(** The squared distance of two matrices over the first [L] columns. *)
Definition squared_difference (alphabet : str) (L : nat) (old_pfm new_pfm : gmap ascii (list Q))
    : Q :=
  Qsum (λ b, Qsum (λ i, (cell_value new_pfm b i - cell_value old_pfm b i) ^ 2)
                  (range (Z.of_nat L)))
       alphabet.


(** The product over the columns of a window of matrix[symbol][column] /
    background[symbol], and the weight of offset [i] of a sequence before
    normalisation. *)
Definition window_ratio (PWM : gmap ascii (list Q)) (background : gmap ascii Q) (site : str)
    : Q :=
  product ((λ '(j, b), cell_value PWM b j / item_value background b) <$> enumerate site).
Definition candidate_weight (PWM : gmap ascii (list Q)) (background : gmap ascii Q)
    (sequence : str) (i : nat) : Q :=
  1e-6 * window_ratio PWM background (window sequence Gibbs.M i).

(** The base-2 log-odds of cell [(b, i)] of a probability matrix against
    the background. *)
Definition log_odds (ppm : gmap ascii (list Q)) (background : gmap ascii Q)
    (b : ascii) (i : nat) : R :=
  log2 (Q2R (cell_value ppm b i / item_value background b)).


(** ** Facts about the Python primitives *)

Section PyFacts.

Lemma bind_Ok {A B} (r : result A) (f : A → result B) (b : B) :
  r ≫= f = Ok b → ∃ a, r = Ok a ∧ f a = Ok b.
Proof. destruct r as [a|e]; simpl; [eauto | discriminate]. Qed.

Lemma Ok_bind {A B} (a : A) (f : A → result B) : Ok a ≫= f = f a.
Proof. done. Qed.

Lemma Raise_bind {A B} (e : exn) (f : A → result B) : Raise e ≫= f = Raise e.
Proof. done. Qed.

Lemma bind_ext {A B} (r : result A) (f g : A → result B) :
  (∀ a, f a = g a) → r ≫= f = r ≫= g.
Proof. intros H. destruct r; [apply H|done]. Qed.

Lemma foldM_app {A B} (body : B → A → result B) l1 l2 acc :
  foldM body (l1 ++ l2) acc = foldM body l1 acc ≫= foldM body l2.
Proof.
  revert acc. induction l1 as [|x l1 IH]; intros acc; simpl; [done|].
  destruct (body acc x); simpl; auto.
Qed.

Lemma foldM_snoc {A B} (body : B → A → result B) l x acc :
  foldM body (l ++ [x]) acc = foldM body l acc ≫= λ acc', body acc' x.
Proof.
  rewrite foldM_app. destruct (foldM body l acc) as [a|]; simpl; [|done].
  by destruct (body a x).
Qed.

Lemma foldM_ext {A B} (f g : B → A → result B) l acc :
  (∀ a x, x ∈ l → f a x = g a x) → foldM f l acc = foldM g l acc.
Proof.
  revert acc. induction l as [|x l IH]; intros acc H; simpl; [done|].
  rewrite H by left. destruct (g acc x); simpl; [|done].
  apply IH. intros; apply H. by right.
Qed.

Lemma mapM_snoc {A B} (f : A → result B) l x :
  mapM f (l ++ [x]) = ys ← mapM f l; y ← f x; Ok (ys ++ [y]).
Proof.
  induction l as [|a l IH]; simpl.
  - by destruct (f x).
  - destruct (f a); simpl; [|done]. rewrite IH.
    destruct (mapM f l); simpl; [|done]. by destruct (f x).
Qed.

Lemma mapM_Ok_length {A B} (f : A → result B) l ys :
  mapM f l = Ok ys → length ys = length l.
Proof.
  revert ys. induction l as [|a l IH]; intros ys; simpl.
  - by intros [= <-].
  - destruct (f a); simpl; [|done]. destruct (mapM f l); simpl; [|done].
    intros [= <-]. simpl. f_equal. by apply IH.
Qed.

Lemma mapM_Ok_lookup {A B} (f : A → result B) l ys i x :
  mapM f l = Ok ys → l !! i = Some x → ∃ y, ys !! i = Some y ∧ f x = Ok y.
Proof.
  revert ys i. induction l as [|a l IH]; intros ys i; simpl; [done|].
  destruct (f a) as [b|] eqn:Ha; simpl; [|done].
  destruct (mapM f l) as [bs|]; simpl; [|done].
  intros [= <-]. destruct i as [|i]; simpl.
  - intros [= <-]. eauto.
  - intros Hi. by apply IH.
Qed.

Lemma mapM_Ok_intro {A B} (f : A → result B) (g : A → B) l :
  (∀ x, x ∈ l → f x = Ok (g x)) → mapM f l = Ok (g <$> l).
Proof.
  induction l as [|a l IH]; intros H; simpl; [done|].
  rewrite H by left. simpl. rewrite IH; [done|].
  intros; apply H. by right.
Qed.

Lemma enumerate_snoc {A} (l : list A) x :
  enumerate (l ++ [x]) = enumerate l ++ [(length l, x)].
Proof.
  unfold enumerate. rewrite length_app. simpl.
  rewrite Nat.add_1_r, seq_S. simpl.
  rewrite zip_with_app by (by rewrite length_seq). done.
Qed.

Lemma enumerate_length {A} (l : list A) : length (enumerate l) = length l.
Proof. unfold enumerate. rewrite length_zip_with, length_seq. lia. Qed.

Lemma range_S (n : nat) : range (Z.of_nat (S n)) = range (Z.of_nat n) ++ [n].
Proof. unfold range. rewrite !Nat2Z.id. by rewrite seq_S. Qed.

Lemma range_nat (n : nat) : range (Z.of_nat n) = seq 0 n.
Proof. unfold range. by rewrite Nat2Z.id. Qed.

Lemma range_nonpos (z : Z) : (z ≤ 0)%Z → range z = [].
Proof. intros. unfold range. by replace (Z.to_nat z) with O by lia. Qed.

Lemma truediv_Ok (a b : Q) : ¬ b == 0 → truediv a b = Ok (a / b).
Proof.
  intros Hb. unfold truediv. destruct (Qeq_bool b 0) eqn:E; [|done].
  by apply Qeq_bool_iff in E.
Qed.

Lemma truediv_zero (a b : Q) : b == 0 → truediv a b = Raise ZeroDivisionError.
Proof.
  intros Hb. unfold truediv. apply Qeq_bool_iff in Hb. by rewrite Hb.
Qed.


Lemma inject_Z_nonzero (z : Z) : z ≠ 0%Z → ¬ inject_Z z == 0.
Proof. intros Hz E. unfold Qeq in E. simpl in E. lia. Qed.

Lemma lt_spec (a b : Q) : lt a b = true ↔ a < b.
Proof.
  unfold lt. rewrite negb_true_iff. split.
  - intros H. apply Qnot_le_lt. intros Hle. apply Qle_bool_iff in Hle. congruence.
  - intros H. destruct (Qle_bool b a) eqn:E; [|done].
    apply Qle_bool_iff in E. qlra.
Qed.

Lemma sum_from (l : list Q) (a : Q) : fold_left Qplus l a == a + fold_right Qplus 0 l.
Proof.
  revert a. induction l as [|x l IH]; intros a; simpl; [qlra|].
  rewrite IH. qlra.
Qed.

Lemma sum_fold_right (l : list Q) : sum l == fold_right Qplus 0 l.
Proof. unfold sum. rewrite sum_from. qlra. Qed.

Lemma sum_snoc (l : list Q) (x : Q) : sum (l ++ [x]) = sum l + x.
Proof. unfold sum. by rewrite fold_left_app. Qed.

Lemma sum_cons (l : list Q) (x : Q) : sum (x :: l) == x + sum l.
Proof. rewrite !sum_fold_right. simpl. qlra. Qed.

Lemma index_Ok {A} (l : list A) i x : index l i = Ok x ↔ l !! i = Some x.
Proof. unfold index. destruct (l !! i); split; congruence. Qed.

Lemma getitem_Ok {V} (d : gmap ascii V) k v : getitem d k = Ok v ↔ d !! k = Some v.
Proof. unfold getitem. destruct (d !! k); split; congruence. Qed.

Lemma cell_get_Ok {V} (m : gmap ascii (list V)) b i x :
  cell_get m b i = Ok x ↔ ∃ row, m !! b = Some row ∧ row !! i = Some x.
Proof.
  unfold cell_get, getitem. split.
  - destruct (m !! b) as [row|]; simpl; [|done]. rewrite index_Ok. eauto.
  - intros (row & -> & H). simpl. by apply index_Ok.
Qed.

(** A successful cell assignment changes exactly that cell and adds no row. *)
Lemma cell_update_spec {V} (m : gmap ascii (list V)) b i f x y :
  cell_get m b i = Ok x → f x = Ok y →
  ∃ m', cell_update m b i f = Ok m' ∧
    (∀ b', is_Some (m' !! b') → is_Some (m !! b')) ∧
    ∀ b' i', cell_get m' b' i' =
             if decide (b' = b ∧ i' = i) then Ok y else cell_get m b' i'.
Proof.
  intros Hget Hf. apply cell_get_Ok in Hget as (row & Hrow & Hx).
  unfold cell_update, getitem. rewrite Hrow. simpl.
  unfold index at 1. rewrite Hx. simpl. rewrite Hf. simpl.
  eexists; split; [done|]. split.
  { intros b'. destruct (decide (b' = b)) as [->|Hb].
    - by rewrite Hrow.
    - by rewrite lookup_insert_ne. }
  intros b' i'.
  unfold cell_get, getitem.
  destruct (decide (b' = b)) as [->|Hb].
  - rewrite lookup_insert_eq. simpl. unfold index.
    destruct (decide (i' = i)) as [->|Hi].
    + rewrite list_lookup_insert_eq by (by eapply lookup_lt_Some).
      by rewrite decide_True.
    + rewrite list_lookup_insert_ne by done. rewrite Hrow. simpl.
      rewrite decide_False by tauto. done.
  - rewrite lookup_insert_ne by done. rewrite decide_False by tauto. done.
Qed.

Lemma cell_set_spec {V} (m : gmap ascii (list V)) b i (rhs : result V) x y :
  cell_get m b i = Ok x → rhs = Ok y →
  ∃ m', cell_set m b i rhs = Ok m' ∧
    ∀ b' i', cell_get m' b' i' =
             if decide (b' = b ∧ i' = i) then Ok y else cell_get m b' i'.
Proof.
  intros Hget ->. apply cell_get_Ok in Hget as (row & Hrow & Hx).
  unfold cell_set, getitem. simpl. rewrite Hrow. simpl.
  rewrite decide_True by (by eapply lookup_lt_Some).
  eexists; split; [done|]. intros b' i'.
  unfold cell_get, getitem.
  destruct (decide (b' = b)) as [->|Hb].
  - rewrite lookup_insert_eq. simpl. unfold index.
    destruct (decide (i' = i)) as [->|Hi].
    + rewrite list_lookup_insert_eq by (by eapply lookup_lt_Some).
      by rewrite decide_True.
    + rewrite list_lookup_insert_ne by done. rewrite Hrow. simpl.
      rewrite decide_False by tauto. done.
  - rewrite lookup_insert_ne by done. rewrite decide_False by tauto. done.
Qed.

Lemma zeros_matrix_keys {V} (zero : V) (alphabet : str) n b :
  is_Some (zeros_matrix zero alphabet n !! b) → b ∈ alphabet.
Proof.
  unfold zeros_matrix.
  assert (∀ (d : gmap ascii (list V)),
            is_Some (fold_left (λ d base, <[base := replicate n zero]> d) alphabet d !! b) →
            b ∈ alphabet ∨ is_Some (d !! b)) as H.
  { induction alphabet as [|a l IH]; intros d Hs; simpl in *; [by right|].
    apply IH in Hs as [Hin|Hs]; [left; by right|].
    destruct (decide (a = b)) as [->|Hne]; [left; by left|].
    rewrite lookup_insert_ne in Hs by done. by right. }
  intros Hs. apply H in Hs as [?|Hs]; [done|].
  rewrite lookup_empty in Hs. by destruct Hs.
Qed.

Lemma zeros_matrix_lookup {V} (zero : V) (alphabet : str) n b :
  b ∈ alphabet → zeros_matrix zero alphabet n !! b = Some (replicate n zero).
Proof.
  unfold zeros_matrix.
  assert (∀ (d : gmap ascii (list V)),
            (b ∈ alphabet ∨ d !! b = Some (replicate n zero)) →
            fold_left (λ d base, <[base := replicate n zero]> d) alphabet d !! b
            = Some (replicate n zero)) as H.
  { induction alphabet as [|a l IH]; intros d [Hin|Hd]; simpl.
    - by apply elem_of_nil in Hin.
    - done.
    - apply IH. apply elem_of_cons in Hin as [->|Hin]; [|by left].
      right. by rewrite lookup_insert_eq.
    - apply IH. right. destruct (decide (a = b)) as [->|Hne].
      + by rewrite lookup_insert_eq.
      + by rewrite lookup_insert_ne. }
  intros Hin. apply H. by left.
Qed.

Lemma zeros_matrix_cell {V} (zero : V) (alphabet : str) n b i :
  b ∈ alphabet → (i < n)%nat → cell_get (zeros_matrix zero alphabet n) b i = Ok zero.
Proof.
  intros Hb Hi. apply cell_get_Ok. eexists; split.
  - by apply zeros_matrix_lookup.
  - by apply lookup_replicate_2.
Qed.

End PyFacts.
(** [run H]: the next statement of the program evaluates as [H] says. *)
Ltac run H := rewrite H; first [rewrite Ok_bind | rewrite Raise_bind]; cbv beta.

(** ** Sums *)

Section Sums.

Lemma Qsum_cons {A} (f : A → Q) x l : Qsum f (x :: l) = f x + Qsum f l.
Proof. done. Qed.

Lemma Qsum_app {A} (f : A → Q) l1 l2 : Qsum f (l1 ++ l2) == Qsum f l1 + Qsum f l2.
Proof. induction l1 as [|x l1 IH]; simpl; [qlra|]. rewrite IH. qlra. Qed.

Lemma Qsum_snoc {A} (f : A → Q) l x : Qsum f (l ++ [x]) == Qsum f l + f x.
Proof. rewrite Qsum_app. simpl. qlra. Qed.

Lemma Qsum_ext {A} (f g : A → Q) l :
  (∀ x, x ∈ l → f x == g x) → Qsum f l == Qsum g l.
Proof.
  induction l as [|x l IH]; intros H; simpl; [qlra|].
  rewrite (H x) by left. rewrite IH; [qlra|]. intros; apply H. by right.
Qed.

Lemma Qsum_plus {A} (f g : A → Q) l : Qsum (λ x, f x + g x) l == Qsum f l + Qsum g l.
Proof. induction l as [|x l IH]; simpl; [qlra|]. rewrite IH. qlra. Qed.

Lemma Qsum_scale {A} (c : Q) (f : A → Q) l : Qsum (λ x, c * f x) l == c * Qsum f l.
Proof. induction l as [|x l IH]; simpl; [qlra|]. rewrite IH. qlra. Qed.

Lemma Qsum_zero {A} (f : A → Q) l : (∀ x, x ∈ l → f x == 0) → Qsum f l == 0.
Proof.
  induction l as [|x l IH]; intros H; simpl; [qlra|].
  rewrite (H x) by left. rewrite IH; [qlra|]. intros; apply H. by right.
Qed.

Lemma Qsum_nonneg {A} (f : A → Q) l : (∀ x, x ∈ l → 0 <= f x) → 0 <= Qsum f l.
Proof.
  induction l as [|x l IH]; intros H; simpl; [qlra|].
  assert (0 <= f x) by (apply H; left).
  assert (0 <= Qsum f l) by (apply IH; intros; apply H; by right). qlra.
Qed.

Lemma Qsum_pos {A} (f : A → Q) l x :
  (∀ y, y ∈ l → 0 <= f y) → x ∈ l → 0 < f x → 0 < Qsum f l.
Proof.
  induction l as [|y l IH]; intros H Hin Hx; [by apply elem_of_nil in Hin|].
  simpl. assert (0 <= f y) by (apply H; left).
  assert (0 <= Qsum f l) by (apply Qsum_nonneg; intros; apply H; by right).
  apply elem_of_cons in Hin as [->|Hin]; [qlra|].
  assert (0 < Qsum f l); [|qlra]. apply IH; auto. intros; apply H; by right.
Qed.

Lemma Qsum_swap {A B} (f : A → B → Q) (la : list A) (lb : list B) :
  Qsum (λ a, Qsum (λ b, f a b) lb) la == Qsum (λ b, Qsum (λ a, f a b) la) lb.
Proof.
  induction la as [|a la IH]; simpl.
  - symmetry. by apply Qsum_zero.
  - rewrite IH. rewrite <- Qsum_plus. done.
Qed.

Lemma Qsum_fmap {A B} (g : A → B) (f : B → Q) l : Qsum f (g <$> l) = Qsum (f ∘ g) l.
Proof. unfold Qsum. induction l as [|x l IH]; simpl; [done|]. f_equal. exact IH. Qed.

Lemma sum_Qsum (l : list Q) : sum l == Qsum (λ x, x) l.
Proof. rewrite sum_fold_right. unfold Qsum. induction l; simpl; [done|]. by rewrite IHl. Qed.

(** A symbol of a duplicate-free alphabet is counted once. *)
Lemma Qsum_indicator (alphabet : str) (c : ascii) (P : ascii → Q) :
  NoDup alphabet → c ∈ alphabet →
  Qsum (λ b, if decide (b = c) then P b else 0) alphabet == P c.
Proof.
  induction alphabet as [|a l IH]; intros Hnd Hin; [by apply elem_of_nil in Hin|].
  apply NoDup_cons in Hnd as [Ha Hnd]. simpl.
  destruct (decide (a = c)) as [->|Hne].
  - rewrite Qsum_zero; [qlra|]. intros x Hx.
    destruct (decide (x = c)) as [->|]; [done|qlra].
  - apply elem_of_cons in Hin as [->|Hin]; [done|]. rewrite IH by done. qlra.
Qed.


End Sums.

(** ** Loops over the cells of a matrix *)

Section Models.

Context {V : Type} (eqv : relation V) `{!Equivalence eqv}.

Lemma models_in_ext A L (m : gmap ascii (list V)) F G :
  (∀ b i, b ∈ A → (i < L)%nat → eqv (F b i) (G b i)) →
  models_in eqv A L m F → models_in eqv A L m G.
Proof.
  intros HFG [Hk Hm]. split; [done|]. intros b i Hb Hi.
  destruct (Hm b i Hb Hi) as (x & Hx & Hxq). exists x. split; [done|].
  etrans; [exact Hxq|]. by apply HFG.
Qed.

Lemma models_in_zeros A L (zero : V) :
  models_in eqv A L (zeros_matrix zero A L) (λ _ _, zero).
Proof.
  split; [apply zeros_matrix_keys|]. intros b i Hb Hi. exists zero. split; [|done].
  by apply zeros_matrix_cell.
Qed.

(** One assignment [m[b][i] = f(m[b][i])]. *)
Lemma cell_update_models A L (m : gmap ascii (list V)) H b i f q :
  models_in eqv A L m H → b ∈ A → (i < L)%nat →
  (∀ x, eqv x (H b i) → ∃ y, f x = Ok y ∧ eqv y q) →
  ∃ m', cell_update m b i f = Ok m' ∧
        models_in eqv A L m' (λ b' i', if decide (b' = b ∧ i' = i) then q else H b' i').
Proof.
  intros [Hk Hm] Hb Hi Hf.
  destruct (Hm b i Hb Hi) as (x & Hx & Hxq).
  destruct (Hf x Hxq) as (y & Hy & Hyq).
  destruct (cell_update_spec m b i f x y Hx Hy) as (m' & Hupd & Hk' & Hcells).
  exists m'. split; [done|]. split; [by auto|].
  intros b' i' Hb' Hi'. rewrite Hcells. case_decide.
  - by exists y.
  - by apply Hm.
Qed.

(** One assignment [m[b][i] = rhs]. *)
Lemma cell_set_models A L (m : gmap ascii (list V)) H b i rhs y q :
  models_in eqv A L m H → b ∈ A → (i < L)%nat → rhs = Ok y → eqv y q →
  ∃ m', cell_set m b i rhs = Ok m' ∧
        models_in eqv A L m' (λ b' i', if decide (b' = b ∧ i' = i) then q else H b' i').
Proof.
  intros Hm Hb Hi Hrhs Hyq.
  destruct (cell_update_models A L m H b i (λ _, Ok y) q Hm Hb Hi) as (m' & Hupd & Hm').
  { intros x _. by exists y. }
  exists m'. split; [|done].
  destruct Hm as [_ Hm]. destruct (Hm b i Hb Hi) as (x & Hx & _).
  apply cell_get_Ok in Hx as (row & Hrow & Hx).
  unfold cell_set. rewrite Hrhs. simpl. unfold getitem. rewrite Hrow. simpl.
  rewrite decide_True by (by eapply lookup_lt_Some).
  unfold cell_update, getitem in Hupd. rewrite Hrow in Hupd. simpl in Hupd.
  unfold index in Hupd. rewrite Hx in Hupd. simpl in Hupd. done.
Qed.

(** A loop whose passes rewrite disjoint regions of the matrix: if the pass
    for [x] turns the cells of [region x] from their initial values [F] into
    [G] and leaves the others alone, the loop does so for the regions of the
    whole list. *)
Lemma region_loop {X} (region : X → ascii → nat → Prop)
    {region_dec : ∀ x b i, Decision (region x b i)}
    (body : gmap ascii (list V) → X → result (gmap ascii (list V)))
    A L (F G : ascii → nat → V) (l : list X) m :
  NoDup l →
  (∀ x y b i, x ∈ l → y ∈ l → region x b i → region y b i → x = y) →
  (∀ m H x, x ∈ l → models_in eqv A L m H →
     (∀ b i, b ∈ A → (i < L)%nat → region x b i → eqv (H b i) (F b i)) →
     ∃ m', body m x = Ok m' ∧
           models_in eqv A L m' (λ b i, if decide (region x b i) then G b i else H b i)) →
  models_in eqv A L m F →
  ∃ m', foldM body l m = Ok m' ∧
        models_in eqv A L m'
          (λ b i, if decide (Exists (λ x, region x b i) l) then G b i else F b i).
Proof.
  intros Hnd Hdisj Hstep Hm.
  induction l as [|x l IH] using rev_ind.
  - exists m. split; [done|]. eapply models_in_ext; [|exact Hm].
    intros b i _ _. rewrite decide_False; [done|]. intros He. inversion He.
  - apply NoDup_app in Hnd as (Hnd & Hfresh & _).
    destruct IH as (m1 & Hfold & Hm1); [done| | |].
    { intros ? ? ? ? ? ?. apply Hdisj; apply elem_of_app; by left. }
    { intros ? ? ? ?. apply Hstep. apply elem_of_app; by left. }
    rewrite foldM_snoc, Hfold. simpl.
    destruct (Hstep m1 _ x ltac:(apply elem_of_app; right; by left) Hm1) as (m' & Hb & Hm').
    { intros b i _ _ Hr. rewrite decide_False; [done|].
      rewrite Exists_exists. intros (y & Hy & Hry).
      assert (y = x) as ->.
      { apply (Hdisj y x b i); [apply elem_of_app; by left
                               |apply elem_of_app; right; by left|done|done]. }
      apply (Hfresh x Hy). by left. }
    exists m'. split; [done|]. eapply models_in_ext; [|exact Hm'].
    intros b i _ _. simpl.
    destruct (decide (region x b i)) as [Hr|Hr].
    + rewrite decide_True; [done|]. apply Exists_app. right. by left.
    + destruct (decide (Exists (λ x, region x b i) l)) as [He|He].
      * rewrite decide_True; [done|]. apply Exists_app. by left.
      * rewrite decide_False; [done|]. rewrite Exists_app. intros [?|Hx]; [done|].
        by inversion Hx as [|? ? Hn]; [|inversion Hn].
Qed.

End Models.

(** ** Accumulating windows into a matrix *)

Section MatrixFacts.

Lemma models_ext A L m F G :
  (∀ b i, b ∈ A → (i < L)%nat → F b i == G b i) → models A L m F → models A L m G.
Proof. apply (models_in_ext Qeq). Qed.

Lemma models_zeros A L : models A L (zeros_matrix 0 A L) (λ _ _, 0).
Proof. apply (models_in_zeros Qeq). Qed.

Lemma hit_nil b i : hit [] b i = 0.
Proof. unfold hit. by rewrite decide_False. Qed.

Lemma hit_snoc site c b i :
  hit (site ++ [c]) b i = if decide (b = c ∧ i = length site) then 1 else hit site b i.
Proof.
  unfold hit. destruct (lt_eq_lt_dec i (length site)) as [[Hlt| ->]|Hgt].
  - rewrite lookup_app_l by done. repeat case_decide; try done. lia.
  - rewrite lookup_app_r by lia. rewrite Nat.sub_diag. simpl.
    rewrite (lookup_ge_None_2 site (length site)) by lia.
    destruct (decide (b = c)) as [->|Hbc].
    + rewrite !decide_True; done.
    + rewrite (decide_False (P := Some c = Some b)) by congruence.
      rewrite (decide_False (P := b = c ∧ _)) by tauto.
      by rewrite decide_False.
  - rewrite lookup_app_r by lia. rewrite (lookup_ge_None_2 site i) by lia.
    destruct (i - length site)%nat as [|k] eqn:E; [lia|]. simpl.
    repeat case_decide; try done. lia.
Qed.

Lemma hit_nonneg site b i : 0 <= hit site b i.
Proof. unfold hit. case_decide; qlra. Qed.

Lemma hit_out site b i : (length site ≤ i)%nat → hit site b i = 0.
Proof. intros H. unfold hit. rewrite lookup_ge_None_2 by done. by rewrite decide_False. Qed.

(** Over a duplicate-free alphabet a window marks each of its columns once. *)
Lemma hit_column_sum A site i :
  NoDup A → Forall (λ c, c ∈ A) site → (i < length site)%nat →
  Qsum (λ b, hit site b i) A == 1.
Proof.
  intros Hnd Hsite Hi. destruct (lookup_lt_is_Some_2 site i Hi) as [c Hc].
  assert (c ∈ A) as HcA.
  { rewrite Forall_forall in Hsite. apply Hsite. by eapply list_elem_of_lookup_2. }
  rewrite (Qsum_ext _ (λ b, if decide (b = c) then 1 else 0)).
  - by rewrite (Qsum_indicator A c (λ _, 1)).
  - intros b _. unfold hit. rewrite Hc.
    destruct (decide (b = c)) as [->|Hne].
    + by rewrite decide_True.
    + rewrite decide_False; [done|congruence].
Qed.

(** [for i, base in enumerate(site): m[base][i] += w] adds [w] in the cells
    the window marks. *)
Lemma add_window_spec A L m site w F :
  models A L m F → Forall (λ c, c ∈ A) site → (length site ≤ L)%nat →
  ∃ m', foldM (λ m '(i, base), cell_update m base i (λ x, Ok (x + w)))
              (enumerate site) m = Ok m'
        ∧ models A L m' (λ b i, F b i + w * hit site b i).
Proof.
  intros Hm. induction site as [|c site IH] using rev_ind; intros Hsite Hlen.
  - exists m. split; [done|]. eapply models_ext; [|exact Hm].
    intros b i _ _. rewrite hit_nil. qlra.
  - apply Forall_app in Hsite as [Hsite Hc].
    apply Forall_inv in Hc. rewrite length_app in Hlen. simpl in Hlen.
    destruct IH as (m1 & Hfold & Hm1); [done|lia|].
    rewrite enumerate_snoc, foldM_snoc, Hfold. simpl.
    destruct (cell_update_models Qeq A L m1 _ c (length site) (λ x, Ok (x + w))
                (F c (length site) + w * hit site c (length site) + w) Hm1 Hc ltac:(lia))
      as (m' & Hupd & Hm').
    { intros x Hx. exists (x + w). split; [done|]. by rewrite Hx. }
    exists m'. split; [done|]. eapply models_ext; [|exact Hm'].
    intros b i _ _. simpl. rewrite hit_snoc.
    destruct (decide (b = c ∧ i = length site)) as [[-> ->]|Hne]; [|done].
    rewrite hit_out by done. qlra.
Qed.

End MatrixFacts.

(** ** Windows *)

Section Windows.

Lemma starts_spec sequence L start :
  start ∈ starts sequence L ↔ (start + L ≤ length sequence)%nat.
Proof.
  unfold starts, range, len. rewrite elem_of_seq. lia.
Qed.

Lemma starts_NoDup sequence L : NoDup (starts sequence L).
Proof. apply NoDup_seq. Qed.

Lemma starts_length sequence L :
  (L ≤ length sequence)%nat → length (starts sequence L) = (length sequence - L + 1)%nat.
Proof. intros. unfold starts, range, len. rewrite length_seq. lia. Qed.

Lemma starts_short sequence L : (length sequence < L)%nat → starts sequence L = [].
Proof. intros. unfold starts. apply range_nonpos. unfold len. lia. Qed.

Lemma window_length sequence L start :
  (start + L ≤ length sequence)%nat → length (window sequence L start) = L.
Proof.
  intros. unfold window, slice. rewrite length_take, length_drop. lia.
Qed.

Lemma window_length_le sequence L start : (length (window sequence L start) ≤ L)%nat.
Proof. unfold window, slice. rewrite length_take. lia. Qed.

Lemma window_lookup sequence L start i :
  (i < L)%nat → window sequence L start !! i = sequence !! (start + i)%nat.
Proof.
  intros. unfold window, slice. rewrite lookup_take_lt by lia. by rewrite lookup_drop.
Qed.

Lemma window_elem sequence L start b : b ∈ window sequence L start → b ∈ sequence.
Proof.
  unfold window, slice. intros Hb.
  apply (subseteq_drop start sequence), (subseteq_take _ _ _ Hb).
Qed.

Lemma window_over A sequence L start : over A sequence → over A (window sequence L start).
Proof.
  unfold over, window, slice. intros H.
  apply Forall_take. by apply Forall_drop.
Qed.

(** Each window of a sequence marks every column once. *)
Lemma sequence_mass_column A W sequence L i :
  NoDup A → over A sequence → (i < L)%nat →
  Qsum (λ b, sequence_mass W sequence L b i) A == Qsum W (starts sequence L).
Proof.
  intros Hnd Hover Hi. unfold sequence_mass. rewrite Qsum_swap.
  apply Qsum_ext. intros start Hstart. apply starts_spec in Hstart.
  rewrite Qsum_scale. rewrite hit_column_sum; [qlra|done| |].
  - by apply window_over.
  - rewrite window_length by done. done.
Qed.

Lemma sequence_mass_nonneg W sequence L b i :
  (∀ start, 0 <= W start) → 0 <= sequence_mass W sequence L b i.
Proof.
  intros HW. apply Qsum_nonneg. intros start _.
  apply Qmult_le_0_compat; [apply HW|apply hit_nonneg].
Qed.

Lemma sequence_mass_pos W sequence L b i start :
  (∀ start, 0 <= W start) → (start + L ≤ length sequence)%nat → (i < L)%nat →
  sequence !! (start + i)%nat = Some b → 0 < W start →
  0 < sequence_mass W sequence L b i.
Proof.
  intros HW Hstart Hi Hb Hpos. unfold sequence_mass.
  apply (Qsum_pos _ _ start).
  - intros y _. apply Qmult_le_0_compat; [apply HW|apply hit_nonneg].
  - by apply starts_spec.
  - unfold hit. rewrite window_lookup by done. rewrite decide_True by done. qlra.
Qed.

(** [for start in ...: add_site(pfm, window, W start)] *)
Lemma add_windows_spec A L W sequence (l : list nat) m F :
  models A L m F → over A sequence →
  ∃ m', foldM (λ pfm start, EM.add_site pfm (window sequence L start) (W start)) l m = Ok m'
        ∧ models A L m'
            (λ b i, F b i + Qsum (λ start, W start * hit (window sequence L start) b i) l).
Proof.
  intros Hm Hover. induction l as [|start l IH] using rev_ind.
  - exists m. split; [done|]. eapply models_ext; [|exact Hm]. intros; simpl; qlra.
  - destruct IH as (m1 & Hfold & Hm1). rewrite foldM_snoc, Hfold. simpl.
    destruct (add_window_spec A L m1 (window sequence L start) (W start) _ Hm1)
      as (m' & Hadd & Hm').
    { by apply window_over. }
    { apply window_length_le. }
    exists m'. split; [exact Hadd|]. eapply models_ext; [|exact Hm'].
    intros b i _ _. simpl. rewrite Qsum_snoc. qlra.
Qed.

(** The column read by [sum(m[base][i] for base in alphabet)]. *)
Lemma column_sum_spec A L m F i :
  models A L m F → (i < L)%nat →
  ∃ s, column_sum A m i = Ok s ∧ s == Qsum (λ b, F b i) A.
Proof.
  intros [_ Hm] Hi. unfold column_sum.
  assert (∀ l, (∀ b, b ∈ l → b ∈ A) →
            ∃ col, mapM (λ base, cell_get m base i) l = Ok col ∧
                   sum col == Qsum (λ b, F b i) l) as H.
  { induction l as [|b l IH]; intros Hl.
    - exists []. split; [done|]. done.
    - destruct IH as (col & Hcol & Hsum); [intros; apply Hl; by right|].
      destruct (Hm b i (Hl b ltac:(left)) Hi) as (x & Hx & Hxq).
      exists (x :: col). split.
      + simpl. rewrite Hx. simpl. rewrite Hcol. done.
      + rewrite sum_cons. simpl. rewrite Hsum, Hxq. done. }
  destruct (H A) as (col & Hcol & Hsum); [done|].
  exists (sum col). rewrite Hcol. simpl. done.
Qed.

End Windows.

(** ** Vectors indexed by the alphabet *)

Section Vectors.

Lemma vmodels_ext A d F G :
  (∀ b, b ∈ A → F b == G b) → vmodels A d F → vmodels A d G.
Proof.
  intros HFG [Hk Hd]. split; [done|]. intros b Hb.
  destruct (Hd b Hb) as (x & Hx & Hxq). exists x. split; [done|].
  rewrite Hxq. by apply HFG.
Qed.

Lemma vmodels_zeros A : vmodels A (zeros_vector A) (λ _, 0).
Proof.
  unfold zeros_vector.
  assert (∀ l (d : gmap ascii Q),
            (∀ b, is_Some (fold_left (λ d base, <[base := 0]> d) l d !! b) →
                  b ∈ l ∨ is_Some (d !! b)) ∧
            (∀ b, b ∈ l ∨ d !! b = Some 0 →
                  fold_left (λ d base, <[base := 0]> d) l d !! b = Some 0)) as H.
  { induction l as [|a l IH]; intros d; simpl.
    - split; [by right|]. intros b [Hb|Hb]; [by apply elem_of_nil in Hb|done].
    - destruct (IH (<[a := 0]> d)) as [IH1 IH2]. split.
      + intros b Hs. apply IH1 in Hs as [Hin|Hs]; [left; by right|].
        destruct (decide (a = b)) as [->|Hne]; [left; by left|].
        rewrite lookup_insert_ne in Hs by done. by right.
      + intros b Hb. apply IH2.
        destruct (decide (a = b)) as [->|Hne].
        * right. by rewrite lookup_insert_eq.
        * rewrite lookup_insert_ne by done.
          destruct Hb as [Hb|Hb]; [|by right].
          apply elem_of_cons in Hb as [->|Hb]; [done|by left]. }
  destruct (H A ∅) as [H1 H2]. split.
  - intros b Hs. apply H1 in Hs as [?|Hs]; [done|].
    rewrite lookup_empty in Hs. by destruct Hs.
  - intros b Hb. exists 0. split; [|done]. apply H2. by left.
Qed.

(** [for base in l: d[base] = f(base, d[base])] over distinct keys. *)
Lemma item_loop_spec A d G (l : str) (f : ascii → Q → result Q) (g : ascii → Q) :
  vmodels A d G → NoDup l → (∀ b, b ∈ l → b ∈ A) →
  (∀ b x, b ∈ l → x == G b → ∃ y, f b x = Ok y ∧ y == g b) →
  ∃ d', foldM (λ d b, item_update d b (f b)) l d = Ok d' ∧
        vmodels A d' (λ b, if decide (b ∈ l) then g b else G b).
Proof.
  intros Hd Hnd HlA Hf. induction l as [|c l IH] using rev_ind.
  - exists d. split; [done|]. eapply vmodels_ext; [|exact Hd].
    intros b _. rewrite decide_False; [done|]. apply not_elem_of_nil.
  - apply NoDup_app in Hnd as (Hnd & Hfresh & _).
    destruct IH as (d1 & Hfold & [Hk1 Hd1]); [done| | |].
    { intros; apply HlA, elem_of_app; by left. }
    { intros ? ? ?. apply Hf, elem_of_app; by left. }
    rewrite foldM_snoc, Hfold. simpl.
    assert (c ∈ A) as HcA by (apply HlA, elem_of_app; right; by left).
    assert (c ∉ l) as Hcl by (intros Hc; apply (Hfresh c Hc); by left).
    destruct (Hd1 c HcA) as (x & Hx & Hxq). rewrite decide_False in Hxq by done.
    destruct (Hf c x ltac:(apply elem_of_app; right; by left) Hxq) as (y & Hy & Hyq).
    exists (<[c := y]> d1). split.
    { unfold item_update, getitem. rewrite Hx. simpl. rewrite Hy. done. }
    split.
    { intros b Hs. destruct (decide (b = c)) as [->|Hne]; [done|].
      rewrite lookup_insert_ne in Hs by done. by apply Hk1. }
    intros b Hb. destruct (decide (b = c)) as [->|Hne].
    + exists y. rewrite lookup_insert_eq. split; [done|].
      rewrite decide_True; [done|]. apply elem_of_app; right; by left.
    + rewrite lookup_insert_ne by done.
      destruct (Hd1 b Hb) as (z & Hz & Hzq). exists z. split; [done|].
      rewrite Hzq. destruct (decide (b ∈ l)) as [Hbl|Hbl].
      * rewrite decide_True; [done|]. apply elem_of_app; by left.
      * rewrite decide_False; [done|]. rewrite elem_of_app, list_elem_of_singleton. tauto.
Qed.

Lemma count_pos (s : str) (b : ascii) : b ∈ s → (0 < count s b)%nat.
Proof.
  intros Hb. unfold count.
  assert (b ∈ filter (λ x, x = b) s) as Hf by (by apply list_elem_of_filter).
  destruct (filter (λ x, x = b) s); [by apply elem_of_nil in Hf|simpl; lia].
Qed.

Lemma occurrences_nonneg sequences b : 0 <= occurrences sequences b.
Proof.
  apply Qsum_nonneg. intros s _.
  change 0 with (inject_Z 0). rewrite <- Zle_Qle. lia.
Qed.

Lemma occurrences_pos sequences s b :
  s ∈ sequences → b ∈ s → 0 < occurrences sequences b.
Proof.
  intros Hs Hb. apply (Qsum_pos _ _ s); [|done|].
  - intros y _. change 0 with (inject_Z 0). rewrite <- Zle_Qle. lia.
  - change 0 with (inject_Z 0). rewrite <- Zlt_Qlt.
    pose proof (count_pos s b Hb). lia.
Qed.

Lemma total_length_spec (sequences : list str) (a : Z) :
  fold_left Z.add (len <$> sequences) a
  = (a + fold_right Z.add 0 (len <$> sequences))%Z.
Proof.
  revert a. induction sequences as [|s l IH]; intros a; simpl; [lia|].
  rewrite IH. symmetry. apply Z.add_assoc.
Qed.

Lemma total_length_pos (sequences : list str) s :
  s ∈ sequences → s ≠ [] → (0 < fold_left Z.add (len <$> sequences) 0)%Z.
Proof.
  intros Hs Hne. rewrite total_length_spec.
  assert (∀ l : list str, (0 ≤ fold_right Z.add 0 (len <$> l))%Z) as Hnn.
  { induction l as [|x l IH]; [simpl; lia|].
    change (0 ≤ len x + fold_right Z.add 0 (len <$> l))%Z. unfold len at 1. lia. }
  induction sequences as [|x l IH]; [by apply elem_of_nil in Hs|].
  change (0 < 0 + (len x + fold_right Z.add 0 (len <$> l)))%Z.
  apply elem_of_cons in Hs as [->|Hs].
  - specialize (Hnn l). unfold len at 1. destruct x; [done|]. simpl length. lia.
  - specialize (IH Hs). unfold len at 1. lia.
Qed.

End Vectors.

(** ** Normalising columns and vectors *)

Section Normalise.

Lemma ATGC_NoDup : NoDup EM.ATGC.
Proof. by apply (bool_decide_unpack _). Qed.

(** [for i: total = sum(column i); for base: m[base][i] /= total] *)
Lemma normalise_columns_spec A L m F :
  NoDup A → models A L m F →
  (∀ i, (i < L)%nat → ¬ Qsum (λ b, F b i) A == 0) →
  ∃ m', foldM (λ pfm i,
                 col ← mapM (λ base, cell_get pfm base i) A;
                 foldM (λ pfm base, cell_update pfm base i (λ x, truediv x (sum col)))
                       A pfm)
              (range (Z.of_nat L)) m = Ok m'
        ∧ models A L m' (λ b i, F b i / Qsum (λ b, F b i) A).
Proof.
  intros Hnd Hm HT. rewrite range_nat.
  destruct (region_loop Qeq (λ (x : nat) (_ : ascii) (i : nat), i = x)
              (region_dec := λ x _ i, decide (i = x))
              (λ pfm i,
                 col ← mapM (λ base, cell_get pfm base i) A;
                 foldM (λ pfm base, cell_update pfm base i (λ x, truediv x (sum col)))
                       A pfm)
              A L F (λ b i, F b i / Qsum (λ b, F b i) A) (seq 0 L) m)
    as (m' & Hfold & Hm'); [apply NoDup_seq|congruence| |done|].
  - intros m1 H i Hi Hm1 HF. apply elem_of_seq in Hi.
    destruct (column_sum_spec A L m1 H i Hm1 ltac:(lia)) as (s & Hs & Hsq).
    unfold column_sum in Hs. apply bind_Ok in Hs as (col & Hcol & [= <-]).
    rewrite Hcol. simpl.
    assert (sum col == Qsum (λ b, F b i) A) as Hsum.
    { rewrite Hsq. apply Qsum_ext. intros b Hb. apply HF; [done|lia|done]. }
    assert (¬ sum col == 0) as Hnz by (rewrite Hsum; apply HT; lia).
    destruct (region_loop Qeq (λ (x : ascii) (b : ascii) (i' : nat), b = x ∧ i' = i)
                (region_dec := λ x b i', decide (b = x ∧ i' = i))
                (λ pfm base, cell_update pfm base i (λ x, truediv x (sum col)))
                A L H (λ b i, F b i / Qsum (λ b, F b i) A) A m1)
      as (m2 & Hfold2 & Hm2); [done|naive_solver| |done|].
    + intros m3 H3 b Hb Hm3 HH.
      destruct (cell_update_models Qeq A L m3 H3 b i (λ x, truediv x (sum col))
                  (F b i / Qsum (λ b, F b i) A) Hm3 Hb ltac:(lia)) as (m4 & Hupd & Hm4).
      { intros x Hx. exists (x / sum col). split; [by apply truediv_Ok|].
        rewrite Hx, Hsum. rewrite (HH b i Hb ltac:(lia) ltac:(done)).
        rewrite (HF b i Hb ltac:(lia) eq_refl). done. }
      exists m4. split; [done|]. eapply models_ext; [|exact Hm4].
      intros b' i' _ _. simpl. case_decide as Hd; [|done].
      destruct Hd as [-> ->]. done.
    + exists m2. split; [done|]. eapply models_ext; [|exact Hm2].
      intros b i' Hb _. simpl.
      destruct (decide (i' = i)) as [->|Hne].
      * rewrite decide_True; [done|]. apply Exists_exists. exists b.
        done.
      * rewrite decide_False; [done|]. rewrite Exists_exists. naive_solver.
  - exists m'. split; [done|]. eapply models_ext; [|exact Hm'].
    intros b i _ Hi. simpl. rewrite decide_True; [done|].
    apply Exists_exists. exists i. split; [|done].
    apply elem_of_seq. lia.
Qed.

(** [for base in alphabet: d[base] /= t] *)
Lemma normalise_vector_spec A d G t :
  NoDup A → vmodels A d G → ¬ t == 0 →
  ∃ d', foldM (λ d base, item_update d base (λ x, truediv x t)) A d = Ok d'
        ∧ vmodels A d' (λ b, G b / t).
Proof.
  intros Hnd Hd Ht.
  destruct (item_loop_spec A d G A (λ _ x, truediv x t) (λ b, G b / t) Hd Hnd)
    as (d' & Hfold & Hd'); [done| |].
  - intros b x _ Hx. exists (x / t). split; [by apply truediv_Ok|]. by rewrite Hx.
  - exists d'. split; [done|]. eapply vmodels_ext; [|exact Hd'].
    intros b Hb. simpl. by rewrite decide_True.
Qed.

Lemma add_counts_spec bg G sequence :
  vmodels EM.ATGC bg G →
  ∃ bg', EM.add_counts bg sequence = Ok bg'
         ∧ vmodels EM.ATGC bg' (λ b, G b + inject_Z (Z.of_nat (count sequence b))).
Proof.
  intros Hbg. unfold EM.add_counts.
  destruct (item_loop_spec EM.ATGC bg G EM.ATGC
              (λ base x, Ok (x + inject_Z (Z.of_nat (count sequence base))))
              (λ b, G b + inject_Z (Z.of_nat (count sequence b))) Hbg ATGC_NoDup)
    as (bg' & Hfold & Hbg'); [done| |].
  - intros b x _ Hx. eexists. split; [done|]. by rewrite Hx.
  - exists bg'. split; [done|]. eapply vmodels_ext; [|exact Hbg'].
    intros b Hb. simpl. by rewrite decide_True.
Qed.

Lemma background_counts_spec sequences bg G :
  vmodels EM.ATGC bg G →
  ∃ bg', foldM EM.add_counts sequences bg = Ok bg'
         ∧ vmodels EM.ATGC bg' (λ b, G b + occurrences sequences b).
Proof.
  revert bg G. induction sequences as [|s l IH]; intros bg G Hbg.
  - exists bg. split; [done|]. eapply vmodels_ext; [|exact Hbg].
    intros b _. unfold occurrences. simpl. qlra.
  - destruct (add_counts_spec bg G s Hbg) as (bg1 & Hadd & Hbg1).
    destruct (IH bg1 _ Hbg1) as (bg' & Hfold & Hbg').
    exists bg'. split; [simpl; rewrite Hadd; exact Hfold|].
    eapply vmodels_ext; [|exact Hbg'].
    intros b _. unfold occurrences. simpl. qlra.
Qed.

End Normalise.

(** ** Initialisation of the EM matrices *)

Section Initialisation.

Lemma Qsum_const {A} (c : Q) (l : list A) :
  Qsum (λ _, c) l == c * inject_Z (Z.of_nat (length l)).
Proof.
  induction l as [|x l IH].
  - change (0 == c * 0). qlra.
  - change (c + Qsum (λ _, c) l == c * inject_Z (Z.of_nat (S (length l)))).
    rewrite IH, Nat2Z.inj_succ, <- Z.add_1_r, inject_Z_plus.
    change (inject_Z 1) with 1. qlra.
Qed.

Lemma window_count_nonneg sequences L : 0 <= window_count sequences L.
Proof.
  apply Qsum_nonneg. intros s _. change 0 with (inject_Z 0). rewrite <- Zle_Qle. lia.
Qed.

Lemma window_count_pos sequences L s :
  s ∈ sequences → (L ≤ length s)%nat → 0 < window_count sequences L.
Proof.
  intros Hs HL. apply (Qsum_pos _ _ s); [|done|].
  - intros y _. change 0 with (inject_Z 0). rewrite <- Zle_Qle. lia.
  - rewrite starts_length by done. change 0 with (inject_Z 0). rewrite <- Zlt_Qlt. lia.
Qed.

Lemma initial_mass_column w sequences L i :
  (∀ s, s ∈ sequences → over EM.ATGC s) → (i < L)%nat →
  Qsum (λ b, initial_mass w sequences L b i) EM.ATGC == w * window_count sequences L.
Proof.
  intros Hover Hi. unfold initial_mass, window_count. rewrite Qsum_swap.
  rewrite <- Qsum_scale. apply Qsum_ext. intros s Hs.
  rewrite sequence_mass_column; [|apply ATGC_NoDup|by apply Hover|done].
  apply Qsum_const.
Qed.

Lemma initial_mass_empty w sequences L b i :
  (∀ s, s ∈ sequences → (length s < L)%nat) → initial_mass w sequences L b i == 0.
Proof.
  intros Hshort. apply Qsum_zero. intros s Hs. unfold sequence_mass.
  rewrite starts_short by (by apply Hshort). done.
Qed.

(** Lines 27-31: every window of every sequence adds [w] to its cells. *)
Lemma init_accumulate_spec L w sequences m F :
  models EM.ATGC L m F → (∀ s, s ∈ sequences → over EM.ATGC s) →
  ∃ m', foldM (λ pfm sequence,
                 foldM (λ pfm start,
                          EM.add_site pfm (slice sequence start (start + L)) w)
                       (range (len sequence - Z.of_nat L + 1)) pfm)
              sequences m = Ok m'
        ∧ models EM.ATGC L m' (λ b i, F b i + initial_mass w sequences L b i).
Proof.
  revert m F. induction sequences as [|s l IH]; intros m F Hm Hover.
  - exists m. split; [done|]. eapply models_ext; [|exact Hm].
    intros. unfold initial_mass. simpl. qlra.
  - destruct (add_windows_spec EM.ATGC L (λ _, w) s (starts s L) m F Hm)
      as (m1 & Hadd & Hm1); [apply Hover; by left|].
    destruct (IH m1 _ Hm1) as (m' & Hfold & Hm'); [intros; apply Hover; by right|].
    exists m'. split.
    + simpl. unfold window, starts in Hadd. rewrite Hadd. exact Hfold.
    + eapply models_ext; [|exact Hm']. intros b i _ _.
      unfold initial_mass, sequence_mass. simpl. qlra.
Qed.

Lemma cell_update_raise {V} (m : gmap ascii (list V)) b i f x e :
  cell_get m b i = Ok x → f x = Raise e → cell_update m b i f = Raise e.
Proof.
  intros Hget Hf. apply cell_get_Ok in Hget as (row & Hrow & Hx).
  unfold cell_update, getitem, index. rewrite Hrow. simpl. rewrite Hx. simpl.
  by rewrite Hf.
Qed.

(** The matrices of a successful initialisation. *)
Lemma initialize_pfm_spec sequences L first :
  sequences !! 0%nat = Some first →
  (∀ s, s ∈ sequences → over EM.ATGC s) → (0 < L)%nat →
  ¬ inject_Z (len first - Z.of_nat L + 1) == 0 →
  (∃ s, s ∈ sequences ∧ (L ≤ length s)%nat) →
  ∃ pfm bg, EM.initialize_pfm sequences L = Ok (pfm, bg)
    ∧ models EM.ATGC L pfm
        (λ b i, initial_mass (1 / inject_Z (len first - Z.of_nat L + 1)) sequences L b i
                / (1 / inject_Z (len first - Z.of_nat L + 1) * window_count sequences L))
    ∧ vmodels EM.ATGC bg
        (λ b, occurrences sequences b
              / inject_Z (fold_left Z.add (len <$> sequences) 0%Z)).
Proof.
  intros Hfirst Hover HL Hd (s0 & Hs0 & Hlen0).
  set (d := inject_Z (len first - Z.of_nat L + 1)) in *.
  apply index_Ok in Hfirst.
  unfold EM.initialize_pfm. cbv zeta. run Hfirst.
  fold d. run (truediv_Ok 1 d Hd).
  destruct (init_accumulate_spec L (1 / d) sequences _ _ (models_zeros EM.ATGC L) Hover)
    as (m1 & Hacc & Hm1).
  run Hacc.
  assert (0 < window_count sequences L) as Hwc by (by eapply window_count_pos).
  assert (¬ 1 / d == 0) as Hw.
  { intros Hw. assert (d * (1 / d) == 1) as E by (field; exact Hd).
    rewrite Hw in E. revert E. rewrite Qmult_0_r. discriminate. }
  destruct (normalise_columns_spec EM.ATGC L m1 _ ATGC_NoDup Hm1) as (m2 & Hnorm & Hm2).
  { intros i Hi. rewrite (Qsum_ext _ (λ b, initial_mass (1 / d) sequences L b i)).
    - rewrite initial_mass_column by done. intros E.
      apply Qmult_integral in E as [E|E]; [done|]. rewrite E in Hwc. qlra.
    - intros b _. simpl. qlra. }
  run Hnorm.
  destruct (background_counts_spec sequences _ _ (vmodels_zeros EM.ATGC)) as (bg1 & Hbg & Hbg1).
  run Hbg.
  destruct (normalise_vector_spec EM.ATGC bg1 _
              (inject_Z (fold_left Z.add (len <$> sequences) 0%Z)) ATGC_NoDup Hbg1)
    as (bg2 & Hbgn & Hbg2).
  { assert (0 < fold_left Z.add (len <$> sequences) 0)%Z as Hpos.
    { apply (total_length_pos sequences s0 Hs0). intros ->. simpl in Hlen0. lia. }
    apply inject_Z_nonzero. lia. }
  run Hbgn.
  exists m2, bg2. split; [done|]. split.
  - eapply models_ext; [|exact Hm2]. intros b i _ Hi. cbv beta.
    rewrite (Qsum_ext _ (λ b, initial_mass (1 / d) sequences L b i))
      by (intros; cbv beta; qlra).
    rewrite initial_mass_column by done.
    assert (0 + initial_mass (1 / d) sequences L b i == initial_mass (1 / d) sequences L b i)
      as -> by qlra.
    done.
  - eapply vmodels_ext; [|exact Hbg2]. intros b _. cbv beta.
    assert (0 + occurrences sequences b == occurrences sequences b) as -> by qlra. done.
Qed.

(** Line 24 divides by zero when the first sequence is one symbol short. *)
Lemma initialize_pfm_first_short sequences L first :
  sequences !! 0%nat = Some first → (length first + 1 = L)%nat →
  EM.initialize_pfm sequences L = Raise ZeroDivisionError.
Proof.
  intros Hfirst Hlen. apply index_Ok in Hfirst.
  unfold EM.initialize_pfm. cbv zeta. run Hfirst.
  rewrite truediv_zero; [done|].
  unfold len. replace (Z.of_nat (length first) - Z.of_nat L + 1)%Z with 0%Z by lia. done.
Qed.

(** Line 37 divides by zero when no sequence has a window. *)
Lemma initialize_pfm_no_window sequences L first :
  sequences !! 0%nat = Some first → (length first + 1 ≠ L)%nat →
  (∀ s, s ∈ sequences → over EM.ATGC s ∧ (length s < L)%nat) →
  EM.initialize_pfm sequences L = Raise ZeroDivisionError.
Proof.
  intros Hfirst Hlen Hall.
  assert (0 < L)%nat as HL.
  { specialize (Hall first (list_elem_of_lookup_2 _ _ _ Hfirst)). lia. }
  set (d := inject_Z (len first - Z.of_nat L + 1)).
  assert (¬ d == 0) as Hd.
  { unfold d. apply inject_Z_nonzero. unfold len. lia. }
  apply index_Ok in Hfirst.
  unfold EM.initialize_pfm. cbv zeta. run Hfirst.
  fold d. run (truediv_Ok 1 d Hd).
  destruct (init_accumulate_spec L (1 / d) sequences _ _ (models_zeros EM.ATGC L))
    as (m1 & Hacc & Hm1); [intros; by apply Hall|].
  run Hacc.
  destruct L as [|L]; [lia|]. rewrite range_nat.
  change (seq 0 (S L)) with (0%nat :: seq 1 L).
  destruct (column_sum_spec EM.ATGC (S L) m1 _ 0%nat Hm1 ltac:(lia)) as (t & Ht & Htq).
  unfold column_sum in Ht. apply bind_Ok in Ht as (col & Hcol & [= <-]).
  assert (sum col == 0) as Hzero.
  { rewrite Htq. apply Qsum_zero. intros b _. cbv beta.
    rewrite initial_mass_empty; [qlra|]. intros; by apply Hall. }
  destruct Hm1 as [_ Hm1].
  destruct (Hm1 "A"%char 0%nat) as (x & Hx & _); [by left|lia|].
  cbn [foldM]. run Hcol.
  change EM.ATGC with ("A"%char :: lit "TGC"). cbn [foldM].
  rewrite (cell_update_raise m1 "A"%char 0%nat _ x ZeroDivisionError Hx); [done|].
  by apply truediv_zero.
Qed.

End Initialisation.

(** ** Loops over all the cells *)

Section CellLoops.

Context {V : Type} (eqv : relation V) `{!Equivalence eqv}.

(** [for base in alphabet: for i in range(L): step] *)
Lemma base_major_loop A L (m : gmap ascii (list V)) (F G : ascii → nat → V)
    (step : gmap ascii (list V) → ascii → nat → result (gmap ascii (list V))) :
  NoDup A →
  (∀ m H b i, b ∈ A → (i < L)%nat → models_in eqv A L m H → eqv (H b i) (F b i) →
     ∃ m', step m b i = Ok m' ∧
           models_in eqv A L m'
             (λ b' i', if decide (b' = b ∧ i' = i) then G b i else H b' i')) →
  models_in eqv A L m F →
  ∃ m', foldM (λ m b, foldM (λ m i, step m b i) (range (Z.of_nat L)) m) A m = Ok m'
        ∧ models_in eqv A L m' G.
Proof.
  intros Hnd Hstep Hm. rewrite range_nat.
  destruct (region_loop eqv (λ (x : ascii) (b : ascii) (i : nat), b = x ∧ (i < L)%nat)
              (region_dec := λ x b i, decide (b = x ∧ (i < L)%nat))
              (λ m b, foldM (λ m i, step m b i) (seq 0 L) m)
              A L F G A m) as (m' & Hfold & Hm'); [done| | |done|].
  - intros x y b i _ _ [-> _] [-> _]. done.
  - intros m1 H b Hb Hm1 HF.
    destruct (region_loop eqv (λ (x : nat) (b' : ascii) (i' : nat), b' = b ∧ i' = x)
                (region_dec := λ x b' i', decide (b' = b ∧ i' = x))
                (λ m i, step m b i) A L H G (seq 0 L) m1)
      as (m2 & Hfold2 & Hm2); [apply NoDup_seq| | |done|].
    + intros x y b' i' _ _ [_ ->] [_ ->]. done.
    + intros m3 H3 i Hi Hm3 HH. apply elem_of_seq in Hi.
      destruct (Hstep m3 H3 b i Hb ltac:(lia) Hm3) as (m4 & Hs & Hm4).
      { etrans; [apply HH; [done|lia|done]|]. apply HF; [done|lia|]. split; [done|lia]. }
      exists m4. split; [done|]. eapply models_in_ext; [done| |exact Hm4].
      intros b' i' _ _. cbv beta. case_decide as Hd; [|done].
      destruct Hd as [-> ->]. done.
    + exists m2. split; [done|]. eapply models_in_ext; [done| |exact Hm2].
      intros b' i' _ Hi'. cbv beta.
      destruct (decide (b' = b)) as [->|Hne].
      * rewrite (decide_True (P := b = b ∧ (i' < L)%nat)) by done.
        rewrite decide_True; [done|].
        apply Exists_exists. exists i'. split; [apply elem_of_seq; lia|done].
      * rewrite (decide_False (P := b' = b ∧ (i' < L)%nat)) by tauto.
        rewrite decide_False; [done|]. rewrite Exists_exists.
        intros (x & _ & Hx & _). done.
  - exists m'. split; [done|]. eapply models_in_ext; [done| |exact Hm'].
    intros b i Hb Hi. cbv beta. rewrite decide_True; [done|].
    apply Exists_exists. exists b. done.
Qed.

(** [for i in range(L): for base in alphabet: step] *)
Lemma column_major_loop A L (m : gmap ascii (list V)) (F G : ascii → nat → V)
    (step : gmap ascii (list V) → ascii → nat → result (gmap ascii (list V))) :
  NoDup A →
  (∀ m H b i, b ∈ A → (i < L)%nat → models_in eqv A L m H → eqv (H b i) (F b i) →
     ∃ m', step m b i = Ok m' ∧
           models_in eqv A L m'
             (λ b' i', if decide (b' = b ∧ i' = i) then G b i else H b' i')) →
  models_in eqv A L m F →
  ∃ m', foldM (λ m i, foldM (λ m b, step m b i) A m) (range (Z.of_nat L)) m = Ok m'
        ∧ models_in eqv A L m' G.
Proof.
  intros Hnd Hstep Hm. rewrite range_nat.
  destruct (region_loop eqv (λ (x : nat) (b : ascii) (i : nat), i = x)
              (region_dec := λ x b i, decide (i = x))
              (λ m i, foldM (λ m b, step m b i) A m)
              A L F G (seq 0 L) m) as (m' & Hfold & Hm'); [apply NoDup_seq| | |done|].
  - intros x y b i _ _ -> ->. done.
  - intros m1 H i Hi Hm1 HF. apply elem_of_seq in Hi.
    destruct (region_loop eqv (λ (x : ascii) (b' : ascii) (i' : nat), b' = x ∧ i' = i)
                (region_dec := λ x b' i', decide (b' = x ∧ i' = i))
                (λ m b, step m b i) A L H G A m1)
      as (m2 & Hfold2 & Hm2); [done| | |done|].
    + intros x y b' i' _ _ [-> _] [-> _]. done.
    + intros m3 H3 b Hb Hm3 HH.
      destruct (Hstep m3 H3 b i Hb ltac:(lia) Hm3) as (m4 & Hs & Hm4).
      { etrans; [apply HH; [done|lia|done]|]. apply HF; [done|lia|done]. }
      exists m4. split; [done|]. eapply models_in_ext; [done| |exact Hm4].
      intros b' i' _ _. cbv beta. case_decide as Hd; [|done].
      destruct Hd as [-> ->]. done.
    + exists m2. split; [done|]. eapply models_in_ext; [done| |exact Hm2].
      intros b' i' Hb' _. cbv beta.
      destruct (decide (i' = i)) as [->|Hne].
      * rewrite decide_True; [done|]. apply Exists_exists. exists b'. done.
      * rewrite decide_False; [done|]. rewrite Exists_exists.
        intros (x & _ & _ & Hx). done.
  - exists m'. split; [done|]. eapply models_in_ext; [done| |exact Hm'].
    intros b i Hb Hi. cbv beta. rewrite decide_True; [done|].
    apply Exists_exists. exists i. split; [apply elem_of_seq; lia|done].
Qed.

End CellLoops.

(** ** The expectation step *)

Section Expectation.

Lemma motif_probability_pos A L pfm F site :
  models A L pfm F →
  (∀ i b, site !! i = Some b → b ∈ A ∧ (i < L)%nat ∧ 0 < F b i) →
  ∃ p, EM.motif_probability site pfm = Ok p ∧ 0 < p.
Proof.
  intros [_ Hm]. unfold EM.motif_probability.
  induction site as [|c site IH] using rev_ind; intros Hsite.
  - exists 1e-6. split; [done|]. reflexivity.
  - destruct IH as (p & Hp & Hpos).
    { intros i b Hi. apply Hsite. by apply lookup_app_l_Some. }
    destruct (Hsite (length site) c) as (Hc & Hlen & HF).
    { rewrite lookup_app_r by lia. by rewrite Nat.sub_diag. }
    destruct (Hm c (length site) Hc Hlen) as (x & Hx & Hxq).
    rewrite enumerate_snoc, foldM_snoc. run Hp. run Hx.
    exists (p * x). split; [done|]. rewrite Hxq. by apply Qmult_lt_0_compat.
Qed.

Lemma background_probability_pos A background B site :
  vmodels A background B → (∀ b, b ∈ site → b ∈ A ∧ 0 < B b) →
  ∃ q, EM.background_probability site background = Ok q ∧ 0 < q.
Proof.
  intros [_ Hbg]. unfold EM.background_probability.
  induction site as [|c site IH] using rev_ind; intros Hsite.
  - exists 1e-6. split; [done|]. reflexivity.
  - destruct IH as (q & Hq & Hpos).
    { intros b Hb. apply Hsite, elem_of_app. by left. }
    destruct (Hsite c) as (Hc & HB); [apply elem_of_app; right; by left|].
    destruct (Hbg c Hc) as (x & Hx & Hxq). apply getitem_Ok in Hx.
    rewrite foldM_snoc. run Hq. run Hx.
    exists (q * x). split; [done|]. rewrite Hxq. by apply Qmult_lt_0_compat.
Qed.

(** The two score lists of a sequence. *)
Lemma score_windows_pos sequences L st s :
  em_invariant sequences L st → s ∈ sequences → over EM.ATGC s →
  ∃ bps bgs, EM.score_windows s st.1 st.2 L = Ok (bps, bgs)
    ∧ length bps = length (starts s L) ∧ length bgs = length (starts s L)
    ∧ Forall (λ x, 0 < x) bps ∧ Forall (λ x, 0 < x) bgs.
Proof.
  intros (F & B & Hm & Hbg & _ & Hpos & _ & HB) Hs Hover.
  unfold EM.score_windows. fold (starts s L).
  assert (∀ l, (∀ start, start ∈ l → start ∈ starts s L) →
            ∃ bps bgs,
              foldM (λ '(binding_probs, background_probs) start,
                       bp ← EM.motif_probability (slice s start (start + L)) st.1;
                       bg ← EM.background_probability (slice s start (start + L)) st.2;
                       Ok (binding_probs ++ [bp], background_probs ++ [bg]))
                    l ([], []) = Ok (bps, bgs)
              ∧ length bps = length l ∧ length bgs = length l
              ∧ Forall (λ x, 0 < x) bps ∧ Forall (λ x, 0 < x) bgs) as H.
  { induction l as [|start l IH] using rev_ind; intros Hl.
    - exists [], []. done.
    - destruct IH as (bps & bgs & Hfold & Hl1 & Hl2 & Hp1 & Hp2).
      { intros; apply Hl, elem_of_app; by left. }
      assert (start + L ≤ length s)%nat as Hstart.
      { apply starts_spec, Hl, elem_of_app. right. by left. }
      destruct (motif_probability_pos EM.ATGC L st.1 F (window s L start) Hm)
        as (p & Hp & Hppos).
      { intros i b Hi.
        assert (i < L)%nat as HiL.
        { apply lookup_lt_Some in Hi. pose proof (window_length_le s L start). lia. }
        rewrite window_lookup in Hi by done. split; [|split; [done|]].
        - pose proof Hover as Ho. unfold over in Ho. rewrite Forall_forall in Ho.
          apply Ho. by eapply list_elem_of_lookup_2.
        - by eapply Hpos. }
      destruct (background_probability_pos EM.ATGC st.2 B (window s L start) Hbg)
        as (q & Hq & Hqpos).
      { intros b Hb. pose proof (window_over EM.ATGC s L start Hover) as Hw.
        unfold over in Hw. rewrite Forall_forall in Hw. split; [by apply Hw|].
        apply (HB s b Hs). by eapply window_elem. }
      exists (bps ++ [p]), (bgs ++ [q]).
      rewrite foldM_snoc. run Hfold. unfold window in Hp, Hq.
      run Hp. run Hq.
      rewrite !length_app. simpl. repeat split; [lia|lia| |].
      + apply Forall_app. split; [done|]. by apply Forall_singleton.
      + apply Forall_app. split; [done|]. by apply Forall_singleton. }
  apply H. done.
Qed.

Lemma sum_pos (l : list Q) : l ≠ [] → Forall (λ x, 0 < x) l → 0 < sum l.
Proof.
  intros Hne Hl. rewrite sum_Qsum. destruct l as [|x l]; [done|].
  apply (Qsum_pos _ _ x); [|by left|by inversion Hl].
  intros y Hy. rewrite Forall_forall in Hl. apply Qlt_le_weak. by apply Hl.
Qed.

(** Dividing positive numbers by their sum gives weights that add up to 1. *)
Lemma normalise_pos (l : list Q) :
  l ≠ [] → Forall (λ x, 0 < x) l →
  ∃ r, mapM (λ wp, truediv wp (sum l)) l = Ok r
       ∧ length r = length l ∧ Forall (λ x, 0 < x) r ∧ sum r == 1.
Proof.
  intros Hne Hl. pose proof (sum_pos l Hne Hl) as Hs.
  exists ((λ x, x / sum l) <$> l). split; [|split; [|split]].
  - apply mapM_Ok_intro. intros x _. apply truediv_Ok. qlra.
  - apply length_fmap.
  - apply Forall_fmap. eapply Forall_impl; [exact Hl|].
    intros x Hx. cbv beta in Hx |- *. apply Qlt_shift_div_l; [done|].
    rewrite Qmult_0_l. done.
  - rewrite sum_Qsum, Qsum_fmap.
    rewrite (Qsum_ext _ (λ x, / sum l * x)).
    + rewrite Qsum_scale, <- sum_Qsum. field. qlra.
    + intros x _. simpl. unfold Qdiv. qlra.
Qed.

Lemma normalise_windows_spec bps bgs :
  bps ≠ [] → length bps = length bgs →
  Forall (λ x, 0 < x) bps → Forall (λ x, 0 < x) bgs →
  ∃ r, EM.normalise_windows (bps, bgs) = Ok r
       ∧ length r = length bps ∧ Forall (λ x, 0 < x) r ∧ sum r == 1.
Proof.
  intros Hne Hlen Hbps Hbgs. unfold EM.normalise_windows.
  set (w := (λ '(bp, bg), bp / (bp + bg)) <$> zip bps bgs).
  assert (mapM (λ '(bp, bg), truediv bp (bp + bg)) (zip bps bgs) = Ok w) as Hw.
  { apply mapM_Ok_intro. intros [bp bg] Hin.
    apply elem_of_zip_l in Hin as Hbp. apply elem_of_zip_r in Hin as Hbg.
    rewrite Forall_forall in Hbps. rewrite Forall_forall in Hbgs.
    specialize (Hbps bp Hbp). specialize (Hbgs bg Hbg).
    apply truediv_Ok. qlra. }
  run Hw. cbv zeta.
  assert (length w = length bps) as Hlw.
  { unfold w. rewrite length_fmap, length_zip_with. lia. }
  destruct (normalise_pos w) as (r & Hr & Hlr & Hrp & Hrs).
  - intros Hnil. rewrite Hnil in Hlw. destruct bps; [done|simpl in Hlw; lia].
  - unfold w. apply Forall_fmap, Forall_forall. intros [bp bg] Hin.
    apply elem_of_zip_l in Hin as Hbp. apply elem_of_zip_r in Hin as Hbg.
    rewrite Forall_forall in Hbps. rewrite Forall_forall in Hbgs.
    specialize (Hbps bp Hbp). specialize (Hbgs bg Hbg).
    cbv beta iota. apply Qlt_shift_div_l; [qlra|]. rewrite Qmult_0_l. done.
  - exists r. rewrite Hr. split; [done|]. split; [lia|done].
Qed.

(** The expectation step on the loop's matrices returns responsibilities. *)
Lemma calculate_expectation_spec sequences L st :
  valid_corpus sequences L → em_invariant sequences L st →
  ∃ weighted_probs,
    EM.calculate_expectation sequences st.1 st.2 L = Ok weighted_probs
    ∧ responsibilities_for sequences L weighted_probs.
Proof.
  intros (Hne & HL & Hvalid) Hinv. unfold EM.calculate_expectation.
  assert (∀ l, (∀ s, s ∈ l → s ∈ sequences) →
            ∃ totals,
              mapM (λ sequence, EM.score_windows sequence st.1 st.2 L) l = Ok totals
              ∧ ∃ wps, mapM EM.normalise_windows totals = Ok wps
                       ∧ responsibilities_for l L wps) as H.
  { induction l as [|s l IH]; intros Hl.
    - exists []. split; [done|]. exists []. split; [done|]. constructor.
    - destruct IH as (totals & Htot & wps & Hwps & Hresp).
      { intros; apply Hl; by right. }
      destruct (Hvalid s (Hl s ltac:(left))) as [Hlen Hover].
      destruct (score_windows_pos sequences L st s Hinv (Hl s ltac:(left)) Hover)
        as (bps & bgs & Hscore & Hl1 & Hl2 & Hp1 & Hp2).
      destruct (normalise_windows_spec bps bgs) as (r & Hr & Hlr & Hrp & Hrs);
        [|lia|done|done|].
      { intros ->. rewrite starts_length in Hl1 by done. simpl in Hl1. lia. }
      exists ((bps, bgs) :: totals). split.
      { cbn [mapM]. run Hscore. run Htot. done. }
      exists (r :: wps). split.
      { cbn [mapM]. run Hr. run Hwps. done. }
      constructor; [|done]. split; [lia|done]. }
  destruct (H sequences) as (totals & Htot & wps & Hwps & Hresp); [done|].
  exists wps. run Htot. done.
Qed.

End Expectation.

(** ** The maximisation step *)

Section Maximisation.

Lemma elem_of_enumerate {A} (l : list A) i x : (i, x) ∈ enumerate l ↔ l !! i = Some x.
Proof.
  induction l as [|y l IH] using rev_ind.
  - split; [intros H; by apply elem_of_nil in H|done].
  - rewrite enumerate_snoc, elem_of_app, IH, list_elem_of_singleton. split.
    + intros [H|[= -> ->]]; [by apply lookup_app_l_Some|].
      rewrite lookup_app_r by lia. by rewrite Nat.sub_diag.
    + intros H. destruct (decide (i < length l)%nat) as [Hlt|Hge].
      * left. by rewrite lookup_app_l in H.
      * right. rewrite lookup_app_r in H by lia.
        destruct (i - length l)%nat as [|k] eqn:E; simpl in H; [|done].
        injection H as ->. f_equal. lia.
Qed.

Lemma cell_update_ext {V} (m : gmap ascii (list V)) b i f g :
  (∀ x, f x = g x) → cell_update m b i f = cell_update m b i g.
Proof.
  intros Hfg. unfold cell_update. destruct (getitem m b) as [row|]; [|done].
  rewrite !Ok_bind. destruct (index row i) as [x|]; [|done].
  rewrite !Ok_bind. by rewrite Hfg.
Qed.

Lemma responsibility_lookup resp seq_id start r w :
  resp !! seq_id = Some r → r !! start = Some w → responsibility resp seq_id start = w.
Proof. intros Hr Hw. unfold responsibility. by rewrite Hr, Hw. Qed.

Lemma responsibility_nonneg sequences L resp seq_id start :
  responsibilities_for sequences L resp → 0 <= responsibility resp seq_id start.
Proof.
  intros Hresp. unfold responsibility.
  destruct (resp !! seq_id) as [r|] eqn:Hr; [|qlra].
  destruct (r !! start) as [w|] eqn:Hw; simpl; [|qlra].
  destruct (Forall2_lookup_r _ _ _ _ _ Hresp Hr) as (s & _ & _ & Hpos & _).
  rewrite Forall_forall in Hpos. apply Qlt_le_weak, Hpos.
  by eapply list_elem_of_lookup_2.
Qed.

Lemma responsibility_pos sequences L resp seq_id s start :
  responsibilities_for sequences L resp → sequences !! seq_id = Some s →
  (start + L ≤ length s)%nat → 0 < responsibility resp seq_id start.
Proof.
  intros Hresp Hs Hstart.
  destruct (Forall2_lookup_l _ _ _ _ _ Hresp Hs) as (r & Hr & Hlen & Hpos & _).
  rewrite starts_length in Hlen by lia.
  destruct (lookup_lt_is_Some_2 r start ltac:(lia)) as [w Hw].
  rewrite (responsibility_lookup resp seq_id start r w Hr Hw).
  rewrite Forall_forall in Hpos. apply Hpos. by eapply list_elem_of_lookup_2.
Qed.

Lemma Qsum_seq_lookup (r : list Q) :
  Qsum (λ start, default 0 (r !! start)) (seq 0 (length r)) == sum r.
Proof.
  rewrite sum_Qsum. induction r as [|x r IH] using rev_ind; [done|].
  rewrite length_app. simpl. rewrite Nat.add_1_r, seq_S. simpl.
  rewrite !Qsum_snoc, <- IH.
  rewrite lookup_app_r by lia. rewrite Nat.sub_diag. simpl.
  assert (Qsum (λ start, default 0 ((r ++ [x]) !! start)) (seq 0 (length r))
          == Qsum (λ start, default 0 (r !! start)) (seq 0 (length r))) as ->; [|done].
  apply Qsum_ext. intros start Hs. apply elem_of_seq in Hs.
  rewrite lookup_app_l by lia. done.
Qed.

(** The windows of one sequence share out its responsibilities. *)
Lemma responsibility_total sequences L resp seq_id s :
  responsibilities_for sequences L resp → sequences !! seq_id = Some s →
  Qsum (responsibility resp seq_id) (starts s L) == 1.
Proof.
  intros Hresp Hs.
  destruct (Forall2_lookup_l _ _ _ _ _ Hresp Hs) as (r & Hr & Hlen & _ & Hsum).
  rewrite <- Hsum, <- Qsum_seq_lookup.
  replace (starts s L) with (seq 0 (length r)).
  - apply Qsum_ext. intros start _. unfold responsibility. by rewrite Hr.
  - unfold starts, range in *. rewrite length_seq in Hlen. by rewrite Hlen.
Qed.

Lemma posterior_mass_nonneg sequences L resp l b i :
  responsibilities_for sequences L resp → 0 <= posterior_mass resp l L b i.
Proof.
  intros Hresp. apply Qsum_nonneg. intros [seq_id s] _.
  apply sequence_mass_nonneg. intros start. by eapply responsibility_nonneg.
Qed.

Lemma posterior_mass_pos sequences L resp s start b i :
  responsibilities_for sequences L resp → s ∈ sequences →
  (start + L ≤ length s)%nat → (i < L)%nat → s !! (start + i)%nat = Some b →
  0 < posterior_mass resp sequences L b i.
Proof.
  intros Hresp Hs Hstart Hi Hb.
  apply list_elem_of_lookup in Hs as [seq_id Hs].
  apply (Qsum_pos _ _ (seq_id, s)).
  - intros [id' s'] _. apply sequence_mass_nonneg.
    intros start'. by eapply responsibility_nonneg.
  - by apply elem_of_enumerate.
  - apply (sequence_mass_pos _ s L b i start); [|done|done|done|].
    + intros start'. by eapply responsibility_nonneg.
    + by eapply responsibility_pos.
Qed.

Lemma posterior_mass_column sequences L resp i :
  responsibilities_for sequences L resp →
  (∀ s, s ∈ sequences → over EM.ATGC s) → (i < L)%nat →
  Qsum (λ b, posterior_mass resp sequences L b i) EM.ATGC == inject_Z (len sequences).
Proof.
  intros Hresp Hover Hi. unfold posterior_mass. rewrite Qsum_swap.
  rewrite (Qsum_ext _ (λ _, 1)).
  - rewrite Qsum_const, enumerate_length. unfold len. qlra.
  - intros [seq_id s] Hin. apply elem_of_enumerate in Hin.
    rewrite sequence_mass_column; [|apply ATGC_NoDup| |done].
    + by eapply responsibility_total.
    + apply Hover. by eapply list_elem_of_lookup_2.
Qed.

(** The inner loop of the maximisation is the accumulation of the windows
    of the sequence, weighted by its responsibilities. *)
Lemma maximize_inner_eq L resp seq_id s r m :
  resp !! seq_id = Some r → (length (starts s L) ≤ length r)%nat →
  foldM (λ pfm start,
           weights ← index resp seq_id;
           foldM (λ pfm '(i, base),
                    cell_update pfm base i (λ x, w ← index weights start; Ok (x + w)))
                 (enumerate (slice s start (start + L))) pfm)
        (range (len s - Z.of_nat L + 1)) m
  = foldM (λ pfm start,
             EM.add_site pfm (window s L start) (responsibility resp seq_id start))
          (starts s L) m.
Proof.
  intros Hr Hlen. fold (starts s L). apply foldM_ext. intros pfm start Hstart.
  assert (start < length r)%nat as Hlt.
  { unfold starts, range in *. apply elem_of_seq in Hstart.
    rewrite length_seq in Hlen. lia. }
  destruct (lookup_lt_is_Some_2 r start Hlt) as [w Hw].
  apply index_Ok in Hr as Hr'. run Hr'.
  unfold EM.add_site, window. apply foldM_ext. intros a [i base] _.
  apply cell_update_ext. intros x. apply index_Ok in Hw as Hw'. run Hw'.
  by rewrite (responsibility_lookup resp seq_id start r w Hr Hw).
Qed.

(** Lines 131-138: the accumulation over the corpus. *)
Lemma maximize_accumulate_spec L resp l m bg F G :
  models EM.ATGC L m F → vmodels EM.ATGC bg G →
  (∀ seq_id s, l !! seq_id = Some s →
     over EM.ATGC s ∧ ∃ r, resp !! seq_id = Some r ∧ (length (starts s L) ≤ length r)%nat) →
  ∃ m' bg',
    foldM (λ '(pfm, new_background) '(seq_id, sequence),
             pfm ← foldM (λ pfm start,
                      weights ← index resp seq_id;
                      foldM (λ pfm '(i, base),
                               cell_update pfm base i
                                 (λ x, w ← index weights start; Ok (x + w)))
                            (enumerate (slice sequence start (start + L))) pfm)
                    (range (len sequence - Z.of_nat L + 1)) pfm;
             new_background ← EM.add_counts new_background sequence;
             Ok (pfm, new_background))
          (enumerate l) (m, bg) = Ok (m', bg')
    ∧ models EM.ATGC L m' (λ b i, F b i + posterior_mass resp l L b i)
    ∧ vmodels EM.ATGC bg' (λ b, G b + occurrences l b).
Proof.
  intros Hm Hbg. induction l as [|s l IH] using rev_ind; intros Hl.
  - exists m, bg. split; [done|]. split.
    + eapply models_ext; [|exact Hm]. intros. unfold posterior_mass. simpl. qlra.
    + eapply vmodels_ext; [|exact Hbg]. intros. unfold occurrences. simpl. qlra.
  - destruct IH as (m1 & bg1 & Hfold & Hm1 & Hbg1).
    { intros seq_id s' Hs'. apply Hl. by apply lookup_app_l_Some. }
    destruct (Hl (length l) s) as (Hover & r & Hr & Hlen).
    { rewrite lookup_app_r by lia. by rewrite Nat.sub_diag. }
    destruct (add_windows_spec EM.ATGC L (responsibility resp (length l)) s
                (starts s L) m1 _ Hm1 Hover) as (m2 & Hadd & Hm2).
    destruct (add_counts_spec bg1 _ s Hbg1) as (bg2 & Hcnt & Hbg2).
    exists m2, bg2. split; [|split].
    + rewrite enumerate_snoc, foldM_snoc. run Hfold.
      rewrite (maximize_inner_eq L resp (length l) s r m1 Hr Hlen).
      run Hadd. run Hcnt. done.
    + eapply models_ext; [|exact Hm2]. intros b i _ _. cbv beta.
      unfold posterior_mass. rewrite enumerate_snoc, Qsum_snoc.
      unfold sequence_mass. qlra.
    + eapply vmodels_ext; [|exact Hbg2]. intros b _. cbv beta.
      unfold occurrences. rewrite Qsum_snoc. qlra.
Qed.

(** The values of a non-negative vector with a positive entry add up to a
    positive number. *)
Lemma sum_values_pos A (d : gmap ascii Q) G b :
  vmodels A d G → (∀ b, 0 <= G b) → b ∈ A → 0 < G b → 0 < sum (values d).
Proof.
  intros [Hk Hd] Hnn Hb Hpos. rewrite sum_Qsum.
  destruct (Hd b Hb) as (x & Hx & Hxq).
  apply (Qsum_pos _ _ x).
  - intros y Hy. unfold values in Hy. apply list_elem_of_fmap in Hy as ([k v] & -> & Hkv).
    apply elem_of_map_to_list in Hkv. simpl.
    destruct (Hd k (Hk k ltac:(by eexists))) as (z & Hz & Hzq).
    rewrite Hkv in Hz. injection Hz as ->. rewrite Hzq. apply Hnn.
  - unfold values. apply list_elem_of_fmap. exists (b, x). split; [done|].
    by apply elem_of_map_to_list.
  - by rewrite Hxq.
Qed.

(** The matrices of the maximisation step. *)
Lemma maximize_expectation_spec sequences L background resp :
  valid_corpus sequences L → responsibilities_for sequences L resp →
  ∃ pfm bg t,
    EM.maximize_expectation sequences background resp L = Ok (pfm, bg)
    ∧ models EM.ATGC L pfm
        (λ b i, posterior_mass resp sequences L b i / inject_Z (len sequences))
    ∧ 0 < t ∧ vmodels EM.ATGC bg (λ b, occurrences sequences b / t).
Proof.
  intros (Hne & HL & Hvalid) Hresp. unfold EM.maximize_expectation. cbv zeta.
  destruct (maximize_accumulate_spec L resp sequences _ _ _ _
              (models_zeros EM.ATGC L) (vmodels_zeros EM.ATGC))
    as (m1 & bg1 & Hacc & Hm1 & Hbg1).
  { intros seq_id s Hs. split; [by apply Hvalid; eapply list_elem_of_lookup_2|].
    destruct (Forall2_lookup_l _ _ _ _ _ Hresp Hs) as (r & Hr & Hlen & _).
    exists r. split; [done|lia]. }
  run Hacc.
  assert (¬ inject_Z (len sequences) == 0) as Hn.
  { apply inject_Z_nonzero. unfold len. destruct sequences; [done|simpl; lia]. }
  destruct (base_major_loop Qeq EM.ATGC L m1
              (λ b i, 0 + posterior_mass resp sequences L b i)
              (λ b i, posterior_mass resp sequences L b i / inject_Z (len sequences))
              (λ pfm base i, cell_update pfm base i
                               (λ x, truediv x (inject_Z (len sequences))))
              ATGC_NoDup) as (m2 & Hdiv & Hm2); [|exact Hm1|].
  { intros m3 H3 b i Hb Hi Hm3 HH.
    apply (cell_update_models Qeq EM.ATGC L m3 H3 b i); [done..|].
    intros x Hx. exists (x / inject_Z (len sequences)). split; [by apply truediv_Ok|].
    rewrite Hx, HH. cbv beta. apply Qdiv_comp; [qlra|done]. }
  run Hdiv.
  destruct sequences as [|s0 rest] eqn:Eseq; [done|]. rewrite <- Eseq in *.
  assert (s0 ∈ sequences) as Hs0 by (rewrite Eseq; by left).
  destruct (Hvalid s0 Hs0) as [Hlen0 Hover0].
  destruct s0 as [|c0 s0']; [simpl in Hlen0; lia|].
  assert (c0 ∈ EM.ATGC) as Hc0 by (by inversion Hover0).
  assert (0 < sum (values bg1)) as Ht.
  { apply (sum_values_pos EM.ATGC bg1 _ c0 Hbg1); [|done|].
    - intros b. pose proof (occurrences_nonneg sequences b). qlra.
    - pose proof (occurrences_pos sequences (c0 :: s0') c0 Hs0 ltac:(by left)). qlra. }
  destruct (normalise_vector_spec EM.ATGC bg1 _ (sum (values bg1)) ATGC_NoDup Hbg1)
    as (bg2 & Hbgn & Hbg2); [qlra|].
  run Hbgn.
  exists m2, bg2, (sum (values bg1)). split; [done|]. split; [done|]. split; [done|].
  eapply vmodels_ext; [|exact Hbg2]. intros b _. cbv beta.
  apply Qdiv_comp; [qlra|done].
Qed.

End Maximisation.

(** ** The invariant of the EM loop *)

Section Invariant.

Lemma Qsum_div {A} (f : A → Q) (c : Q) l : Qsum (λ x, f x / c) l == Qsum f l / c.
Proof.
  rewrite (Qsum_ext _ (λ x, / c * f x)).
  - rewrite Qsum_scale. unfold Qdiv. qlra.
  - intros x _. unfold Qdiv. qlra.
Qed.

Lemma Qdiv_nonneg (a c : Q) : 0 <= a → 0 < c → 0 <= a / c.
Proof. intros Ha Hc. apply Qle_shift_div_l; [done|]. by rewrite Qmult_0_l. Qed.

Lemma Qdiv_pos (a c : Q) : 0 < a → 0 < c → 0 < a / c.
Proof. intros Ha Hc. apply Qlt_shift_div_l; [done|]. by rewrite Qmult_0_l. Qed.

Lemma exact_within_tolerance (s : Q) : s == 1 → Qabs (s - 1) <= 1e-9.
Proof.
  intros Hs. assert (s - 1 == 0) as -> by (rewrite Hs; qlra). discriminate.
Qed.


Lemma valid_first sequences L :
  valid_corpus sequences L →
  ∃ first, sequences !! 0%nat = Some first ∧ first ∈ sequences ∧ (L ≤ length first)%nat.
Proof.
  intros (Hne & _ & Hvalid). destruct sequences as [|first rest]; [done|].
  exists first. split; [done|]. split; [by left|]. apply Hvalid. by left.
Qed.

(** Initialisation establishes the invariant. *)
Lemma initialize_pfm_invariant sequences L :
  valid_corpus sequences L →
  ∃ st, EM.initialize_pfm sequences L = Ok st ∧ em_invariant sequences L st.
Proof.
  intros Hv. destruct (valid_first sequences L Hv) as (first & Hfirst & Hin & Hlen).
  destruct Hv as (Hne & HL & Hvalid).
  set (d := inject_Z (len first - Z.of_nat L + 1)).
  assert (0 < d) as Hd.
  { unfold d. change 0 with (inject_Z 0). rewrite <- Zlt_Qlt. unfold len. lia. }
  assert (0 < 1 / d) as Hw by (apply Qdiv_pos; [done|exact Hd]).
  assert (0 < window_count sequences L) as Hwc by (by eapply window_count_pos).
  assert (0 < 1 / d * window_count sequences L) as Hden by (by apply Qmult_lt_0_compat).
  assert (0 < fold_left Z.add (len <$> sequences) 0)%Z as Htot.
  { apply (total_length_pos sequences first Hin). intros ->. simpl in Hlen. lia. }
  assert (0 < inject_Z (fold_left Z.add (len <$> sequences) 0%Z)) as HtotQ.
  { change 0 with (inject_Z 0). by rewrite <- Zlt_Qlt. }
  destruct (initialize_pfm_spec sequences L first Hfirst) as (pfm & bg & Hinit & Hm & Hbg).
  { intros s Hs. by apply Hvalid. }
  { done. }
  { fold d. qlra. }
  { by exists first. }
  exists (pfm, bg). split; [done|].
  eexists _, _. split; [exact Hm|]. split; [exact Hbg|]. fold d.
  assert (∀ b i, 0 <= initial_mass (1 / d) sequences L b i) as Hnn.
  { intros b i. apply Qsum_nonneg. intros s _. apply sequence_mass_nonneg.
    intros _. qlra. }
  split; [|split; [|split]].
  - intros b i. by apply Qdiv_nonneg.
  - intros s start i b Hs Hstart Hi Hb. apply Qdiv_pos; [|done].
    apply (Qsum_pos _ _ s); [|done|].
    + intros y _. apply sequence_mass_nonneg. intros _. qlra.
    + apply (sequence_mass_pos _ s L b i start); [intros _; qlra|done..].
  - intros i Hi. rewrite Qsum_div, initial_mass_column; [|intros; by apply Hvalid|done].
    field. split; qlra.
  - intros s b Hs Hb. apply Qdiv_pos; [|done]. by eapply occurrences_pos.
Qed.

Lemma mapM_is_Ok {A B} (f : A → result B) l :
  (∀ x, x ∈ l → ∃ y, f x = Ok y) → ∃ ys, mapM f l = Ok ys.
Proof.
  induction l as [|x l IH]; intros H; [by exists []|].
  destruct (H x ltac:(left)) as (y & Hy).
  destruct IH as (ys & Hys); [intros; apply H; by right|].
  exists (y :: ys). cbn [mapM]. run Hy. run Hys. done.
Qed.

(** The convergence test of two matrices over ATGC always gives an answer. *)
Lemma has_converged_Ok L old_pfm new_pfm F G :
  models EM.ATGC L old_pfm F → models EM.ATGC L new_pfm G →
  ∃ d, EM.squared_distance old_pfm new_pfm L = Ok d
       ∧ EM.has_converged old_pfm new_pfm L = Ok (lt d 1e-6).
Proof.
  intros [Hko Ho] [_ Hn]. unfold EM.has_converged, EM.squared_distance.
  destruct (mapM_is_Ok
              (λ '(base, i),
                 n ← cell_get new_pfm base i;
                 o ← cell_get old_pfm base i;
                 Ok ((n - o) ^ 2))
              (base ← keys old_pfm; i ← range (Z.of_nat L); [(base, i)]))
    as (terms & Hterms).
  { intros [base i] Hin.
    apply list_elem_of_bind in Hin as (b & Hin & Hb).
    apply list_elem_of_bind in Hin as (j & Hin & Hj).
    apply list_elem_of_singleton in Hin as [= -> ->].
    rewrite range_nat in Hj. apply elem_of_seq in Hj.
    assert (b ∈ EM.ATGC) as HbA.
    { apply Hko. unfold keys in Hb.
      apply list_elem_of_fmap in Hb as ([k v] & -> & Hkv).
      apply elem_of_map_to_list in Hkv. by eexists. }
    destruct (Hn b j HbA ltac:(lia)) as (x & Hx & _).
    destruct (Ho b j HbA ltac:(lia)) as (y & Hy & _).
    exists ((x - y) ^ 2). run Hx. run Hy. done. }
  exists (sum terms). run Hterms. split; [done|]. rewrite Ok_bind. done.
Qed.

(** A pass of the loop body preserves the invariant. *)
Lemma em_step_invariant sequences L st :
  valid_corpus sequences L → em_invariant sequences L st →
  ∃ pfm bg d,
    EM.em_step sequences L st = Ok (pfm, bg, lt d 1e-6)
    ∧ EM.squared_distance st.1 pfm L = Ok d
    ∧ em_invariant sequences L (pfm, bg).
Proof.
  intros Hv Hinv.
  destruct (calculate_expectation_spec sequences L st Hv Hinv) as (resp & Hexp & Hresp).
  destruct (maximize_expectation_spec sequences L st.2 resp Hv Hresp)
    as (pfm & bg & t & Hmax & Hm & Ht & Hbg).
  destruct Hinv as (F & B & HmF & HbgB & Hrest).
  destruct (has_converged_Ok L st.1 pfm _ _ HmF Hm) as (d & Hd & Hconv).
  destruct Hv as (Hne & HL & Hvalid).
  assert (0 < inject_Z (len sequences)) as Hn.
  { change 0 with (inject_Z 0). rewrite <- Zlt_Qlt. unfold len.
    destruct sequences; [done|simpl; lia]. }
  exists pfm, bg, d. split; [|split; [done|]].
  - unfold EM.em_step. destruct st as [pfm0 bg0]. cbv zeta. simpl in *.
    run Hexp. run Hmax. run Hconv. done.
  - eexists _, _. split; [exact Hm|]. split; [exact Hbg|].
    split; [|split; [|split]].
    + intros b i. apply Qdiv_nonneg; [|done]. by eapply posterior_mass_nonneg.
    + intros s start i b Hs Hstart Hi Hb. apply Qdiv_pos; [|done].
      by eapply posterior_mass_pos.
    + intros i Hi. rewrite Qsum_div, posterior_mass_column; [|done| |done].
      * field. qlra.
      * intros; by apply Hvalid.
    + intros s b Hs Hb. apply Qdiv_pos; [|done]. by eapply occurrences_pos.
Qed.

(** Every pass of the loop starts from matrices that satisfy the invariant. *)
Lemma em_iterate_invariant sequences L n :
  valid_corpus sequences L →
  ∃ st, em_iterate sequences L n = Ok st ∧ em_invariant sequences L st.
Proof.
  intros Hv. induction n as [|n (st & Hst & Hinv)].
  - by apply initialize_pfm_invariant.
  - destruct (em_step_invariant sequences L st Hv Hinv) as (pfm & bg & d & Hstep & _ & Hinv').
    exists (pfm, bg). split; [|done]. cbn [em_iterate]. run Hst. run Hstep. done.
Qed.

End Invariant.

(** ** The probability matrix of the Gibbs sampler *)

Section GibbsMatrix.

Lemma protein_alphabet_NoDup : NoDup Gibbs.protein_alphabet.
Proof. by apply (bool_decide_unpack _). Qed.

Lemma pseudocount_pos : 0 < Gibbs.pseudocount.
Proof. reflexivity. Qed.

Lemma pseudocount_share :
  truediv Gibbs.pseudocount (inject_Z (len Gibbs.protein_alphabet))
  = Ok (Gibbs.pseudocount / inject_Z (len Gibbs.protein_alphabet)).
Proof. reflexivity. Qed.

(** Reading the window through [seq[seq_pos]] is reading the slice. *)
Lemma window_by_index {V} (seq : str) start k (m : gmap ascii (list V)) f :
  (start + k ≤ length seq)%nat →
  foldM (λ ppm '(i, seq_pos), base ← index seq seq_pos; cell_update ppm base i f)
        (enumerate (List.seq start k)) m
  = foldM (λ ppm '(i, base), cell_update ppm base i f)
          (enumerate (take k (drop start seq))) m.
Proof.
  induction k as [|k IH]; intros Hk; [done|].
  destruct (lookup_lt_is_Some_2 seq (start + k)%nat ltac:(lia)) as [c Hc].
  rewrite seq_S. rewrite (take_S_r _ _ c) by (by rewrite lookup_drop).
  rewrite !enumerate_snoc, !foldM_snoc, IH by lia.
  rewrite length_seq, length_take, length_drop.
  replace (k `min` (length seq - start))%nat with k by lia.
  apply index_Ok in Hc. apply bind_ext. intros acc. run Hc. done.
Qed.

(** Lines 34-37: the counts of the windows of the other sequences. *)
Lemma build_counts_spec (sequences : list (str * nat)) left_out m F :
  models Gibbs.protein_alphabet Gibbs.M m F → aligned sequences →
  ∃ m', foldM (λ ppm '(j, (seq, starting_pos)),
                 if decide (j ≠ left_out) then
                   foldM (λ ppm '(i, seq_pos),
                            base ← index seq seq_pos;
                            cell_update ppm base i (λ x, Ok (x + 1)))
                         (enumerate (range2 starting_pos (starting_pos + Gibbs.M))) ppm
                 else Ok ppm)
              (enumerate sequences) m = Ok m'
        ∧ models Gibbs.protein_alphabet Gibbs.M m'
            (λ b i, F b i + window_mass sequences left_out b i).
Proof.
  intros Hm. induction sequences as [|[seq start] l IH] using rev_ind; intros Hal.
  - exists m. split; [done|]. eapply models_ext; [|exact Hm].
    intros. unfold window_mass. simpl. qlra.
  - destruct IH as (m1 & Hfold & Hm1).
    { intros s st Hin. apply Hal, elem_of_app. by left. }
    destruct (Hal seq start) as [Hstart Hover]; [apply elem_of_app; right; by left|].
    rewrite enumerate_snoc, foldM_snoc. run Hfold.
    destruct (decide (length l ≠ left_out)) as [Hne|Heq].
    + unfold range2. replace (start + Gibbs.M - start)%nat with Gibbs.M by lia.
      rewrite window_by_index by done.
      destruct (add_window_spec Gibbs.protein_alphabet Gibbs.M m1
                  (take Gibbs.M (drop start seq)) 1 _ Hm1) as (m' & Hadd & Hm').
      { apply Forall_take. by apply Forall_drop. }
      { rewrite length_take. lia. }
      exists m'. split; [exact Hadd|]. eapply models_ext; [|exact Hm'].
      intros b i _ _. cbv beta. unfold window_mass.
      rewrite enumerate_snoc, Qsum_snoc. rewrite decide_True by done.
      unfold window, slice. replace (start + Gibbs.M - start)%nat with Gibbs.M by lia.
      qlra.
    + exists m1. split; [done|]. eapply models_ext; [|exact Hm1].
      intros b i _ _. cbv beta. unfold window_mass.
      rewrite enumerate_snoc, Qsum_snoc. rewrite decide_False by done. qlra.
Qed.

Lemma window_mass_nonneg sequences left_out b i : 0 <= window_mass sequences left_out b i.
Proof.
  apply Qsum_nonneg. intros [j [seq start]] _. case_decide; [apply hit_nonneg|qlra].
Qed.

(** The mass of a cell is the count of the specification. *)
Lemma window_mass_count sequences left_out b i :
  (i < Gibbs.M)%nat →
  window_mass sequences left_out b i
  == inject_Z (Z.of_nat (count_at sequences left_out b i)).
Proof.
  intros Hi. unfold window_mass, count_at.
  induction (enumerate sequences) as [|[j [seq start]] l IH]; [done|].
  cbn [Qsum fold_right]. fold (Qsum (λ '(j, (seq, start)),
          if decide (j ≠ left_out) then hit (window seq Gibbs.M start) b i else 0) l).
  rewrite IH. rewrite filter_cons. unfold hit. rewrite window_lookup by done.
  destruct (decide (j ≠ left_out)) as [Hj|Hj].
  - destruct (decide (seq !! (start + i)%nat = Some b)) as [Hb|Hb].
    + rewrite decide_True by done. cbn [length].
      rewrite Nat2Z.inj_succ, <- Z.add_1_r, inject_Z_plus.
      change (inject_Z 1) with 1. qlra.
    + rewrite decide_False by tauto. qlra.
  - rewrite decide_False by tauto. qlra.
Qed.

Lemma column_total_Qsum sequences left_out i :
  inject_Z (Z.of_nat (column_total sequences left_out i))
  == Qsum (λ b, inject_Z (Z.of_nat (count_at sequences left_out b i))) Gibbs.protein_alphabet.
Proof.
  unfold column_total. induction Gibbs.protein_alphabet as [|b l IH]; [done|].
  cbn [fmap list_fmap sum_list foldr Qsum fold_right].
  change (foldr Nat.add 0%nat ((λ b, count_at sequences left_out b i) <$> l))
    with (sum_list ((λ b, count_at sequences left_out b i) <$> l)).
  rewrite Nat2Z.inj_add, inject_Z_plus, IH. done.
Qed.

(** The column totals of line 40. *)
Lemma total_at_each_pos_spec A L m F :
  models A L m F →
  ∃ totals,
    mapM (λ i, col ← mapM (λ base, cell_get m base i) A; Ok (sum col))
         (range (Z.of_nat L)) = Ok totals
    ∧ ∀ i, (i < L)%nat → ∃ t, totals !! i = Some t ∧ t == Qsum (λ b, F b i) A.
Proof.
  intros Hm. rewrite range_nat.
  assert (∀ n, (n ≤ L)%nat →
            ∃ totals,
              mapM (λ i, col ← mapM (λ base, cell_get m base i) A; Ok (sum col))
                   (seq 0 n) = Ok totals
              ∧ length totals = n
              ∧ ∀ i, (i < n)%nat → ∃ t, totals !! i = Some t ∧ t == Qsum (λ b, F b i) A)
    as H.
  { induction n as [|n IH]; intros Hn.
    - exists []. split; [done|]. split; [done|]. intros; lia.
    - destruct IH as (totals & Hmap & Hlen & Htot); [lia|].
      destruct (column_sum_spec A L m F n Hm ltac:(lia)) as (t & Ht & Htq).
      exists (totals ++ [t]). rewrite seq_S, mapM_snoc. run Hmap.
      change (0 + n)%nat with n. unfold column_sum in Ht. run Ht. split; [done|]. split.
      { rewrite length_app. simpl. lia. }
      intros i Hi. destruct (decide (i < n)%nat) as [Hlt|Hge].
      + destruct (Htot i Hlt) as (t' & Ht' & Htq'). exists t'.
        rewrite lookup_app_l by lia. done.
      + assert (i = n) as -> by lia. exists t.
        rewrite lookup_app_r by lia. rewrite Hlen, Nat.sub_diag. done. }
  destruct (H L) as (totals & Hmap & _ & Htot); [lia|]. by exists totals.
Qed.

(** The matrix [build_ppm] returns. *)
Lemma build_ppm_spec sequences left_out :
  aligned sequences →
  ∃ ppm, Gibbs.build_ppm sequences left_out = Ok ppm
    ∧ models Gibbs.protein_alphabet Gibbs.M ppm
        (λ b i, (window_mass sequences left_out b i
                 + Gibbs.pseudocount / inject_Z (len Gibbs.protein_alphabet))
                / (Qsum (λ b, window_mass sequences left_out b i) Gibbs.protein_alphabet
                   + Gibbs.pseudocount)).
Proof.
  intros Hal. unfold Gibbs.build_ppm. cbv zeta.
  destruct (build_counts_spec sequences left_out _ _
              (models_zeros Gibbs.protein_alphabet Gibbs.M) Hal) as (m1 & Hcnt & Hm1).
  run Hcnt.
  assert (models Gibbs.protein_alphabet Gibbs.M m1 (window_mass sequences left_out)) as Hm1'.
  { eapply models_ext; [|exact Hm1]. intros; cbv beta; qlra. }
  destruct (total_at_each_pos_spec _ _ m1 _ Hm1') as (totals & Htot & Htotals).
  run Htot.
  destruct (column_major_loop Qeq Gibbs.protein_alphabet Gibbs.M m1
              (window_mass sequences left_out)
              (λ b i, (window_mass sequences left_out b i
                       + Gibbs.pseudocount / inject_Z (len Gibbs.protein_alphabet))
                      / (Qsum (λ b, window_mass sequences left_out b i)
                              Gibbs.protein_alphabet
                         + Gibbs.pseudocount))
              (λ ppm base i,
                 ppm ← cell_update ppm base i
                         (λ x, d ← truediv Gibbs.pseudocount
                                     (inject_Z (len Gibbs.protein_alphabet));
                               Ok (x + d));
                 cell_update ppm base i
                   (λ x, t ← index totals i; truediv x (t + Gibbs.pseudocount)))
              protein_alphabet_NoDup) as (m2 & Hloop & Hm2); [|exact Hm1'|].
  - intros m3 H3 b i Hb Hi Hm3 HH.
    destruct (cell_update_models Qeq _ _ m3 H3 b i
                (λ x, d ← truediv Gibbs.pseudocount (inject_Z (len Gibbs.protein_alphabet));
                      Ok (x + d))
                (window_mass sequences left_out b i
                 + Gibbs.pseudocount / inject_Z (len Gibbs.protein_alphabet))
                Hm3 Hb Hi) as (m4 & Hu1 & Hm4).
    { intros x Hx. rewrite pseudocount_share. eexists. split; [done|].
      by rewrite Hx, HH. }
    destruct (Htotals i Hi) as (t & Ht & Htq). apply index_Ok in Ht.
    destruct (cell_update_models Qeq _ _ m4 _ b i
                (λ x, t ← index totals i; truediv x (t + Gibbs.pseudocount))
                ((window_mass sequences left_out b i
                  + Gibbs.pseudocount / inject_Z (len Gibbs.protein_alphabet))
                 / (Qsum (λ b, window_mass sequences left_out b i) Gibbs.protein_alphabet
                    + Gibbs.pseudocount))
                Hm4 Hb Hi) as (m5 & Hu2 & Hm5).
    { intros x Hx. rewrite decide_True in Hx by done.
      assert (0 <= t) as Htnn.
      { rewrite Htq. apply Qsum_nonneg. intros; apply window_mass_nonneg. }
      pose proof pseudocount_pos.
      exists (x / (t + Gibbs.pseudocount)). run Ht.
      split; [apply truediv_Ok; qlra|]. by rewrite Hx, Htq. }
    exists m5. run Hu1. split; [exact Hu2|].
    eapply models_ext; [|exact Hm5]. intros b' i' _ _. cbv beta.
    case_decide; done.
  - exists m2. split; [exact Hloop|done].
Qed.

End GibbsMatrix.

(** ** Likelihoods *)

Section Likelihood.




End Likelihood.




(** ** Statements about the matrices *)

Section ExampleFacts.

Lemma example_sequences_valid : valid_corpus example_sequences 2.
Proof.
  split; [done|]. split; [lia|]. intros s Hs.
  repeat (apply elem_of_cons in Hs as [->|Hs];
          [split; [simpl; lia|by apply (bool_decide_unpack _)]|]).
  by apply elem_of_nil in Hs.
Qed.

Lemma aligned_Forall (sequences : list (str * nat)) :
  Forall (λ p, (p.2 + Gibbs.M ≤ length p.1)%nat
               ∧ Forall (λ c, c ∈ Gibbs.protein_alphabet) p.1) sequences →
  aligned sequences.
Proof.
  intros H seq start Hin. rewrite Forall_forall in H. apply (H (seq, start) Hin).
Qed.

Lemma example_alignment_aligned : aligned example_alignment.
Proof. apply aligned_Forall. by apply (bool_decide_unpack _). Qed.


End ExampleFacts.

(** C10: each cell of the Gibbs PPM equals (c + pseudocount/k) /
    (column_total + pseudocount), where c counts the symbol at that column
    over the motif windows of all sequences except the held-out one, k is
    the size of the alphabet and column_total the total count of the
    column. *)
Theorem build_ppm_cell_formula sequences left_out :
  aligned sequences →
  ∃ ppm, Gibbs.build_ppm sequences left_out = Ok ppm
    ∧ ∀ b i, b ∈ Gibbs.protein_alphabet → (i < Gibbs.M)%nat →
        ∃ x, cell_get ppm b i = Ok x
          ∧ x == (inject_Z (Z.of_nat (count_at sequences left_out b i))
                  + Gibbs.pseudocount / inject_Z (len Gibbs.protein_alphabet))
                 / (inject_Z (Z.of_nat (column_total sequences left_out i))
                    + Gibbs.pseudocount).
Proof.
  intros Hal. destruct (build_ppm_spec sequences left_out Hal) as (ppm & Hppm & [_ Hm]).
  exists ppm. split; [done|]. intros b i Hb Hi.
  destruct (Hm b i Hb Hi) as (x & Hx & Hxq). exists x. split; [done|].
  rewrite Hxq, column_total_Qsum, window_mass_count by done.
  apply Qdiv_comp; [done|]. apply Qplus_comp; [|done].
  apply Qsum_ext. intros b' _. by apply window_mass_count.
Qed.

Lemma build_ppm_cell_formula_witness :
  aligned example_alignment
  ∧ ∃ ppm, Gibbs.build_ppm example_alignment 0 = Ok ppm
      ∧ ∀ b i, b ∈ Gibbs.protein_alphabet → (i < Gibbs.M)%nat →
          ∃ x, cell_get ppm b i = Ok x
            ∧ x == (inject_Z (Z.of_nat (count_at example_alignment 0 b i))
                    + Gibbs.pseudocount / inject_Z (len Gibbs.protein_alphabet))
                   / (inject_Z (Z.of_nat (column_total example_alignment 0 i))
                      + Gibbs.pseudocount).
Proof.
  split; [exact example_alignment_aligned|].
  exact (build_ppm_cell_formula example_alignment 0 example_alignment_aligned).
Defined.



(** ** The expectation step and the specification's posterior *)

Section Posterior.





End Posterior.



(** ** Which exceptions initialisation can raise *)

Section Exceptions.

Context (e : exn).

Lemma never_bind {A B} (r : result A) (f : A → result B) :
  never_raises e r → (∀ a, never_raises e (f a)) → never_raises e (r ≫= f).
Proof.
  intros Hr Hf. destruct r as [a|e']; [apply Hf|].
  rewrite Raise_bind. intros H. apply Hr. by injection H as ->.
Qed.

Lemma never_Ok {A} (a : A) : never_raises e (Ok a).
Proof. done. Qed.

Lemma never_foldM {A B} (body : B → A → result B) l acc :
  (∀ acc x, never_raises e (body acc x)) → never_raises e (foldM body l acc).
Proof.
  intros Hb. revert acc. induction l as [|x l IH]; intros acc; [done|].
  cbn [foldM]. by apply never_bind.
Qed.

Lemma never_mapM {A B} (f : A → result B) l :
  (∀ x, never_raises e (f x)) → never_raises e (mapM f l).
Proof.
  intros Hf. induction l as [|x l IH]; [done|].
  cbn [mapM]. apply never_bind; [done|]. intros y.
  apply never_bind; [done|]. intros ys. done.
Qed.

Lemma never_truediv a b : e ≠ ZeroDivisionError → never_raises e (truediv a b).
Proof. intros He. unfold truediv. destruct (Qeq_bool b 0); [congruence|done]. Qed.

Lemma never_index {A} (l : list A) i : e ≠ IndexError → never_raises e (index l i).
Proof. intros He. unfold index. destruct (l !! i); [done|congruence]. Qed.

Lemma never_getitem {V} (d : gmap ascii V) k : e ≠ KeyError → never_raises e (getitem d k).
Proof. intros He. unfold getitem. destruct (d !! k); [done|congruence]. Qed.

Lemma never_cell_get {V} (m : gmap ascii (list V)) b i :
  e ≠ KeyError → e ≠ IndexError → never_raises e (cell_get m b i).
Proof.
  intros. unfold cell_get. apply never_bind; [by apply never_getitem|].
  intros. by apply never_index.
Qed.

Lemma never_cell_update {V} (m : gmap ascii (list V)) b i f :
  e ≠ KeyError → e ≠ IndexError → (∀ x, never_raises e (f x)) →
  never_raises e (cell_update m b i f).
Proof.
  intros ? ? Hf. unfold cell_update. apply never_bind; [by apply never_getitem|].
  intros row. apply never_bind; [by apply never_index|]. intros x.
  apply never_bind; [apply Hf|]. done.
Qed.

Lemma never_item_update (d : gmap ascii Q) b f :
  e ≠ KeyError → (∀ x, never_raises e (f x)) → never_raises e (item_update d b f).
Proof.
  intros ? Hf. unfold item_update. apply never_bind; [by apply never_getitem|].
  intros x. apply never_bind; [apply Hf|]. done.
Qed.

End Exceptions.

(** No statement of [initialize_pfm] raises the specification's
    [InvalidMotifLength]. *)
Lemma initialize_pfm_never_invalid sequences L :
  never_raises InvalidMotifLength (EM.initialize_pfm sequences L).
Proof.
  unfold EM.initialize_pfm. cbv zeta.
  apply never_bind; [by apply never_index|]. intros first.
  apply never_bind; [by apply never_truediv|]. intros weight.
  apply never_bind.
  { apply never_foldM. intros pfm sequence. apply never_foldM. intros pfm' start.
    unfold EM.add_site. apply never_foldM. intros pfm'' [i base].
    by apply never_cell_update. }
  intros pfm. apply never_bind.
  { apply never_foldM. intros pfm' i. apply never_bind.
    - apply never_mapM. intros base. by apply never_cell_get.
    - intros col. apply never_foldM. intros pfm'' base.
      apply never_cell_update; [done..|]. intros x. by apply never_truediv. }
  intros pfm'. apply never_bind.
  { apply never_foldM. intros bg sequence. unfold EM.add_counts.
    apply never_foldM. intros bg' base. by apply never_item_update. }
  intros bg. apply never_bind; [|done].
  apply never_foldM. intros bg' base. apply never_item_update; [done|].
  intros x. by apply never_truediv.
Qed.

(** C2 (amended): when the motif length exceeds the length of some sequence,
    initialisation never raises InvalidMotifLength (the source has no such
    check).  It raises ZeroDivisionError when the first sequence is one
    symbol shorter than the motif, and when no sequence of a corpus over
    ATGC is as long as the motif; when the corpus is over ATGC, some sequence
    is as long as the motif and the first is not one symbol short, it returns
    a matrix, built from the windows of the sequences that are long enough,
    whose columns add up to 1. *)
Theorem initialize_pfm_motif_too_long sequences L first :
  sequences !! 0%nat = Some first →
  (∃ s, s ∈ sequences ∧ (length s < L)%nat) →
  never_raises InvalidMotifLength (EM.initialize_pfm sequences L)
  ∧ ((length first + 1 = L)%nat →
       EM.initialize_pfm sequences L = Raise ZeroDivisionError)
  ∧ ((∀ s, s ∈ sequences → over EM.ATGC s ∧ (length s < L)%nat) →
       EM.initialize_pfm sequences L = Raise ZeroDivisionError)
  ∧ ((∀ s, s ∈ sequences → over EM.ATGC s) → (length first + 1 ≠ L)%nat →
     (∃ s, s ∈ sequences ∧ (L ≤ length s)%nat) →
       ∃ pfm bg, EM.initialize_pfm sequences L = Ok (pfm, bg)
                 ∧ columns_sum_to_one EM.ATGC L pfm).
Proof.
  intros Hfirst (short & Hshort & Hlen).
  split; [apply initialize_pfm_never_invalid|]. split; [|split].
  - intros H1. by eapply initialize_pfm_first_short.
  - intros Hall. destruct (decide (length first + 1 = L)%nat) as [H1|H1].
    + by eapply initialize_pfm_first_short.
    + by eapply initialize_pfm_no_window.
  - intros Hover H1 (long & Hlong & Hll).
    set (d := inject_Z (len first - Z.of_nat L + 1)).
    assert (¬ d == 0) as Hd.
    { unfold d. apply inject_Z_nonzero. unfold len. lia. }
    destruct (initialize_pfm_spec sequences L first Hfirst Hover ltac:(lia) Hd)
      as (pfm & bg & Hinit & Hm & _); [by exists long|].
    exists pfm, bg. split; [done|]. intros i Hi.
    destruct (column_sum_spec _ _ pfm _ i Hm Hi) as (t & Ht & Htq).
    exists t. split; [done|].
    assert (t == 1) as Ht1; [|split; [done|by apply exact_within_tolerance]].
    rewrite Htq, Qsum_div, initial_mass_column by done. fold d.
    pose proof (window_count_pos sequences L long Hlong Hll) as Hwc.
    field. split; [done|qlra].
Qed.

Lemma initialize_pfm_motif_too_long_witness :
  never_raises InvalidMotifLength (EM.initialize_pfm [lit "ATGC"; lit "A"] 2)
  ∧ ((length (lit "ATGC") + 1 = 2)%nat →
       EM.initialize_pfm [lit "ATGC"; lit "A"] 2 = Raise ZeroDivisionError)
  ∧ ((∀ s, s ∈ [lit "ATGC"; lit "A"] → over EM.ATGC s ∧ (length s < 2)%nat) →
       EM.initialize_pfm [lit "ATGC"; lit "A"] 2 = Raise ZeroDivisionError)
  ∧ ((∀ s, s ∈ [lit "ATGC"; lit "A"] → over EM.ATGC s) →
     (length (lit "ATGC") + 1 ≠ 2)%nat →
     (∃ s, s ∈ [lit "ATGC"; lit "A"] ∧ (2 ≤ length s)%nat) →
       ∃ pfm bg, EM.initialize_pfm [lit "ATGC"; lit "A"] 2 = Ok (pfm, bg)
                 ∧ columns_sum_to_one EM.ATGC 2 pfm).
Proof.
  apply (initialize_pfm_motif_too_long [lit "ATGC"; lit "A"] 2 (lit "ATGC")).
  - reflexivity.
  - exists (lit "A"). split; [right; left|simpl; lia].
Defined.

(** C2 as stated fails: with a motif longer than the second sequence,
    initialisation returns a matrix and a background, no error. *)
Lemma initialize_pfm_accepts_long_motif :
  (∃ s, s ∈ [lit "ATGC"; lit "A"] ∧ (length s < 2)%nat)
  ∧ ∃ pfm bg, EM.initialize_pfm [lit "ATGC"; lit "A"] 2 = Ok (pfm, bg).
Proof.
  split.
  - exists (lit "A"). split; [right; left|simpl; lia].
  - destruct (EM.initialize_pfm [lit "ATGC"; lit "A"] 2) as [[pfm bg]|e] eqn:E;
      [by exists pfm, bg|].
    vm_compute in E. discriminate E.
Qed.

(** ** The candidate distribution of the held-out sequence *)

Section Distribution.

Lemma foldM_preserves {A B} (P : B → Prop) (body : B → A → result B) l acc acc' :
  (∀ a x a', P a → body a x = Ok a' → P a') →
  P acc → foldM body l acc = Ok acc' → P acc'.
Proof.
  intros Hbody. revert acc. induction l as [|x l IH]; intros acc HP Hfold.
  - by injection Hfold as <-.
  - cbn [foldM] in Hfold. apply bind_Ok in Hfold as (a & Ha & Hfold).
    eapply IH; [|exact Hfold]. by eapply Hbody.
Qed.

(** The distribution has one entry per offset of [range(len(seq) - M)]. *)
Lemma distribution_length PWM background seq d :
  Gibbs.generate_distribution_for_left_out_sequence PWM background seq = Ok d →
  length d = (length seq - Gibbs.M)%nat.
Proof.
  unfold Gibbs.generate_distribution_for_left_out_sequence. cbv zeta. intros H.
  apply bind_Ok in H as (dist & Hdist & Hmap).
  apply mapM_Ok_length in Hmap. rewrite Hmap.
  assert (length dist = Z.to_nat (len seq - Z.of_nat Gibbs.M)) as ->; [|unfold len; lia].
  revert Hdist.
  apply (foldM_preserves (λ d, length d = Z.to_nat (len seq - Z.of_nat Gibbs.M)));
    [|apply length_replicate].
  intros a i a' Ha.
  apply (foldM_preserves (λ d, length d = Z.to_nat (len seq - Z.of_nat Gibbs.M)));
    [|done].
  intros b [j base] b' Hb Hstep.
  apply bind_Ok in Hstep as (x & _ & Hstep). apply bind_Ok in Hstep as (y & _ & Hstep).
  apply bind_Ok in Hstep as (z & _ & Hstep). apply bind_Ok in Hstep as (r & _ & Hstep).
  injection Hstep as <-. by rewrite length_insert.
Qed.

(** A sequence exactly as long as the motif gets the empty distribution. *)
Lemma distribution_exact_length PWM background seq :
  length seq = Gibbs.M →
  Gibbs.generate_distribution_for_left_out_sequence PWM background seq = Ok [].
Proof.
  intros Hlen. unfold Gibbs.generate_distribution_for_left_out_sequence, len.
  rewrite Hlen, Z.sub_diag. done.
Qed.

Lemma np_choice_empty_population a p u : (a ≤ 0)%Z → np_choice a p u = Raise ValueError.
Proof. intros Ha. unfold np_choice. by rewrite (proj2 (Z.leb_le a 0) Ha). Qed.

(** The inner loop multiplies entry [i] by positive ratios. *)
Lemma distribution_window_pos (PWM : gmap ascii (list Q)) (background : gmap ascii Q)
    (site : str) (i : nat) (dist : list Q) :
  (∀ j b, site !! j = Some b →
     (∃ x, cell_get PWM b j = Ok x ∧ 0 < x) ∧ (∃ y, background !! b = Some y ∧ 0 < y)) →
  (i < length dist)%nat → Forall (λ w, 0 < w) dist →
  ∃ dist',
    foldM (λ distribution '(j, base),
             d ← index distribution i;
             x ← cell_get PWM base j;
             b ← getitem background base;
             r ← truediv x b;
             Ok (<[i := d * r]> distribution))
          (enumerate site) dist = Ok dist'
    ∧ length dist' = length dist ∧ Forall (λ w, 0 < w) dist'.
Proof.
  intros Hsite Hi Hpos. induction site as [|c site IH] using rev_ind.
  - by exists dist.
  - destruct IH as (d1 & Hfold & Hlen & Hpos1).
    { intros j b Hj. apply Hsite. by apply lookup_app_l_Some. }
    destruct (Hsite (length site) c) as ((x & Hx & Hxpos) & (y & Hy & Hypos)).
    { rewrite lookup_app_r by lia. by rewrite Nat.sub_diag. }
    destruct (lookup_lt_is_Some_2 d1 i ltac:(lia)) as [d Hd].
    assert (0 < d) as Hdpos.
    { rewrite Forall_forall in Hpos1. apply Hpos1. by eapply list_elem_of_lookup_2. }
    rewrite enumerate_snoc, foldM_snoc. run Hfold.
    apply index_Ok in Hd as Hd'. run Hd'. run Hx.
    apply getitem_Ok in Hy. run Hy. rewrite (truediv_Ok x y) by qlra. rewrite Ok_bind.
    eexists. split; [done|]. split; [by rewrite length_insert|].
    apply Forall_insert; [done|].
    apply Qmult_lt_0_compat; [done|]. by apply Qdiv_pos.
Qed.

(** The weights before normalisation. *)
Lemma distribution_weights_pos (PWM : gmap ascii (list Q)) (background : gmap ascii Q)
    (seq : str) (l : list nat) (dist : list Q) :
  (∀ i j b, slice seq i (i + Gibbs.M) !! j = Some b →
     (∃ x, cell_get PWM b j = Ok x ∧ 0 < x) ∧ (∃ y, background !! b = Some y ∧ 0 < y)) →
  (∀ i, i ∈ l → (i < length dist)%nat) → Forall (λ w, 0 < w) dist →
  ∃ dist',
    foldM (λ distribution i,
             foldM (λ distribution '(j, base),
                      d ← index distribution i;
                      x ← cell_get PWM base j;
                      b ← getitem background base;
                      r ← truediv x b;
                      Ok (<[i := d * r]> distribution))
                   (enumerate (slice seq i (i + Gibbs.M))) distribution)
          l dist = Ok dist'
    ∧ length dist' = length dist ∧ Forall (λ w, 0 < w) dist'.
Proof.
  intros Hsite. revert dist. induction l as [|i l IH]; intros dist Hl Hpos.
  - by exists dist.
  - destruct (distribution_window_pos PWM background (slice seq i (i + Gibbs.M)) i dist)
      as (d1 & Hin & Hlen1 & Hpos1); [by apply Hsite|apply Hl; by left|done|].
    destruct (IH d1) as (d2 & Hout & Hlen2 & Hpos2); [|done|].
    { intros i' Hi'. rewrite Hlen1. apply Hl. by right. }
    exists d2. cbn [foldM]. run Hin. split; [done|]. split; [lia|done].
Qed.

(** With a positive matrix and positive background probabilities for its
    symbols, a sequence longer than the motif gets positive weights that add
    up to 1. *)
Lemma generate_distribution_spec (PWM : gmap ascii (list Q)) (background : gmap ascii Q)
    (seq : str) :
  (Gibbs.M < length seq)%nat →
  (∀ j b, (j < Gibbs.M)%nat → b ∈ seq → ∃ x, cell_get PWM b j = Ok x ∧ 0 < x) →
  (∀ b, b ∈ seq → ∃ y, background !! b = Some y ∧ 0 < y) →
  ∃ d, Gibbs.generate_distribution_for_left_out_sequence PWM background seq = Ok d
       ∧ length d = (length seq - Gibbs.M)%nat
       ∧ Forall (λ w, 0 < w) d ∧ sum d == 1.
Proof.
  intros Hlen HPWM Hbg.
  unfold Gibbs.generate_distribution_for_left_out_sequence. cbv zeta.
  set (n := Z.to_nat (len seq - Z.of_nat Gibbs.M)).
  assert (n = length seq - Gibbs.M)%nat as Hn by (unfold n, len; lia).
  destruct (distribution_weights_pos PWM background seq
              (range (len seq - Z.of_nat Gibbs.M)) (replicate n 1e-6))
    as (dist & Hdist & Hlend & Hposd).
  { intros i j b Hj.
    assert (j < Gibbs.M)%nat as HjM.
    { apply lookup_lt_Some in Hj. pose proof (window_length_le seq Gibbs.M i) as Hw.
      unfold window in Hw. lia. }
    assert (b ∈ seq) as Hb.
    { apply (window_elem seq Gibbs.M i). unfold window. by eapply list_elem_of_lookup_2. }
    split; [by apply HPWM|by apply Hbg]. }
  { intros i Hi. unfold range in Hi. apply elem_of_seq in Hi.
    rewrite length_replicate. fold n in Hi. lia. }
  { apply Forall_replicate. reflexivity. }
  run Hdist.
  destruct (normalise_pos dist) as (d & Hd & Hlen' & Hpos' & Hsum').
  - intros ->. rewrite length_replicate in Hlend. simpl in Hlend. lia.
  - done.
  - exists d. split; [exact Hd|]. rewrite length_replicate in Hlend.
    split; [lia|done].
Qed.

(** Positive weights that add up to 1 pass the checks of
    [numpy.random.choice]; the draw is an index of the distribution when the
    uniform sample lies in [0, 1). *)
Lemma cumsum_from_spec acc (p : list Q) :
  length (cumsum_from acc p) = length p
  ∧ (p ≠ [] → List.last (cumsum_from acc p) 0 == acc + sum p
              ∧ List.last (cumsum_from acc p) 0 ∈ cumsum_from acc p).
Proof.
  revert acc. induction p as [|x p IH]; intros acc; [done|].
  destruct (IH (acc + x)) as [Hlen Hlast]. split; [simpl; by rewrite Hlen|].
  intros _. destruct p as [|y p].
  - simpl. split; [unfold sum; simpl; qlra|by left].
  - destruct Hlast as [Hl Hin]; [done|].
    change (cumsum_from acc (x :: y :: p)) with ((acc + x) :: cumsum_from (acc + x) (y :: p)).
    assert (cumsum_from (acc + x) (y :: p) ≠ []) as Hne by done.
    assert (List.last ((acc + x) :: cumsum_from (acc + x) (y :: p)) 0
            = List.last (cumsum_from (acc + x) (y :: p)) 0) as ->.
    { destruct (cumsum_from (acc + x) (y :: p)); done. }
    split; [|by right]. rewrite Hl, (sum_cons (y :: p) x). qlra.
Qed.

Lemma filter_length_lt {A} (P : A → Prop) `{!∀ x, Decision (P x)} (l : list A) x :
  x ∈ l → ¬ P x → (length (filter P l) < length l)%nat.
Proof.
  induction l as [|y l IH]; intros Hin Hx; [by apply elem_of_nil in Hin|].
  rewrite filter_cons. pose proof (length_filter P l) as Hle.
  apply elem_of_cons in Hin as [->|Hin].
  - rewrite decide_False by done. simpl. lia.
  - specialize (IH Hin Hx). case_decide; simpl; lia.
Qed.

Lemma np_choice_spec (p : list Q) (u : Q) :
  p ≠ [] → Forall (λ w, 0 < w) p → sum p == 1 →
  ∃ pos, np_choice (len p) p u = Ok pos ∧ (u < 1 → (pos < length p)%nat).
Proof.
  intros Hne Hpos Hsum. unfold np_choice.
  assert (0 < len p)%Z as Hlen by (unfold len; destruct p; [done|simpl; lia]).
  rewrite (proj2 (Z.leb_gt (len p) 0) Hlen), Z.eqb_refl. cbn [negb].
  assert (existsb (λ x, lt x 0) p = false) as ->.
  { apply not_true_is_false. intros He. apply existsb_exists in He as (x & Hx & Hlt).
    apply lt_spec in Hlt. rewrite Forall_forall in Hpos.
    specialize (Hpos x (proj2 (list_elem_of_In _ _) Hx)). qlra. }
  assert (lt np_atol (Qabs (sum p - 1)) = false) as ->.
  { apply not_true_is_false. intros Hlt. apply lt_spec in Hlt.
    assert (sum p - 1 == 0) as E by (rewrite Hsum; qlra).
    rewrite E in Hlt. revert Hlt. unfold np_atol. discriminate. }
  cbv zeta. eexists. split; [done|]. intros Hu.
  destruct (cumsum_from_spec 0 p) as [Hcl Hlast].
  destruct (Hlast Hne) as [Hl Hin]. rewrite <- Hcl.
  apply (filter_length_lt _ _ (List.last (cumsum_from 0 p) 0)); [done|].
  intros Hle. apply Qle_bool_iff in Hle.
  assert (List.last (cumsum_from 0 p) 0 == 1) as E by (rewrite Hl, Hsum; qlra).
  rewrite E in Hle. assert (1 / 1 == 1) as E1 by reflexivity. rewrite E1 in Hle. qlra.
Qed.

End Distribution.

(** ** The background of the Gibbs sampler *)

Section GibbsBackground.

Lemma outside_count_nonneg sequences M b : 0 <= outside_count sequences M b.
Proof.
  apply Qsum_nonneg. intros [seq start] _.
  change 0 with (inject_Z 0). rewrite <- Zle_Qle. lia.
Qed.

Lemma outside_count_pos sequences M b :
  outside_window sequences M b → 0 < outside_count sequences M b.
Proof.
  intros (seq & start & Hin & Hb). apply (Qsum_pos _ _ (seq, start)); [|done|].
  - intros [seq' start'] _. change 0 with (inject_Z 0). rewrite <- Zle_Qle. lia.
  - change 0 with (inject_Z 0). rewrite <- Zlt_Qlt.
    destruct Hb as [Hb|Hb]; apply count_pos in Hb; lia.
Qed.

(** Lines 78-82: the counts outside the motif windows. *)
Lemma outside_counts_spec (sequences : list (str * nat)) M bf G :
  vmodels Gibbs.protein_alphabet bf G →
  ∃ bf',
    foldM (λ bf '(seq, start),
             foldM (λ bf base,
                      item_update bf base
                        (λ x, Ok (x + inject_Z (Z.of_nat (count (take start seq) base
                                                   + count (drop (start + M) seq) base)))))
                   Gibbs.protein_alphabet bf)
          sequences bf = Ok bf'
    ∧ vmodels Gibbs.protein_alphabet bf' (λ b, G b + outside_count sequences M b).
Proof.
  revert bf G. induction sequences as [|[seq start] l IH]; intros bf G Hbf.
  - exists bf. split; [done|]. eapply vmodels_ext; [|exact Hbf].
    intros b _. unfold outside_count. simpl. qlra.
  - destruct (item_loop_spec Gibbs.protein_alphabet bf G Gibbs.protein_alphabet
                (λ base x, Ok (x + inject_Z (Z.of_nat (count (take start seq) base
                                               + count (drop (start + M) seq) base))))
                (λ b, G b + inject_Z (Z.of_nat (count (take start seq) b
                                        + count (drop (start + M) seq) b)))
                Hbf protein_alphabet_NoDup) as (bf1 & Hstep & Hbf1); [done| |].
    { intros b x _ Hx. eexists. split; [done|]. by rewrite Hx. }
    destruct (IH bf1 (λ b, G b + inject_Z (Z.of_nat (count (take start seq) b
                                            + count (drop (start + M) seq) b))))
      as (bf' & Hfold & Hbf').
    { eapply vmodels_ext; [|exact Hbf1]. intros b Hb. cbv beta. by rewrite decide_True. }
    exists bf'. cbn [foldM]. run Hstep. split; [exact Hfold|].
    eapply vmodels_ext; [|exact Hbf']. intros b _. cbv beta.
    unfold outside_count. rewrite Qsum_cons. cbv beta iota. qlra.
Qed.

(** The background distribution, when some residue occurs outside the
    windows. *)
Lemma calculate_background_spec sequences M b0 :
  b0 ∈ Gibbs.protein_alphabet → outside_window sequences M b0 →
  ∃ bg t, Gibbs.calculate_background_probabilities sequences M = Ok bg
    ∧ 0 < t
    ∧ vmodels Gibbs.protein_alphabet bg (λ b, outside_count sequences M b / t).
Proof.
  intros Hb0 Hout. unfold Gibbs.calculate_background_probabilities. cbv zeta.
  destruct (outside_counts_spec sequences M _ _ (vmodels_zeros Gibbs.protein_alphabet))
    as (bf & Hcnt & Hbf).
  run Hcnt.
  assert (0 < sum (values bf)) as Ht.
  { apply (sum_values_pos Gibbs.protein_alphabet bf _ b0 Hbf); [|done|].
    - intros b. pose proof (outside_count_nonneg sequences M b). qlra.
    - pose proof (outside_count_pos sequences M b0 Hout). qlra. }
  destruct (normalise_vector_spec Gibbs.protein_alphabet bf _ (sum (values bf))
              protein_alphabet_NoDup Hbf) as (bg & Hnorm & Hbg); [qlra|].
  exists bg, (sum (values bf)). split; [exact Hnorm|]. split; [done|].
  eapply vmodels_ext; [|exact Hbg]. intros b _. cbv beta.
  apply Qdiv_comp; [qlra|done].
Qed.

(** The cells of the smoothed matrix are positive. *)
Lemma build_ppm_pos sequences left_out :
  aligned sequences →
  ∃ ppm, Gibbs.build_ppm sequences left_out = Ok ppm
    ∧ ∃ F, models Gibbs.protein_alphabet Gibbs.M ppm F ∧ ∀ b i, 0 < F b i.
Proof.
  intros Hal. destruct (build_ppm_spec sequences left_out Hal) as (ppm & Hppm & Hm).
  exists ppm. split; [done|]. eexists. split; [exact Hm|].
  intros b i. cbv beta. pose proof pseudocount_pos.
  pose proof (window_mass_nonneg sequences left_out b i).
  assert (0 <= Qsum (λ b, window_mass sequences left_out b i) Gibbs.protein_alphabet)
    by (apply Qsum_nonneg; intros; apply window_mass_nonneg).
  apply Qdiv_pos; [|qlra].
  assert (0 < Gibbs.pseudocount / inject_Z (len Gibbs.protein_alphabet)); [|qlra].
  apply Qdiv_pos; [done|reflexivity].
Qed.

End GibbsBackground.




(** C1: the distribution has one weight per offset of [range(len - M)], so
    the last valid offset [len - M] has none; a held-out sequence exactly as
    long as the motif gets the empty distribution and sampling raises
    [ValueError], although line 17 gives such a sequence the offset 0. *)
Theorem exact_length_sequence_cannot_be_sampled PWM background seq u raw :
  length seq = Gibbs.M →
  randint 0 (len seq - Z.of_nat Gibbs.M) raw = Ok 0%Z
  ∧ Gibbs.generate_distribution_for_left_out_sequence PWM background seq = Ok []
  ∧ Gibbs.choose_new_position [] seq u = Raise ValueError.
Proof.
  intros Hlen. split; [|split].
  - unfold randint, len. rewrite Hlen, Z.sub_diag. simpl. by rewrite Z.mod_1_r.
  - by apply distribution_exact_length.
  - unfold Gibbs.choose_new_position. apply np_choice_empty_population.
    unfold len. lia.
Qed.

Lemma exact_length_sequence_cannot_be_sampled_witness :
  length (lit "ACDEFGHIKLMN") = Gibbs.M
  ∧ randint 0 (len (lit "ACDEFGHIKLMN") - Z.of_nat Gibbs.M) 7 = Ok 0%Z
  ∧ Gibbs.generate_distribution_for_left_out_sequence
      example_pfm example_background (lit "ACDEFGHIKLMN") = Ok []
  ∧ Gibbs.choose_new_position [] (lit "ACDEFGHIKLMN") (1 # 2) = Raise ValueError.
Proof.
  split; [reflexivity|].
  apply (exact_length_sequence_cannot_be_sampled
           example_pfm example_background (lit "ACDEFGHIKLMN") (1 # 2) 7).
  reflexivity.
Defined.

(** ** The weight matrix *)

Section Weights.

Lemma constant_rows_lookup (f : ascii → Q) (alphabet : str) n b :
  b ∈ alphabet → constant_rows f alphabet n !! b = Some (replicate n (f b)).
Proof.
  unfold constant_rows.
  assert (∀ (d : gmap ascii (list Q)),
            (b ∈ alphabet ∨ d !! b = Some (replicate n (f b))) →
            fold_left (λ d base, <[base := replicate n (f base)]> d) alphabet d !! b
            = Some (replicate n (f b))) as H.
  { induction alphabet as [|a l IH]; intros d [Hin|Hd]; simpl.
    - by apply elem_of_nil in Hin.
    - done.
    - apply IH. apply elem_of_cons in Hin as [->|Hin]; [|by left].
      right. by rewrite lookup_insert_eq.
    - apply IH. right. destruct (decide (a = b)) as [->|Hne].
      + by rewrite lookup_insert_eq.
      + by rewrite lookup_insert_ne. }
  intros Hin. apply H. by left.
Qed.

Lemma constant_rows_cell (f : ascii → Q) (alphabet : str) n b i :
  b ∈ alphabet → (i < n)%nat → cell_get (constant_rows f alphabet n) b i = Ok (f b).
Proof.
  intros Hb Hi. apply cell_get_Ok. eexists. split.
  - by apply constant_rows_lookup.
  - by apply lookup_replicate_2.
Qed.

Lemma tabulate_lookup (f : ascii → Q) (alphabet : str) b :
  b ∈ alphabet → tabulate f alphabet !! b = Some (f b).
Proof.
  unfold tabulate.
  assert (∀ (d : gmap ascii Q),
            (b ∈ alphabet ∨ d !! b = Some (f b)) →
            fold_left (λ d base, <[base := f base]> d) alphabet d !! b = Some (f b)) as H.
  { induction alphabet as [|a l IH]; intros d [Hin|Hd]; simpl.
    - by apply elem_of_nil in Hin.
    - done.
    - apply IH. apply elem_of_cons in Hin as [->|Hin]; [|by left].
      right. by rewrite lookup_insert_eq.
    - apply IH. right. destruct (decide (a = b)) as [->|Hne].
      + by rewrite lookup_insert_eq.
      + by rewrite lookup_insert_ne. }
  intros Hin. apply H. by left.
Qed.

Lemma cell_value_pos m b i : 0 < cell_value m b i → cell_get m b i = Ok (cell_value m b i).
Proof.
  unfold cell_value. destruct (cell_get m b i); [done|]. intros H. by apply Qlt_irrefl in H.
Qed.

Lemma item_value_pos (d : gmap ascii Q) b : 0 < item_value d b → d !! b = Some (item_value d b).
Proof.
  unfold item_value. destruct (d !! b); [done|]. simpl. intros H. by apply Qlt_irrefl in H.
Qed.

Lemma math_log2_pos (x : Q) : 0 < x → math_log2 x = Ok (log2 (Q2R x)).
Proof.
  intros Hx. unfold math_log2. destruct (Qle_bool x 0) eqn:E; [|done].
  apply Qle_bool_iff in E. qlra.
Qed.

Lemma ln_2_pos : (0 < ln 2)%R.
Proof. pose proof ln_lt_2. rlra. Qed.

(** The logarithm is monotone on positive rationals. *)
Lemma log2_le (x y : Q) : 0 < x → x <= y → (log2 (Q2R x) <= log2 (Q2R y))%R.
Proof.
  intros Hx Hxy. unfold log2.
  assert (0 < Q2R x)%R as Hx' by (rewrite <- RMicromega.Q2R_0; by apply Qlt_Rlt).
  apply Qle_Rle in Hxy. pose proof ln_2_pos as H2.
  apply Rmult_le_compat_r; [left; by apply Rinv_0_lt_compat|].
  destruct Hxy as [Hlt|Heq]; [left; by apply ln_increasing|right; by rewrite Heq].
Qed.

(** The cells of the weight matrix are the base-2 log-odds. *)
Lemma ppm_to_pwm_spec (ppm : gmap ascii (list Q)) (background : gmap ascii Q) :
  (∀ s j, s ∈ Gibbs.protein_alphabet → (j < Gibbs.M)%nat → 0 < cell_value ppm s j) →
  (∀ s, s ∈ Gibbs.protein_alphabet → 0 < item_value background s) →
  ∃ pwm, Gibbs.ppm_to_pwm ppm background = Ok pwm
    ∧ models_in eq Gibbs.protein_alphabet Gibbs.M pwm
        (λ s j, log2 (Q2R (cell_value ppm s j / item_value background s))).
Proof.
  intros Hppm Hbg. unfold Gibbs.ppm_to_pwm. cbv zeta.
  apply (base_major_loop eq Gibbs.protein_alphabet Gibbs.M _ (λ _ _, 0%R)
           (λ s j, log2 (Q2R (cell_value ppm s j / item_value background s)))
           (λ pwm base i,
              cell_set pwm base i
                (x ← cell_get ppm base i;
                 b ← getitem background base;
                 r ← truediv x b;
                 math_log2 r))
           protein_alphabet_NoDup); [|apply (models_in_zeros eq)].
  intros m H b i Hb Hi Hm _.
  apply (cell_set_models eq _ _ m H b i _
           (log2 (Q2R (cell_value ppm b i / item_value background b)))); [done..| |done].
  pose proof (Hppm b i Hb Hi) as Hx. pose proof (Hbg b Hb) as Hy.
  run (cell_value_pos ppm b i Hx).
  run (proj2 (getitem_Ok background b _) (item_value_pos background b Hy)).
  assert (¬ item_value background b == 0) as Hnz by qlra.
  rewrite (truediv_Ok (cell_value ppm b i) (item_value background b) Hnz), Ok_bind.
  apply math_log2_pos. by apply Qdiv_pos.
Qed.

Lemma fold_Rmax_ge (l : list R) (x : R) :
  (x <= fold_left Rmax l x)%R ∧ ∀ y, y ∈ l → (y <= fold_left Rmax l x)%R.
Proof.
  revert x. induction l as [|z l IH]; intros x; simpl.
  - split; [rlra|]. intros y Hy. by apply elem_of_nil in Hy.
  - destruct (IH (Rmax x z)) as [H1 H2]. split.
    + pose proof (Rmax_l x z). rlra.
    + intros y Hy. apply elem_of_cons in Hy as [->|Hy]; [|by apply H2].
      pose proof (Rmax_r x z). rlra.
Qed.

Lemma fold_Rmax_le (l : list R) (x m : R) :
  (x <= m)%R → (∀ y, y ∈ l → (y <= m)%R) → (fold_left Rmax l x <= m)%R.
Proof.
  revert x. induction l as [|z l IH]; intros x Hx Hl; simpl; [done|].
  apply IH.
  - apply Rmax_lub; [done|]. apply Hl. by left.
  - intros y Hy. apply Hl. by right.
Qed.

(** The greatest element of a list is its maximum. *)
Lemma max_R_greatest (l : list R) (m : R) :
  m ∈ l → (∀ y, y ∈ l → (y <= m)%R) → max_R l = Ok m.
Proof.
  intros Hin Hub. destruct l as [|x l]; [by apply elem_of_nil in Hin|].
  unfold max_R. f_equal. apply Rle_antisym.
  - apply fold_Rmax_le; [apply Hub; by left|]. intros y Hy. apply Hub. by right.
  - destruct (fold_Rmax_ge l x) as [H1 H2].
    apply elem_of_cons in Hin as [->|Hin]; [done|by apply H2].
Qed.

(** The maximum of a column of the weight matrix is the log-odds of the
    symbol with the greatest ratio to its background. *)
Lemma column_max_spec (ppm : gmap ascii (list Q)) (background : gmap ascii Q) i b :
  (∀ s j, s ∈ Gibbs.protein_alphabet → (j < Gibbs.M)%nat → 0 < cell_value ppm s j) →
  (∀ s, s ∈ Gibbs.protein_alphabet → 0 < item_value background s) →
  (i < Gibbs.M)%nat → b ∈ Gibbs.protein_alphabet →
  (∀ s, s ∈ Gibbs.protein_alphabet →
     cell_value ppm s i / item_value background s
     <= cell_value ppm b i / item_value background b) →
  ∃ pwm, Gibbs.ppm_to_pwm ppm background = Ok pwm
    ∧ Gibbs.column_max pwm i
      = Ok (log2 (Q2R (cell_value ppm b i / item_value background b))).
Proof.
  intros Hppm Hbg Hi Hb Hmax.
  destruct (ppm_to_pwm_spec ppm background Hppm Hbg) as (pwm & Hpwm & [_ Hm]).
  exists pwm. split; [done|]. unfold Gibbs.column_max.
  rewrite (mapM_Ok_intro _
             (λ s, log2 (Q2R (cell_value ppm s i / item_value background s)))).
  - rewrite Ok_bind. apply max_R_greatest.
    + apply list_elem_of_fmap. by exists b.
    + intros y Hy. apply list_elem_of_fmap in Hy as (s & -> & Hs).
      apply log2_le; [|by apply Hmax]. apply Qdiv_pos; [by apply Hppm|by apply Hbg].
  - intros s Hs. destruct (Hm s i Hs Hi) as (x & Hx & ->). done.
Qed.

End Weights.

(** C5 (amended): for every probability matrix with positive entries and
    every positive background, [ppm_to_pwm] returns a weight matrix, and the
    maximum over the symbols of its column i equals log2(ppm[b][i] /
    background[b]) for the symbol b with the greatest ratio ppm[b][i] /
    background[b] in that column, the symbol with the greatest log-odds. *)
Theorem column_max_is_greatest_log_odds (ppm : gmap ascii (list Q))
    (background : gmap ascii Q) i b :
  (∀ s j, s ∈ Gibbs.protein_alphabet → (j < Gibbs.M)%nat → 0 < cell_value ppm s j) →
  (∀ s, s ∈ Gibbs.protein_alphabet → 0 < item_value background s) →
  (i < Gibbs.M)%nat → b ∈ Gibbs.protein_alphabet →
  (∀ s, s ∈ Gibbs.protein_alphabet →
     cell_value ppm s i / item_value background s
     <= cell_value ppm b i / item_value background b) →
  ∃ pwm, Gibbs.ppm_to_pwm ppm background = Ok pwm
    ∧ Gibbs.column_max pwm i
      = Ok (log2 (Q2R (cell_value ppm b i / item_value background b))).
Proof. apply column_max_spec. Qed.

Section SkewedExample.

Lemma skewed_cell s j :
  s ∈ Gibbs.protein_alphabet → (j < Gibbs.M)%nat →
  cell_value skewed_ppm s j = skewed_frequency s.
Proof.
  intros Hs Hj. unfold cell_value, skewed_ppm. by rewrite constant_rows_cell.
Qed.

Lemma skewed_item s :
  s ∈ Gibbs.protein_alphabet → item_value skewed_bg s = skewed_background s.
Proof. intros Hs. unfold item_value, skewed_bg. by rewrite tabulate_lookup. Qed.

Lemma skewed_frequency_pos s : 0 < skewed_frequency s.
Proof. unfold skewed_frequency. repeat case_decide; reflexivity. Qed.

Lemma skewed_background_pos s : 0 < skewed_background s.
Proof. unfold skewed_background. repeat case_decide; reflexivity. Qed.

Lemma skewed_ppm_pos s j :
  s ∈ Gibbs.protein_alphabet → (j < Gibbs.M)%nat → 0 < cell_value skewed_ppm s j.
Proof. intros. rewrite skewed_cell by done. apply skewed_frequency_pos. Qed.

Lemma skewed_bg_pos s : s ∈ Gibbs.protein_alphabet → 0 < item_value skewed_bg s.
Proof. intros. rewrite skewed_item by done. apply skewed_background_pos. Qed.

Lemma cysteine_in_alphabet : "C"%char ∈ Gibbs.protein_alphabet.
Proof. by apply (bool_decide_unpack _). Qed.

Lemma alanine_in_alphabet : "A"%char ∈ Gibbs.protein_alphabet.
Proof. by apply (bool_decide_unpack _). Qed.

(** Cysteine has the greatest ratio to its background in every column. *)
Lemma cysteine_best_ratio s j :
  s ∈ Gibbs.protein_alphabet → (j < Gibbs.M)%nat →
  cell_value skewed_ppm s j / item_value skewed_bg s
  <= cell_value skewed_ppm "C"%char j / item_value skewed_bg "C"%char.
Proof.
  intros Hs Hj. rewrite !skewed_cell, !skewed_item by (done || apply cysteine_in_alphabet).
  unfold skewed_frequency, skewed_background.
  repeat case_decide; try done; apply Qle_bool_iff; reflexivity.
Qed.

(** Alanine is the most frequent symbol of every column. *)
Lemma alanine_most_frequent s j :
  s ∈ Gibbs.protein_alphabet → (j < Gibbs.M)%nat →
  cell_value skewed_ppm s j <= cell_value skewed_ppm "A"%char j.
Proof.
  intros Hs Hj. rewrite !skewed_cell by (done || apply alanine_in_alphabet).
  unfold skewed_frequency.
  repeat case_decide; try done; apply Qle_bool_iff; reflexivity.
Qed.

Lemma skewed_pair_well_formed :
  columns_sum_to_one Gibbs.protein_alphabet Gibbs.M skewed_ppm
  ∧ Qsum (item_value skewed_bg) Gibbs.protein_alphabet == 1.
Proof.
  split.
  - intros i Hi. unfold column_sum.
    rewrite (mapM_Ok_intro _ skewed_frequency).
    + rewrite Ok_bind. eexists. split; [done|].
      assert (sum (skewed_frequency <$> Gibbs.protein_alphabet) == 1) as H
        by (by vm_compute).
      split; [done|by apply exact_within_tolerance].
    + intros s Hs. by apply constant_rows_cell.
  - rewrite (Qsum_ext _ skewed_background); [by vm_compute|].
    intros s Hs. by rewrite skewed_item.
Qed.

Lemma log2_4_pos : (0 < log2 4)%R.
Proof.
  unfold log2. apply Rdiv_lt_0_compat; [|apply ln_2_pos].
  rewrite <- ln_1. apply ln_increasing; rlra.
Qed.

Lemma log2_1 : log2 1 = 0%R.
Proof. unfold log2. rewrite ln_1. unfold Rdiv. apply Rmult_0_l. Qed.

End SkewedExample.

Lemma column_max_is_greatest_log_odds_witness :
  ∃ pwm, Gibbs.ppm_to_pwm skewed_ppm skewed_bg = Ok pwm
    ∧ Gibbs.column_max pwm 0
      = Ok (log2 (Q2R (cell_value skewed_ppm "C"%char 0 / item_value skewed_bg "C"%char))).
Proof.
  apply (column_max_is_greatest_log_odds skewed_ppm skewed_bg 0 "C"%char).
  - exact skewed_ppm_pos.
  - exact skewed_bg_pos.
  - unfold Gibbs.M. lia.
  - exact cysteine_in_alphabet.
  - intros s Hs. apply cysteine_best_ratio; [done|unfold Gibbs.M; lia].
Defined.

(** C5 as stated fails: in a well-formed pair where alanine is the most
    frequent symbol of column 0, the maximum of the column of the weight
    matrix is 2, the log-odds of cysteine, not the log-odds 0 of alanine. *)
Lemma most_frequent_symbol_is_not_maximum :
  columns_sum_to_one Gibbs.protein_alphabet Gibbs.M skewed_ppm
  ∧ Qsum (item_value skewed_bg) Gibbs.protein_alphabet == 1
  ∧ (∀ s, s ∈ Gibbs.protein_alphabet → 0 < item_value skewed_bg s)
  ∧ (∀ s, s ∈ Gibbs.protein_alphabet →
       cell_value skewed_ppm s 0 <= cell_value skewed_ppm "A"%char 0)
  ∧ ∃ pwm m, Gibbs.ppm_to_pwm skewed_ppm skewed_bg = Ok pwm
      ∧ Gibbs.column_max pwm 0 = Ok m
      ∧ m ≠ log2 (Q2R (cell_value skewed_ppm "A"%char 0 / item_value skewed_bg "A"%char)).
Proof.
  destruct skewed_pair_well_formed as [Hcols Hbg].
  split; [done|]. split; [done|]. split; [exact skewed_bg_pos|]. split.
  { intros s Hs. apply alanine_most_frequent; [done|unfold Gibbs.M; lia]. }
  destruct (column_max_spec skewed_ppm skewed_bg 0 "C"%char skewed_ppm_pos skewed_bg_pos)
    as (pwm & Hpwm & Hmax).
  { unfold Gibbs.M. lia. }
  { exact cysteine_in_alphabet. }
  { intros s Hs. apply cysteine_best_ratio; [done|unfold Gibbs.M; lia]. }
  exists pwm. eexists. split; [done|]. split; [exact Hmax|].
  assert (0 < Gibbs.M)%nat as HM by (unfold Gibbs.M; lia).
  rewrite (skewed_cell "C"%char 0 cysteine_in_alphabet HM),
    (skewed_cell "A"%char 0 alanine_in_alphabet HM),
    (skewed_item "C"%char cysteine_in_alphabet),
    (skewed_item "A"%char alanine_in_alphabet).
  assert (Q2R (skewed_frequency "C"%char / skewed_background "C"%char) = 4%R) as ->.
  { rewrite (Qeq_eqR _ (4 # 1)) by reflexivity. unfold Q2R. simpl. rlra. }
  assert (Q2R (skewed_frequency "A"%char / skewed_background "A"%char) = 1%R) as ->.
  { rewrite (Qeq_eqR _ (1 # 1)) by reflexivity. unfold Q2R. simpl. rlra. }
  rewrite log2_1. pose proof log2_4_pos. rlra.
Qed.

(** ** The main loop of the Gibbs sampler *)

Section MainLoop.

Variable random_raw : nat → nat.
Variable uniform : nat → Q.

Lemma foldM_is_Ok {A B} (body : B → A → result B) l acc :
  (∀ a x, x ∈ l → ∃ a', body a x = Ok a') → ∃ acc', foldM body l acc = Ok acc'.
Proof.
  revert acc. induction l as [|x l IH]; intros acc H; [by exists acc|].
  destruct (H acc x ltac:(left)) as (a' & Ha').
  destruct (IH a') as (acc' & Hacc'); [intros; apply H; by right|].
  exists acc'. cbn [foldM]. run Ha'. done.
Qed.

(** A weight matrix over the alphabet has a consensus and a score. *)
Lemma report_Ok (PWM : gmap ascii (list R)) G :
  models_in eq Gibbs.protein_alphabet Gibbs.M PWM G → ∃ out, Gibbs.report PWM = Ok out.
Proof.
  intros [_ Hm]. unfold Gibbs.report.
  destruct (mapM_is_Ok (Gibbs.best_base PWM) (range (Z.of_nat Gibbs.M))) as (motif & Hmotif).
  { intros i Hi. rewrite range_nat in Hi. apply elem_of_seq in Hi.
    unfold Gibbs.best_base.
    change Gibbs.protein_alphabet with ("A"%char :: lit "CDEFGHIKLMNPQRSTVWY") in *.
    destruct (Hm "A"%char i ltac:(left) ltac:(lia)) as (x & Hx & _). run Hx.
    destruct (foldM_is_Ok
                (λ '(best, bs) k,
                   s ← cell_get PWM k i;
                   Ok (if Rlt_dec bs s then (k, s) else (best, bs)))
                (lit "CDEFGHIKLMNPQRSTVWY") ("A"%char, x)) as ([best bs] & Hfold).
    { intros [best bs] k Hk. destruct (Hm k i ltac:(by right) ltac:(lia)) as (y & Hy & _).
      run Hy. by eexists. }
    rewrite Hfold. by eexists. }
  destruct (mapM_is_Ok (Gibbs.column_max PWM) (range (Z.of_nat Gibbs.M))) as (maxima & Hmax).
  { intros i Hi. rewrite range_nat in Hi. apply elem_of_seq in Hi.
    unfold Gibbs.column_max.
    rewrite (mapM_Ok_intro _ (λ s, G s i)).
    - rewrite Ok_bind. by eexists.
    - intros s Hs. destruct (Hm s i Hs ltac:(lia)) as (x & Hx & ->). done. }
  run Hmotif. run Hmax. by eexists.
Qed.

Lemma wait_for_fresh_index_nil fuel n idx k :
  Gibbs.wait_for_fresh_index random_raw fuel n [] idx k = Some (Ok (idx, k)).
Proof. destruct fuel; done. Qed.

(** With an empty exclusion list the hold-out index is the first draw. *)
Lemma choose_left_out_sequence_nil fuel (n : Z) k sequences :
  (0 < n)%Z →
  Gibbs.choose_left_out_sequence random_raw fuel n k sequences []
  = Some (entry ← index sequences (Z.to_nat (Z.of_nat (random_raw k) mod n));
          Ok (Z.to_nat (Z.of_nat (random_raw k) mod n), entry.1, S k)).
Proof.
  intros Hn. unfold Gibbs.choose_left_out_sequence, randint.
  rewrite (proj2 (Z.ltb_ge (n - 1) 0)) by lia.
  replace (n - 1 - 0 + 1)%Z with n by lia. rewrite Z.add_0_l.
  by rewrite wait_for_fresh_index_nil.
Qed.

(** An iteration on an aligned corpus in which every residue occurs outside
    the motif windows and the drawn sequence is longer than the motif: it
    succeeds, holds out the drawn index whatever was held out before, and
    leaves the exclusion list empty. *)
Lemma iteration_spec fuel (st : Gibbs.state) seq start :
  let idx := Z.to_nat (Z.of_nat (random_raw (Gibbs.randint_calls st))
                       mod Gibbs.num_of_sequences st) in
  Gibbs.previous_sequence_indexes st = [] →
  (0 < Gibbs.num_of_sequences st)%Z →
  aligned (Gibbs.sequences st) →
  Gibbs.sequences st !! idx = Some (seq, start) →
  (Gibbs.M < length seq)%nat →
  (∀ b, b ∈ Gibbs.protein_alphabet → outside_window (Gibbs.sequences st) Gibbs.M b) →
  ∃ st' out pos,
    Gibbs.iteration random_raw uniform fuel st = Some (Ok (st', idx, out))
    ∧ Gibbs.sequences st' = <[idx := (seq, pos)]> (Gibbs.sequences st)
    ∧ Gibbs.num_of_sequences st' = Gibbs.num_of_sequences st
    ∧ Gibbs.previous_sequence_indexes st' = []
    ∧ Gibbs.randint_calls st' = S (Gibbs.randint_calls st)
    ∧ Gibbs.choice_calls st' = S (Gibbs.choice_calls st)
    ∧ (uniform (Gibbs.choice_calls st) < 1 → (pos < length seq - Gibbs.M)%nat).
Proof.
  intros idx Hprev Hn Hal Hidx Hlen Hcover.
  destruct (Hal seq start (list_elem_of_lookup_2 _ _ _ Hidx)) as [_ Hover].
  unfold over in Hover. rewrite Forall_forall in Hover.
  destruct (calculate_background_spec (Gibbs.sequences st) Gibbs.M "A"%char
              alanine_in_alphabet (Hcover _ alanine_in_alphabet))
    as (bg & t & Hbg & Ht & [_ Hbgm]).
  destruct (build_ppm_pos (Gibbs.sequences st) idx Hal) as (ppm & Hppm & F & [_ Hm] & HF).
  assert (∀ b, b ∈ Gibbs.protein_alphabet → ∃ y, bg !! b = Some y ∧ 0 < y) as Hbgpos.
  { intros b Hb. destruct (Hbgm b Hb) as (y & Hy & Hyq).
    exists y. split; [done|]. rewrite Hyq.
    apply Qdiv_pos; [|done]. apply outside_count_pos. by apply Hcover. }
  assert (∀ b i, b ∈ Gibbs.protein_alphabet → (i < Gibbs.M)%nat →
            ∃ x, cell_get ppm b i = Ok x ∧ 0 < x) as Hppmpos.
  { intros b i Hb Hi. destruct (Hm b i Hb Hi) as (x & Hx & Hxq).
    exists x. split; [done|]. rewrite Hxq. apply HF. }
  destruct (generate_distribution_spec ppm bg seq Hlen) as (d & Hd & Hld & Hpos & Hsum).
  { intros i b Hi Hb. apply Hppmpos; [by apply Hover|done]. }
  { intros b Hb. apply Hbgpos. by apply Hover. }
  destruct (np_choice_spec d (uniform (Gibbs.choice_calls st))) as (pos & Hchoice & Hbound);
    [|done|done|].
  { intros ->. simpl in Hld. lia. }
  destruct (ppm_to_pwm_spec ppm bg) as (pwm & Hpwm & Hpwmm).
  { intros s j Hs Hj. destruct (Hppmpos s j Hs Hj) as (x & Hx & Hxpos).
    unfold cell_value. by rewrite Hx. }
  { intros s Hs. destruct (Hbgpos s Hs) as (y & Hy & Hypos).
    unfold item_value. by rewrite Hy. }
  destruct (report_Ok pwm _ Hpwmm) as (out & Hout).
  eexists _, out, pos. split; [|split; [|split; [|split; [|split; [|split]]]]].
  - unfold Gibbs.iteration. rewrite Hprev.
    rewrite choose_left_out_sequence_nil by done. fold idx.
    apply index_Ok in Hidx as Hidx'. run Hidx'. cbn [fst].
    unfold Gibbs.resample. run Hbg. run Hppm. run Hd.
    unfold Gibbs.choose_new_position.
    replace (len seq - Z.of_nat Gibbs.M)%Z with (len d) by (unfold len; lia).
    run Hchoice. run Hidx'. cbn [fst]. rewrite Ok_bind. cbv beta iota.
    run Hpwm. run Hout. done.
  - done.
  - done.
  - exact Hprev.
  - done.
  - done.
  - intros Hu. rewrite <- Hld. by apply Hbound.
Qed.

End MainLoop.

Section ExampleRun.

Lemma example_alignment_covered b :
  b ∈ Gibbs.protein_alphabet → outside_window example_alignment Gibbs.M b.
Proof.
  intros Hb. exists (lit "ACDEFGHIKLMNACDEFGHIKLMNPQRSTVWY"), 0%nat.
  split; [right; left|]. right.
  revert b Hb. apply Forall_forall. by apply (bool_decide_unpack _).
Qed.

(** An iteration of the example run from a state that holds the example
    alignment: sequence 0 is held out and the alignment is unchanged. *)
Lemma example_iteration fuel (st : Gibbs.state) :
  Gibbs.sequences st = example_alignment → Gibbs.num_of_sequences st = 2%Z →
  Gibbs.previous_sequence_indexes st = [] →
  ∃ st' out,
    Gibbs.iteration zero_raw zero_uniform fuel st = Some (Ok (st', 0%nat, out))
    ∧ Gibbs.sequences st' = example_alignment
    ∧ Gibbs.num_of_sequences st' = 2%Z
    ∧ Gibbs.previous_sequence_indexes st' = [].
Proof.
  intros Hseqs Hnum Hprev.
  destruct (iteration_spec zero_raw zero_uniform fuel st (lit "ACDEFGHIKLMNA") 0)
    as (st' & out & pos & Hit & Hs' & Hn' & Hp' & _ & _ & Hpos).
  - exact Hprev.
  - rewrite Hnum. lia.
  - rewrite Hseqs. exact example_alignment_aligned.
  - rewrite Hseqs, Hnum. reflexivity.
  - simpl. unfold Gibbs.M. lia.
  - rewrite Hseqs. exact example_alignment_covered.
  - rewrite Hnum in Hit. change (Z.to_nat (Z.of_nat (zero_raw _) mod 2)) with 0%nat in Hit.
    exists st', out. split; [exact Hit|]. split; [|split; [congruence|done]].
    assert (pos = 0)%nat as ->.
    { assert (pos < length (lit "ACDEFGHIKLMNA") - Gibbs.M)%nat as H by (by apply Hpos).
      simpl in H. unfold Gibbs.M in H. lia. }
    rewrite Hs', Hnum, Hseqs. reflexivity.
Qed.

End ExampleRun.

(** C3, at its failing input: started on two sequences with generators that
    always return 0, the loop holds out sequence 0 in its first and again in
    its second iteration, before sequence 1 has been held out; the exclusion
    list is empty before and after, nothing is ever recorded in it. *)
Theorem held_out_index_repeats fuel :
  Gibbs.initial_state zero_raw
    [lit "ACDEFGHIKLMNA"; lit "ACDEFGHIKLMNACDEFGHIKLMNPQRSTVWY"] = Ok example_state
  ∧ ∃ st' outs,
      Gibbs.run zero_raw zero_uniform fuel 2 example_state
      = Some (Ok (st', [0%nat; 0%nat], outs))
      ∧ Gibbs.previous_sequence_indexes st' = [].
Proof.
  split; [reflexivity|].
  destruct (example_iteration fuel example_state eq_refl eq_refl eq_refl)
    as (st1 & out1 & Hit1 & Hs1 & Hn1 & Hp1).
  destruct (example_iteration fuel st1 Hs1 Hn1 Hp1)
    as (st2 & out2 & Hit2 & Hs2 & Hn2 & Hp2).
  exists st2, [out1; out2]. split; [|done].
  cbn [Gibbs.run]. rewrite Hit1, Hit2. done.
Qed.

(** ** The loops and their exits *)

Section Loops.

(** As long as no pass breaks, the [while] loop works on the matrices of
    [em_iterate]. *)
Lemma em_loop_follows_iterates sequences L n fuel :
  (∀ m, (m < n)%nat → breaks_at sequences L m = Ok false) →
  EM.expectation_maximization (n + fuel) sequences L
  = match em_iterate sequences L n with
    | Ok st => EM.em_loop fuel sequences L st
    | Raise e => Some (Raise e)
    end.
Proof.
  revert fuel. induction n as [|n IH]; intros fuel Hno; [done|].
  replace (S n + fuel)%nat with (n + S fuel)%nat by lia.
  rewrite IH by (intros; apply Hno; lia).
  specialize (Hno n ltac:(lia)). unfold breaks_at in Hno.
  cbn [em_iterate]. destruct (em_iterate sequences L n) as [st|e]; [|done].
  rewrite Ok_bind in Hno. rewrite Ok_bind. cbn [EM.em_loop].
  destruct (EM.em_step sequences L st) as [[[pfm bg] stop]|e]; [|done].
  rewrite Ok_bind in Hno. rewrite Ok_bind. cbv beta iota in Hno |- *.
  injection Hno as ->. done.
Qed.

(** The loop stops in the first pass that breaks, with the matrices that
    pass has re-estimated. *)
Lemma em_loop_stops_at_first_break sequences L n fuel :
  (∀ m, (m < n)%nat → breaks_at sequences L m = Ok false) →
  breaks_at sequences L n = Ok true →
  EM.expectation_maximization (n + S fuel) sequences L
  = Some (em_iterate sequences L (S n)).
Proof.
  intros Hno Hbreak. rewrite em_loop_follows_iterates by done.
  unfold breaks_at in Hbreak. cbn [em_iterate EM.em_loop].
  destruct (em_iterate sequences L n) as [st|e]; [|done].
  rewrite Ok_bind in Hbreak. rewrite Ok_bind.
  destruct (EM.em_step sequences L st) as [[[pfm bg] stop]|e]; [|done].
  rewrite Ok_bind in Hbreak. rewrite Ok_bind. cbv beta iota in Hbreak |- *.
  injection Hbreak as ->. done.
Qed.

(** Without a break within the fuel the loop is still running. *)
Lemma em_loop_runs_without_break sequences L n :
  valid_corpus sequences L →
  (∀ m, (m < n)%nat → breaks_at sequences L m = Ok false) →
  EM.expectation_maximization n sequences L = None.
Proof.
  intros Hv Hno. pose proof (em_loop_follows_iterates sequences L n 0 Hno) as H.
  rewrite Nat.add_0_r in H. rewrite H.
  destruct (em_iterate_invariant sequences L n Hv) as (st & -> & _). done.
Qed.

(** On a valid corpus a pass breaks exactly when the squared distance
    between the matrix it started from and the one it re-estimated is below
    1e-6. *)
Lemma breaks_at_spec sequences L n :
  valid_corpus sequences L →
  ∃ st st' d,
    em_iterate sequences L n = Ok st
    ∧ em_iterate sequences L (S n) = Ok st'
    ∧ EM.squared_distance st.1 st'.1 L = Ok d
    ∧ breaks_at sequences L n = Ok (lt d 1e-6).
Proof.
  intros Hv. destruct (em_iterate_invariant sequences L n Hv) as (st & Hst & Hinv).
  destruct (em_step_invariant sequences L st Hv Hinv) as (pfm & bg & d & Hstep & Hd & _).
  exists st, (pfm, bg), d. split; [done|]. split; [|split; [done|]].
  - cbn [em_iterate]. run Hst. run Hstep. done.
  - unfold breaks_at. run Hst. run Hstep. done.
Qed.

(** No iteration of the Gibbs loop changes the exclusion list. *)
Lemma iteration_keeps_exclusion_list random_raw uniform fuel st st' idx out :
  Gibbs.iteration random_raw uniform fuel st = Some (Ok (st', idx, out)) →
  Gibbs.previous_sequence_indexes st' = Gibbs.previous_sequence_indexes st.
Proof.
  unfold Gibbs.iteration.
  destruct (Gibbs.choose_left_out_sequence _ _ _ _ _ _) as [[[[i s] k]|e]|]; [|done..].
  intros [= H]. apply bind_Ok in H as ([[st1 ppm] bg] & Hres & H).
  apply bind_Ok in H as (pwm & _ & H). apply bind_Ok in H as (o & _ & H).
  injection H as <- _ _. unfold Gibbs.resample in Hres.
  apply bind_Ok in Hres as (? & _ & Hres). apply bind_Ok in Hres as (? & _ & Hres).
  apply bind_Ok in Hres as (? & _ & Hres). apply bind_Ok in Hres as (? & _ & Hres).
  apply bind_Ok in Hres as (? & _ & Hres). by injection Hres as <- _ _.
Qed.

End Loops.
Lemma Qsum_perm {A} (f : A → Q) l l' : l ≡ₚ l' → Qsum f l == Qsum f l'.
Proof.
  induction 1 as [|x l l' _ IH|x y l|l l' l'' _ IH1 _ IH2]; simpl.
  - reflexivity.
  - by rewrite IH.
  - qlra.
  - by rewrite IH1.
Qed.

(** [sum(d.values())] adds up the entries of the vector. *)
Lemma sum_values_spec A (d : gmap ascii Q) G :
  NoDup A → vmodels A d G → sum (values d) == Qsum G A.
Proof.
  intros HA [Hk Hd]. rewrite sum_Qsum. unfold values. rewrite Qsum_fmap.
  rewrite (Qsum_ext _ (G ∘ fst)).
  - rewrite <- (Qsum_fmap fst G). apply Qsum_perm. apply NoDup_Permutation.
    + apply NoDup_fst_map_to_list.
    + done.
    + intros b. rewrite list_elem_of_fmap. split.
      * intros ([k v] & -> & Hkv). apply elem_of_map_to_list in Hkv. apply Hk. by eexists.
      * intros Hb. destruct (Hd b Hb) as (x & Hx & _). exists (b, x). split; [done|].
        by apply elem_of_map_to_list.
  - intros [k v] Hkv. apply elem_of_map_to_list in Hkv. simpl.
    destruct (Hd k (Hk k ltac:(by eexists))) as (z & Hz & Hzq). rewrite Hkv in Hz.
    by injection Hz as ->.
Qed.








(** ** The background and the results of the EM loop *)

Section EMResults.





End EMResults.






(** ** The cells of the EM matrices *)

Section EMCells.

Lemma initial_mass_scale w sequences L b i :
  initial_mass w sequences L b i == w * initial_mass 1 sequences L b i.
Proof.
  unfold initial_mass. rewrite <- Qsum_scale. apply Qsum_ext. intros s _.
  unfold sequence_mass. rewrite <- Qsum_scale. apply Qsum_ext. intros start _. qlra.
Qed.

(** The initial matrix holds the shares of the windows. *)
Lemma initial_pfm_models sequences L :
  valid_corpus sequences L →
  ∃ pfm bg,
    EM.initialize_pfm sequences L = Ok (pfm, bg)
    ∧ models EM.ATGC L pfm
        (λ b i, initial_mass 1 sequences L b i / window_count sequences L).
Proof.
  intros Hv. destruct (valid_first sequences L Hv) as (first & Hfirst & Hin & Hlen).
  destruct Hv as (Hne & HL & Hvalid).
  set (d := inject_Z (len first - Z.of_nat L + 1)).
  assert (0 < d) as Hd.
  { unfold d. change 0 with (inject_Z 0). rewrite <- Zlt_Qlt. unfold len. lia. }
  assert (0 < window_count sequences L) as Hwc by (by eapply window_count_pos).
  destruct (initialize_pfm_spec sequences L first Hfirst) as (pfm & bg & Hinit & Hm & _).
  { intros s Hs. by apply Hvalid. }
  { done. }
  { fold d. qlra. }
  { by exists first. }
  exists pfm, bg. split; [done|]. eapply models_ext; [|exact Hm].
  intros b i _ _. cbv beta. fold d. rewrite (initial_mass_scale (1 / d)). field. split; qlra.
Qed.

End EMCells.

(** X3: on a valid corpus the initial matrix holds, in cell (b, i), the
    share of the windows of the corpus that have base b in column i; the
    weight 1 / (len(sequences[0]) - motif_length + 1) of line 24 cancels in
    the normalisation of the columns. *)
Theorem initial_pfm_is_window_frequency sequences L :
  valid_corpus sequences L →
  ∃ pfm bg,
    EM.initialize_pfm sequences L = Ok (pfm, bg)
    ∧ ∀ b i, b ∈ EM.ATGC → (i < L)%nat →
        ∃ x, cell_get pfm b i = Ok x
          ∧ x == initial_mass 1 sequences L b i / window_count sequences L.
Proof.
  intros Hv. destruct (initial_pfm_models sequences L Hv) as (pfm & bg & Hinit & [_ Hm]).
  exists pfm, bg. split; [done|]. intros b i Hb Hi.
  destruct (Hm b i Hb Hi) as (x & Hx & Hxq). by exists x.
Qed.

Lemma initial_pfm_is_window_frequency_witness :
  ∃ pfm bg,
    EM.initialize_pfm example_sequences 2 = Ok (pfm, bg)
    ∧ ∀ b i, b ∈ EM.ATGC → (i < 2)%nat →
        ∃ x, cell_get pfm b i = Ok x
          ∧ x == initial_mass 1 example_sequences 2 b i / window_count example_sequences 2.
Proof.
  exact (initial_pfm_is_window_frequency example_sequences 2 example_sequences_valid).
Defined.

(** X4: given one list of weights per sequence, each with an entry for every
    window of its sequence, the maximisation step on a valid corpus puts in
    cell (b, i) the sum of the weights of the windows with base b in column
    i, divided by the number of sequences. *)
Theorem maximize_expectation_cell_formula sequences L background weighted_probs :
  valid_corpus sequences L →
  Forall2 (λ s weights, (length (starts s L) ≤ length weights)%nat)
          sequences weighted_probs →
  ∃ pfm bg,
    EM.maximize_expectation sequences background weighted_probs L = Ok (pfm, bg)
    ∧ ∀ b i, b ∈ EM.ATGC → (i < L)%nat →
        ∃ x, cell_get pfm b i = Ok x
          ∧ x == posterior_mass weighted_probs sequences L b i / inject_Z (len sequences).
Proof.
  intros (Hne & HL & Hvalid) Hresp. unfold EM.maximize_expectation. cbv zeta.
  destruct (maximize_accumulate_spec L weighted_probs sequences _ _ _ _
              (models_zeros EM.ATGC L) (vmodels_zeros EM.ATGC))
    as (m1 & bg1 & Hacc & Hm1 & Hbg1).
  { intros seq_id s Hs. split; [by apply Hvalid; eapply list_elem_of_lookup_2|].
    destruct (Forall2_lookup_l _ _ _ _ _ Hresp Hs) as (r & Hr & Hlen).
    by exists r. }
  run Hacc.
  assert (¬ inject_Z (len sequences) == 0) as Hn.
  { apply inject_Z_nonzero. unfold len. destruct sequences; [done|simpl; lia]. }
  destruct (base_major_loop Qeq EM.ATGC L m1
              (λ b i, 0 + posterior_mass weighted_probs sequences L b i)
              (λ b i, posterior_mass weighted_probs sequences L b i
                      / inject_Z (len sequences))
              (λ pfm base i, cell_update pfm base i
                               (λ x, truediv x (inject_Z (len sequences))))
              ATGC_NoDup) as (m2 & Hdiv & [_ Hm2]); [|exact Hm1|].
  { intros m3 H3 b i Hb Hi Hm3 HH.
    apply (cell_update_models Qeq EM.ATGC L m3 H3 b i); [done..|].
    intros x Hx. exists (x / inject_Z (len sequences)). split; [by apply truediv_Ok|].
    rewrite Hx, HH. cbv beta. apply Qdiv_comp; [qlra|done]. }
  run Hdiv.
  destruct sequences as [|s0 rest] eqn:Eseq; [done|]. rewrite <- Eseq in *.
  assert (s0 ∈ sequences) as Hs0 by (rewrite Eseq; by left).
  destruct (Hvalid s0 Hs0) as [Hlen0 Hover0].
  destruct s0 as [|c0 s0']; [simpl in Hlen0; lia|].
  assert (c0 ∈ EM.ATGC) as Hc0 by (by inversion Hover0).
  assert (0 < sum (values bg1)) as Ht.
  { apply (sum_values_pos EM.ATGC bg1 _ c0 Hbg1); [|done|].
    - intros b. pose proof (occurrences_nonneg sequences b). qlra.
    - pose proof (occurrences_pos sequences (c0 :: s0') c0 Hs0 ltac:(by left)). qlra. }
  destruct (normalise_vector_spec EM.ATGC bg1 _ (sum (values bg1)) ATGC_NoDup Hbg1)
    as (bg2 & Hbgn & Hbg2); [qlra|].
  run Hbgn. by exists m2, bg2.
Qed.

Lemma maximize_expectation_cell_formula_witness :
  ∃ pfm bg,
    EM.maximize_expectation example_sequences example_background
      [[1 # 2; 1 # 4; 1 # 4]; [1; 0]] 2 = Ok (pfm, bg)
    ∧ ∀ b i, b ∈ EM.ATGC → (i < 2)%nat →
        ∃ x, cell_get pfm b i = Ok x
          ∧ x == posterior_mass [[1 # 2; 1 # 4; 1 # 4]; [1; 0]] example_sequences 2 b i
                 / inject_Z (len example_sequences).
Proof.
  apply (maximize_expectation_cell_formula example_sequences 2 example_background
           [[1 # 2; 1 # 4; 1 # 4]; [1; 0]] example_sequences_valid).
  repeat constructor.
Defined.

(** ** The convergence test *)

Section Convergence.

Lemma matrix_over_cell A L m b i :
  matrix_over A L m → b ∈ A → (i < L)%nat → cell_get m b i = Ok (cell_value m b i).
Proof.
  intros [Hk Hrow] Hb Hi. destruct (proj2 (Hk b) Hb) as (row & Hr).
  pose proof (Hrow b row Hr) as Hlen.
  destruct (lookup_lt_is_Some_2 row i ltac:(lia)) as (x & Hx).
  assert (cell_get m b i = Ok x) as E by (apply cell_get_Ok; by exists row).
  unfold cell_value. by rewrite E.
Qed.

Lemma matrix_over_keys A L (m : gmap ascii (list Q)) :
  NoDup A → matrix_over A L m → keys m ≡ₚ A.
Proof.
  intros HA [Hk _]. unfold keys. apply NoDup_Permutation.
  - apply NoDup_fst_map_to_list.
  - done.
  - intros b. rewrite <- Hk, list_elem_of_fmap. split.
    + intros ([k v] & -> & Hkv). apply elem_of_map_to_list in Hkv. by eexists.
    + intros (row & Hr). exists (b, row). split; [done|]. by apply elem_of_map_to_list.
Qed.

Lemma Qsum_bind {A B} (f : B → Q) (h : A → list B) (l : list A) :
  Qsum f (l ≫= h) == Qsum (λ a, Qsum f (h a)) l.
Proof.
  induction l as [|a l IH]; [reflexivity|].
  change ((a :: l) ≫= h) with (h a ++ (l ≫= h)). rewrite Qsum_app, Qsum_cons, IH. reflexivity.
Qed.

Lemma Qsq_nonneg (x : Q) : 0 <= x ^ 2.
Proof. assert (x ^ 2 == x * x) as -> by (simpl; ring). nra. Qed.

Lemma squared_difference_nonneg A L old_pfm new_pfm :
  0 <= squared_difference A L old_pfm new_pfm.
Proof.
  apply Qsum_nonneg. intros b _. apply Qsum_nonneg. intros i _. apply Qsq_nonneg.
Qed.

Lemma lt_proper (a b c : Q) : a == b → lt a c = lt b c.
Proof.
  intros E. destruct (lt b c) eqn:Hb.
  - apply lt_spec. apply lt_spec in Hb. by rewrite E.
  - apply not_true_is_false. intros Ha. apply lt_spec in Ha. rewrite E in Ha.
    apply lt_spec in Ha. congruence.
Qed.

Lemma squared_distance_spec L old_pfm new_pfm :
  matrix_over EM.ATGC L old_pfm → matrix_over EM.ATGC L new_pfm →
  ∃ d, EM.squared_distance old_pfm new_pfm L = Ok d
       ∧ d == squared_difference EM.ATGC L old_pfm new_pfm.
Proof.
  intros Ho Hn. unfold EM.squared_distance.
  pose proof (matrix_over_keys EM.ATGC L old_pfm ATGC_NoDup Ho) as Hkeys.
  rewrite (mapM_Ok_intro _
             (λ '(base, i), (cell_value new_pfm base i - cell_value old_pfm base i) ^ 2)).
  - rewrite Ok_bind. eexists. split; [done|].
    rewrite sum_Qsum, Qsum_fmap, Qsum_bind. unfold squared_difference.
    rewrite (Qsum_perm _ _ _ Hkeys). apply Qsum_ext. intros b _.
    rewrite Qsum_bind. apply Qsum_ext. intros i _. simpl. ring.
  - intros [b i] Hin.
    apply list_elem_of_bind in Hin as (b' & Hin & Hb).
    apply list_elem_of_bind in Hin as (j & Hin & Hj).
    apply list_elem_of_singleton in Hin as [= -> ->].
    rewrite range_nat in Hj. apply elem_of_seq in Hj.
    assert (b' ∈ EM.ATGC) as HbA by (by rewrite <- Hkeys).
    rewrite (matrix_over_cell _ _ _ _ _ Hn HbA) by lia. rewrite Ok_bind.
    rewrite (matrix_over_cell _ _ _ _ _ Ho HbA) by lia. by rewrite Ok_bind.
Qed.

End Convergence.

(** X5: for two matrices over ATGC with motif_length columns the convergence
    test adds up (new - old)^2 over the 4 * motif_length cells, whatever the
    order of the keys, and answers True exactly when that sum is below 1e-6;
    the sum is never negative. *)
Theorem has_converged_compares_squared_distance L old_pfm new_pfm :
  matrix_over EM.ATGC L old_pfm → matrix_over EM.ATGC L new_pfm →
  ∃ d, EM.squared_distance old_pfm new_pfm L = Ok d
    ∧ d == squared_difference EM.ATGC L old_pfm new_pfm
    ∧ 0 <= d
    ∧ EM.has_converged old_pfm new_pfm L = Ok (lt d 1e-6)
    ∧ (EM.has_converged old_pfm new_pfm L = Ok true ↔ d < 1e-6).
Proof.
  intros Ho Hn. destruct (squared_distance_spec L old_pfm new_pfm Ho Hn) as (d & Hd & Hdq).
  exists d. split; [done|]. split; [done|]. split.
  { rewrite Hdq. apply squared_difference_nonneg. }
  unfold EM.has_converged. rewrite Hd, Ok_bind. split; [done|].
  rewrite <- lt_spec. split; [by intros [= ->]|by intros ->].
Qed.

Lemma constant_rows_over (f : ascii → Q) (alphabet : str) n :
  matrix_over alphabet n (constant_rows f alphabet n).
Proof.
  unfold constant_rows.
  assert (∀ (d : gmap ascii (list Q)) b,
            is_Some (fold_left (λ d base, <[base := replicate n (f base)]> d) alphabet d !! b)
            → b ∈ alphabet ∨ is_Some (d !! b)) as Hkeys.
  { induction alphabet as [|a l IH]; intros d b Hs; simpl in Hs; [by right|].
    apply IH in Hs as [Hin|Hs]; [left; by right|].
    destruct (decide (a = b)) as [->|Hne]; [left; by left|].
    rewrite lookup_insert_ne in Hs by done. by right. }
  split.
  - intros b. split.
    + intros Hs. apply Hkeys in Hs as [Hin|Hs]; [done|].
      rewrite lookup_empty in Hs. by destruct Hs.
    + intros Hb. pose proof (constant_rows_lookup f alphabet n b Hb) as E.
      unfold constant_rows in E. rewrite E. by eexists.
  - intros b row Hr.
    assert (b ∈ alphabet) as Hb.
    { destruct (Hkeys ∅ b ltac:(by eexists)) as [Hin|Hs]; [done|].
      rewrite lookup_empty in Hs. by destruct Hs. }
    pose proof (constant_rows_lookup f alphabet n b Hb) as E. unfold constant_rows in E.
    rewrite E in Hr. injection Hr as <-. by rewrite length_replicate.
Qed.

Lemma has_converged_compares_squared_distance_witness :
  ∃ d, EM.squared_distance (constant_rows (λ _, 1 # 4) EM.ATGC 2)
                           (constant_rows (λ _, 1 # 2) EM.ATGC 2) 2 = Ok d
    ∧ d == squared_difference EM.ATGC 2 (constant_rows (λ _, 1 # 4) EM.ATGC 2)
                              (constant_rows (λ _, 1 # 2) EM.ATGC 2)
    ∧ 0 <= d
    ∧ EM.has_converged (constant_rows (λ _, 1 # 4) EM.ATGC 2)
                       (constant_rows (λ _, 1 # 2) EM.ATGC 2) 2 = Ok (lt d 1e-6)
    ∧ (EM.has_converged (constant_rows (λ _, 1 # 4) EM.ATGC 2)
                        (constant_rows (λ _, 1 # 2) EM.ATGC 2) 2 = Ok true ↔ d < 1e-6).
Proof.
  apply (has_converged_compares_squared_distance 2
           (constant_rows (λ _, 1 # 4) EM.ATGC 2) (constant_rows (λ _, 1 # 2) EM.ATGC 2)).
  - apply constant_rows_over.
  - apply constant_rows_over.
Defined.

(** X6: the convergence test is symmetric in its two matrices and accepts a
    matrix compared with itself. *)
Theorem has_converged_symmetric L old_pfm new_pfm :
  matrix_over EM.ATGC L old_pfm → matrix_over EM.ATGC L new_pfm →
  EM.has_converged old_pfm old_pfm L = Ok true
  ∧ EM.has_converged new_pfm old_pfm L = EM.has_converged old_pfm new_pfm L.
Proof.
  intros Ho Hn.
  destruct (squared_distance_spec L old_pfm old_pfm Ho Ho) as (d0 & Hd0 & Hd0q).
  destruct (squared_distance_spec L old_pfm new_pfm Ho Hn) as (d1 & Hd1 & Hd1q).
  destruct (squared_distance_spec L new_pfm old_pfm Hn Ho) as (d2 & Hd2 & Hd2q).
  unfold EM.has_converged. rewrite Hd0, Hd1, Hd2, !Ok_bind. split.
  - f_equal. apply lt_spec. rewrite Hd0q.
    assert (squared_difference EM.ATGC L old_pfm old_pfm == 0) as ->; [|reflexivity].
    apply Qsum_zero. intros b _. apply Qsum_zero. intros i _. simpl. ring.
  - f_equal. apply lt_proper. rewrite Hd1q, Hd2q.
    apply Qsum_ext. intros b _. apply Qsum_ext. intros i _. simpl. ring.
Qed.

Lemma has_converged_symmetric_witness :
  EM.has_converged (constant_rows (λ _, 1 # 4) EM.ATGC 2)
                   (constant_rows (λ _, 1 # 4) EM.ATGC 2) 2 = Ok true
  ∧ EM.has_converged (constant_rows (λ _, 1 # 2) EM.ATGC 2)
                     (constant_rows (λ _, 1 # 4) EM.ATGC 2) 2
    = EM.has_converged (constant_rows (λ _, 1 # 4) EM.ATGC 2)
                       (constant_rows (λ _, 1 # 2) EM.ATGC 2) 2.
Proof.
  apply (has_converged_symmetric 2
           (constant_rows (λ _, 1 # 4) EM.ATGC 2) (constant_rows (λ _, 1 # 2) EM.ATGC 2)).
  - apply constant_rows_over.
  - apply constant_rows_over.
Defined.

(** ** Symbols outside the alphabet *)

Section UnknownSymbol.

Lemma bind_Ok_r {A} (r : result A) : r ≫= Ok = r.
Proof. by destruct r. Qed.

Lemma bind_assoc {A B C} (r : result A) (f : A → result B) (g : B → result C) :
  (r ≫= f) ≫= g = r ≫= λ a, f a ≫= g.
Proof. by destruct r. Qed.

(** A loop over [enumerate (l1 ++ l2)] runs over [l1] and then over [l2] with
    the indices shifted. *)
Lemma foldM_enumerate_app {A B} (body : B → nat * A → result B) (l1 l2 : list A) acc :
  foldM body (enumerate (l1 ++ l2)) acc
  = foldM body (enumerate l1) acc
    ≫= foldM (λ a '(i, x), body a ((length l1 + i)%nat, x)) (enumerate l2).
Proof.
  induction l2 as [|x l2 IH] using rev_ind.
  - rewrite app_nil_r. symmetry. apply bind_Ok_r.
  - rewrite app_assoc, !enumerate_snoc, foldM_snoc, IH, bind_assoc.
    apply bind_ext. intros a. by rewrite foldM_snoc, length_app.
Qed.

Lemma enumerate_cons {A} (x : A) (l : list A) :
  enumerate (x :: l) = (0%nat, x) :: zip (seq 1 (length l)) l.
Proof. done. Qed.

(** Adding a window stops with [KeyError] at its first symbol outside the
    alphabet. *)
Lemma add_site_unknown A L m F (good rest : str) (c : ascii) (w : Q) :
  models A L m F → over A good → (length good ≤ L)%nat → c ∉ A →
  EM.add_site m (good ++ c :: rest) w = Raise KeyError.
Proof.
  intros Hm Hgood Hlen Hc. unfold EM.add_site. rewrite foldM_enumerate_app.
  destruct (add_window_spec A L m good w F Hm Hgood Hlen) as (m' & Hadd & [Hk _]).
  rewrite Hadd, Ok_bind, enumerate_cons. cbn [foldM].
  unfold cell_update, getitem.
  destruct (m' !! c) as [row|] eqn:E; [|done].
  exfalso. apply Hc, Hk. by eexists.
Qed.

Lemma window_prefix (good rest : str) (c : ascii) L start :
  (start + L ≤ length good)%nat →
  window (good ++ c :: rest) L start = window good L start.
Proof.
  intros H. unfold window, slice. replace (start + L - start)%nat with L by lia.
  rewrite drop_app_le by lia. rewrite take_app_le; [done|]. rewrite length_drop. lia.
Qed.

Lemma window_at_unknown (good rest : str) (c : ascii) L start :
  (start ≤ length good)%nat → (length good < start + L)%nat →
  window (good ++ c :: rest) L start
  = drop start good ++ c :: take (L - (length good - start) - 1) rest.
Proof.
  intros H1 H2. unfold window, slice. replace (start + L - start)%nat with L by lia.
  rewrite drop_app_le by lia. rewrite take_app_ge by (rewrite length_drop; lia).
  rewrite length_drop.
  destruct (L - (length good - start))%nat as [|n] eqn:E; [lia|].
  simpl. by rewrite Nat.sub_0_r.
Qed.

(** The windows of a sequence are added until the first one that holds a
    symbol outside the alphabet. *)
Lemma add_windows_unknown L m F (good rest : str) (c : ascii) (w : Q) :
  models EM.ATGC L m F → over EM.ATGC good → c ∉ EM.ATGC →
  (0 < L)%nat → (L ≤ length (good ++ c :: rest))%nat →
  foldM (λ pfm start,
           EM.add_site pfm (slice (good ++ c :: rest) start (start + L)) w)
        (range (len (good ++ c :: rest) - Z.of_nat L + 1)) m
  = Raise KeyError.
Proof.
  intros Hm Hgood Hc HL Hlen.
  set (s := good ++ c :: rest) in *.
  set (k := length good). set (s0 := (k + 1 - L)%nat).
  assert (length s = k + 1 + length rest)%nat as Hs.
  { unfold s, k. rewrite length_app. simpl. lia. }
  assert (range (len s - Z.of_nat L + 1)
          = seq 0 s0 ++ s0 :: seq (S s0) (length s - L - s0)) as ->.
  { unfold range, len.
    replace (Z.to_nat (Z.of_nat (length s) - Z.of_nat L + 1))
      with (s0 + S (length s - L - s0))%nat by (unfold s0; lia).
    by rewrite seq_app. }
  rewrite foldM_app.
  destruct (add_windows_spec EM.ATGC L (λ _, w) good (seq 0 s0) m F Hm Hgood)
    as (m1 & Hadd & Hm1).
  rewrite (foldM_ext _ (λ pfm start, EM.add_site pfm (window good L start) w)).
  - rewrite Hadd, Ok_bind. cbn [foldM].
    fold (window s L s0). unfold s. rewrite window_at_unknown by (unfold s0, k; lia).
    rewrite (add_site_unknown EM.ATGC L m1 _ (drop s0 good) _ c w Hm1); [done| | |done].
    + unfold over in *. rewrite Forall_forall in *. intros x Hx.
      apply Hgood. by eapply (subseteq_drop s0).
    + rewrite length_drop. unfold s0, k. lia.
  - intros pfm start Hstart. apply elem_of_seq in Hstart.
    fold (window s L start). unfold s. rewrite window_prefix; [done|]. unfold s0, k in *. lia.
Qed.

Lemma initialize_pfm_unknown sequences (pre post : list str) (good rest : str) (c : ascii)
    L first :
  sequences = pre ++ (good ++ c :: rest) :: post →
  sequences !! 0%nat = Some first → (length first + 1 ≠ L)%nat →
  (0 < L)%nat → (L ≤ length (good ++ c :: rest))%nat →
  (∀ s, s ∈ pre → over EM.ATGC s) → over EM.ATGC good → c ∉ EM.ATGC →
  EM.initialize_pfm sequences L = Raise KeyError.
Proof.
  intros Hseq Hfirst H1 HL Hlen Hpre Hgood Hc. unfold EM.initialize_pfm. cbv zeta.
  rewrite (proj2 (index_Ok _ _ _) Hfirst), Ok_bind.
  rewrite truediv_Ok by (apply inject_Z_nonzero; unfold len; lia). rewrite Ok_bind.
  rewrite Hseq at 1. rewrite foldM_app.
  destruct (init_accumulate_spec L (1 / inject_Z (len first - Z.of_nat L + 1)) pre
              _ _ (models_zeros EM.ATGC L) Hpre) as (m1 & Hacc & Hm1).
  rewrite Hacc, Ok_bind. cbn [foldM].
  by rewrite (add_windows_unknown L m1 _ good rest c _ Hm1 Hgood Hc HL Hlen).
Qed.

End UnknownSymbol.

(** X7: a symbol outside ATGC makes the EM procedure fail with KeyError
    during initialisation: when the first sequence that holds such a symbol
    is at least as long as the motif, the window loop of line 31 reaches the
    symbol and the lookup of its row raises.  (The division of line 24 has
    to succeed first: the first sequence is not one symbol shorter than the
    motif.) *)
Theorem unknown_symbol_raises_key_error (pre post : list str) (good rest : str) (c : ascii)
    L first fuel :
  (pre ++ (good ++ c :: rest) :: post) !! 0%nat = Some first →
  (length first + 1 ≠ L)%nat →
  (0 < L)%nat → (L ≤ length (good ++ c :: rest))%nat →
  (∀ s, s ∈ pre → over EM.ATGC s) → over EM.ATGC good → c ∉ EM.ATGC →
  EM.initialize_pfm (pre ++ (good ++ c :: rest) :: post) L = Raise KeyError
  ∧ EM.expectation_maximization fuel (pre ++ (good ++ c :: rest) :: post) L
    = Some (Raise KeyError).
Proof.
  intros Hfirst H1 HL Hlen Hpre Hgood Hc.
  assert (EM.initialize_pfm (pre ++ (good ++ c :: rest) :: post) L = Raise KeyError) as E.
  { by eapply initialize_pfm_unknown. }
  split; [exact E|]. unfold EM.expectation_maximization. by rewrite E.
Qed.

Lemma unknown_symbol_raises_key_error_witness :
  EM.initialize_pfm [lit "ATGC"; lit "ATNG"; lit "AAT"] 2 = Raise KeyError
  ∧ EM.expectation_maximization 5 [lit "ATGC"; lit "ATNG"; lit "AAT"] 2
    = Some (Raise KeyError).
Proof.
  apply (unknown_symbol_raises_key_error [lit "ATGC"] [lit "AAT"] (lit "AT") (lit "G")
           "N"%char 2 (lit "ATGC") 5).
  - reflexivity.
  - simpl. lia.
  - lia.
  - simpl. lia.
  - intros s Hs. apply list_elem_of_singleton in Hs as ->.
    by apply (bool_decide_unpack _).
  - by apply (bool_decide_unpack _).
  - by apply (bool_decide_unpack _).
Defined.

(** ** Failures of the likelihood functions *)

Section LikelihoodFailures.

(** A seeded product over looked-up entries fails at the first entry that is
    missing, with the exception of that lookup. *)
Lemma seeded_loop_outcome {X} (get : X → result Q) (l : list X) (a : Q) :
  match foldM (λ p x, v ← get x; Ok (p * v)) l a with
  | Ok _ => Forall (λ x, is_Ok (get x)) l
  | Raise e => ∃ l1 x l2, l = l1 ++ x :: l2 ∧ Forall (λ x, is_Ok (get x)) l1
                          ∧ get x = Raise e
  end.
Proof.
  revert a. induction l as [|x l IH]; intros a; [by apply Forall_nil_2|]. cbn [foldM].
  destruct (get x) as [v|e] eqn:E.
  - rewrite !Ok_bind. specialize (IH (a * v)).
    destruct (foldM _ l (a * v)) as [p|e]; cbv beta iota in *.
    + constructor; [by exists v|done].
    + destruct IH as (l1 & y & l2 & -> & Hl1 & Hy).
      exists (x :: l1), y, l2. split; [done|]. split; [|done].
      constructor; [by exists v|done].
  - rewrite Raise_bind. cbv beta iota. by exists [], x, l.
Qed.

Lemma enumerate_lookup {A} (l : list A) (i : nat) :
  enumerate l !! i = (λ x, (i, x)) <$> l !! i.
Proof.
  unfold enumerate. rewrite lookup_zip_with.
  destruct (l !! i) as [x|] eqn:E.
  - rewrite lookup_seq_lt by (by eapply lookup_lt_Some). done.
  - destruct (seq 0 (length l) !! i); done.
Qed.

Lemma cell_get_raises {V} (m : gmap ascii (list V)) b i e :
  cell_get m b i = Raise e → e = KeyError ∨ e = IndexError.
Proof.
  unfold cell_get, getitem, index. destruct (m !! b) as [row|]; [|intros [= <-]; by left].
  rewrite Ok_bind. destruct (row !! i); [done|]. intros [= <-]. by right.
Qed.

End LikelihoodFailures.

(** X8: the two likelihood functions return a number exactly when every
    entry they read exists.  Otherwise [motif_probability] raises the
    exception of the first column whose cell is missing (KeyError for a
    symbol without a row, IndexError for a window longer than the row), and
    [background_probability] raises KeyError for a symbol that is no key of
    the background. *)
Theorem likelihood_fails_at_first_missing_entry site pfm background :
  match EM.motif_probability site pfm with
  | Ok _ => ∀ i b, site !! i = Some b → is_Ok (cell_get pfm b i)
  | Raise e =>
      (e = KeyError ∨ e = IndexError)
      ∧ ∃ i b, site !! i = Some b ∧ cell_get pfm b i = Raise e
               ∧ ∀ j b', (j < i)%nat → site !! j = Some b' → is_Ok (cell_get pfm b' j)
  end
  ∧ match EM.background_probability site background with
    | Ok _ => ∀ b, b ∈ site → is_Some (background !! b)
    | Raise e => e = KeyError ∧ ∃ b, b ∈ site ∧ background !! b = None
    end.
Proof.
  split.
  - unfold EM.motif_probability.
    pose proof (seeded_loop_outcome (λ '(i, base), cell_get pfm base i)
                  (enumerate site) 1e-6) as H.
    assert (foldM (λ probability '(i, base), x ← cell_get pfm base i; Ok (probability * x))
                  (enumerate site) 1e-6
            = foldM (λ p x, v ← (let '(i, base) := x in cell_get pfm base i); Ok (p * v))
                    (enumerate site) 1e-6) as ->.
    { apply foldM_ext. by intros a [i base] _. }
    destruct (foldM _ (enumerate site) 1e-6) as [p|e].
    + intros i b Hib. rewrite Forall_forall in H.
      apply (H (i, b)). by apply elem_of_enumerate.
    + destruct H as (l1 & [i b] & l2 & Hl & Hl1 & Hx).
      assert (enumerate site !! length l1 = Some (i, b)) as Hat.
      { rewrite Hl. by apply list_lookup_middle. }
      rewrite enumerate_lookup in Hat.
      destruct (site !! length l1) as [b0|] eqn:E; [|done].
      injection Hat as <- <-.
      split; [by eapply cell_get_raises|].
      exists (length l1), b0. split; [done|]. split; [done|].
      intros j b' Hj Hjb.
      assert (l1 !! j = Some (j, b')) as Hl1j.
      { rewrite <- (lookup_app_l l1 ((length l1, b0) :: l2)) by done.
        rewrite <- Hl, enumerate_lookup, Hjb. done. }
      rewrite Forall_forall in Hl1. apply (Hl1 (j, b')). by eapply list_elem_of_lookup_2.
  - unfold EM.background_probability.
    pose proof (seeded_loop_outcome (getitem background) site 1e-6) as H.
    destruct (foldM _ site 1e-6) as [p|e].
    + intros b Hb. rewrite Forall_forall in H. destruct (H b Hb) as (v & Hv).
      apply getitem_Ok in Hv. by eexists.
    + destruct H as (l1 & b & l2 & -> & _ & Hb).
      unfold getitem in Hb. destruct (background !! b) eqn:E; [done|].
      injection Hb as <-. split; [done|]. exists b. split; [|done].
      apply elem_of_app. right. by left.
Qed.

(** ** The start of the Gibbs sampler *)

Section GibbsSetup.

Variable random_raw : nat → nat.

Lemma randint_range (a b : Z) (raw : nat) :
  (a ≤ b)%Z → ∃ z, randint a b raw = Ok z ∧ (a ≤ z ≤ b)%Z.
Proof.
  intros Hab. unfold randint. rewrite (proj2 (Z.ltb_ge b a) Hab).
  eexists. split; [done|].
  pose proof (Z.mod_pos_bound (Z.of_nat raw) (b - a + 1) ltac:(lia)). lia.
Qed.

Lemma randint_empty (a b : Z) (raw : nat) : (b < a)%Z → randint a b raw = Raise ValueError.
Proof. intros Hab. unfold randint. by rewrite (proj2 (Z.ltb_lt b a) Hab). Qed.

(** Lines 16-18 on sequences that are at least as long as the motif. *)
Lemma initial_offsets_spec (seqs : list str) :
  Forall (λ s, (Gibbs.M ≤ length s)%nat) seqs →
  ∃ acc,
    foldM (λ '(acc, k) seq,
             pos ← randint 0 (len seq - Z.of_nat Gibbs.M) (random_raw k);
             Ok (acc ++ [(seq, Z.to_nat pos)], S k))
          seqs ([], O) = Ok (acc, length seqs)
    ∧ acc.*1 = seqs
    ∧ Forall (λ p, (p.2 + Gibbs.M ≤ length p.1)%nat) acc.
Proof.
  induction seqs as [|s seqs IH] using rev_ind; intros Hlong.
  - by exists [].
  - apply Forall_app in Hlong as [Hlong Hs]. apply (proj1 (Forall_singleton _ _)) in Hs. cbv beta in Hs.
    destruct (IH Hlong) as (acc & Hfold & Hfst & Hacc).
    destruct (randint_range 0 (len s - Z.of_nat Gibbs.M) (random_raw (length seqs)))
      as (z & Hz & Hzr); [unfold len; lia|].
    exists (acc ++ [(s, Z.to_nat z)]). split; [|split].
    + rewrite foldM_snoc, Hfold, Ok_bind. cbv beta iota. rewrite Hz, Ok_bind.
      rewrite length_app. simpl. by rewrite Nat.add_1_r.
    + by rewrite fmap_app, Hfst.
    + apply Forall_app. split; [done|]. apply Forall_singleton. simpl.
      unfold len in Hzr. lia.
Qed.

End GibbsSetup.

(** X9: the start of the sampler (lines 16-19) gives every sequence that is
    at least as long as the motif a start offset whose window lies inside
    the sequence, whatever the generator returns, and keeps the sequences and
    their order; one call of [randint] is made per sequence. *)
Theorem initial_state_windows_inside random_raw (seqs : list str) :
  Forall (λ s, (Gibbs.M ≤ length s)%nat) seqs →
  ∃ st, Gibbs.initial_state random_raw seqs = Ok st
    ∧ (Gibbs.sequences st).*1 = seqs
    ∧ Forall (λ p, (p.2 + Gibbs.M ≤ length p.1)%nat) (Gibbs.sequences st)
    ∧ Gibbs.num_of_sequences st = len seqs
    ∧ Gibbs.previous_sequence_indexes st = []
    ∧ Gibbs.randint_calls st = length seqs.
Proof.
  intros Hlong. destruct (initial_offsets_spec random_raw seqs Hlong) as (acc & Hfold & Hfst & Hacc).
  unfold Gibbs.initial_state. rewrite Hfold, Ok_bind. cbv beta iota.
  eexists. split; [done|]. simpl. split; [done|]. split; [done|]. split; [|done].
  unfold len. by rewrite <- Hfst, length_fmap.
Qed.

Lemma initial_state_windows_inside_witness :
  ∃ st, Gibbs.initial_state (λ k, (7 * k + 5)%nat)
          [lit "ACDEFGHIKLMNA"; lit "ACDEFGHIKLMNACDEFGHIKLMNPQRSTVWY"] = Ok st
    ∧ (Gibbs.sequences st).*1
      = [lit "ACDEFGHIKLMNA"; lit "ACDEFGHIKLMNACDEFGHIKLMNPQRSTVWY"]
    ∧ Forall (λ p, (p.2 + Gibbs.M ≤ length p.1)%nat) (Gibbs.sequences st)
    ∧ Gibbs.num_of_sequences st
      = len [lit "ACDEFGHIKLMNA"; lit "ACDEFGHIKLMNACDEFGHIKLMNPQRSTVWY"]
    ∧ Gibbs.previous_sequence_indexes st = []
    ∧ Gibbs.randint_calls st
      = length [lit "ACDEFGHIKLMNA"; lit "ACDEFGHIKLMNACDEFGHIKLMNPQRSTVWY"].
Proof.
  apply (initial_state_windows_inside (λ k, (7 * k + 5)%nat)
           [lit "ACDEFGHIKLMNA"; lit "ACDEFGHIKLMNACDEFGHIKLMNPQRSTVWY"]).
  repeat constructor; simpl; unfold Gibbs.M; lia.
Defined.

(** X10: a sequence shorter than the motif stops the start of the sampler
    with ValueError: [randint(0, len(seq) - M)] is called on an empty
    range. *)
Theorem initial_state_short_sequence random_raw (pre post : list str) (s : str) :
  Forall (λ s, (Gibbs.M ≤ length s)%nat) pre → (length s < Gibbs.M)%nat →
  Gibbs.initial_state random_raw (pre ++ s :: post) = Raise ValueError.
Proof.
  intros Hpre Hs. unfold Gibbs.initial_state. rewrite foldM_app.
  destruct (initial_offsets_spec random_raw pre Hpre) as (acc & Hfold & _).
  rewrite Hfold, Ok_bind. cbn [foldM].
  rewrite randint_empty by (unfold len; lia). done.
Qed.

Lemma initial_state_short_sequence_witness :
  Gibbs.initial_state (λ k, k) ([lit "ACDEFGHIKLMNA"] ++ lit "ACDEFG" :: [lit "ACDEFGHIKLMNPQ"])
  = Raise ValueError.
Proof.
  apply (initial_state_short_sequence (λ k, k) [lit "ACDEFGHIKLMNA"] [lit "ACDEFGHIKLMNPQ"]
           (lit "ACDEFG")).
  - repeat constructor; simpl; unfold Gibbs.M; lia.
  - simpl. unfold Gibbs.M. lia.
Defined.

(** ** The background of the sampler as a distribution *)

Section GibbsBackgroundDistribution.

Lemma count_zero (s : str) (b : ascii) : b ∉ s → count s b = 0%nat.
Proof.
  intros Hb. unfold count. induction s as [|c s IH]; [done|].
  rewrite filter_cons. rewrite decide_False.
  - apply IH. intros H. apply Hb. by right.
  - intros ->. apply Hb. by left.
Qed.

Lemma item_update_raise (d : gmap ascii Q) b f x e :
  d !! b = Some x → f x = Raise e → item_update d b f = Raise e.
Proof.
  intros Hx Hf. unfold item_update. by rewrite (proj2 (getitem_Ok _ _ _) Hx), Ok_bind, Hf.
Qed.

Lemma outside_count_zero sequences M b :
  ¬ outside_window sequences M b → outside_count sequences M b == 0.
Proof.
  intros Hno. apply Qsum_zero. intros [seq start] Hin.
  rewrite !count_zero; [reflexivity| |].
  - intros Hb. apply Hno. exists seq, start. split; [done|by right].
  - intros Hb. apply Hno. exists seq, start. split; [done|by left].
Qed.

(** The counts and their total, whatever the corpus. *)
Lemma background_counts_total (sequences : list (str * nat)) M :
  ∃ bf,
    foldM (λ bf '(seq, start),
             foldM (λ bf base,
                      item_update bf base
                        (λ x, Ok (x + inject_Z (Z.of_nat (count (take start seq) base
                                                   + count (drop (start + M) seq) base)))))
                   Gibbs.protein_alphabet bf)
          sequences (zeros_vector Gibbs.protein_alphabet) = Ok bf
    ∧ vmodels Gibbs.protein_alphabet bf (outside_count sequences M)
    ∧ sum (values bf) == Qsum (outside_count sequences M) Gibbs.protein_alphabet.
Proof.
  destruct (outside_counts_spec sequences M _ _ (vmodels_zeros Gibbs.protein_alphabet))
    as (bf & Hcnt & Hbf).
  assert (vmodels Gibbs.protein_alphabet bf (outside_count sequences M)) as Hbf'.
  { eapply vmodels_ext; [|exact Hbf]. intros b _. cbv beta. qlra. }
  exists bf. split; [done|]. split; [done|].
  by apply sum_values_spec; [apply protein_alphabet_NoDup|].
Qed.

Lemma outside_total_pos sequences M b0 :
  b0 ∈ Gibbs.protein_alphabet → outside_window sequences M b0 →
  0 < Qsum (outside_count sequences M) Gibbs.protein_alphabet.
Proof.
  intros Hb0 Hout. apply (Qsum_pos _ _ b0); [|done|by apply outside_count_pos].
  intros b _. apply outside_count_nonneg.
Qed.

End GibbsBackgroundDistribution.

(** X11: when some residue of the alphabet occurs outside the motif window
    of some sequence, the background of the sampler is a distribution over
    the alphabet: each residue gets its share of the residues counted
    outside the windows, no entry is negative and the entries add up to 1.
    Offsets beyond the end of a sequence and symbols outside the alphabet
    raise nothing here: the slices are clamped and only residues of the
    alphabet are counted. *)
Theorem gibbs_background_is_distribution (sequences : list (str * nat)) M b0 :
  b0 ∈ Gibbs.protein_alphabet → outside_window sequences M b0 →
  ∃ bg, Gibbs.calculate_background_probabilities sequences M = Ok bg
    ∧ (∀ b, is_Some (bg !! b) ↔ b ∈ Gibbs.protein_alphabet)
    ∧ (∀ b, b ∈ Gibbs.protein_alphabet →
         ∃ x, bg !! b = Some x ∧ 0 <= x
           ∧ x == outside_count sequences M b
                  / Qsum (outside_count sequences M) Gibbs.protein_alphabet)
    ∧ sum (values bg) == 1.
Proof.
  intros Hb0 Hout. unfold Gibbs.calculate_background_probabilities. cbv zeta.
  destruct (background_counts_total sequences M) as (bf & Hcnt & Hbf & Hsum).
  rewrite Hcnt, Ok_bind.
  pose proof (outside_total_pos sequences M b0 Hb0 Hout) as Hpos.
  destruct (normalise_vector_spec Gibbs.protein_alphabet bf _ (sum (values bf))
              protein_alphabet_NoDup Hbf) as (bg & Hnorm & Hbg); [rewrite Hsum; qlra|].
  exists bg. split; [exact Hnorm|].
  assert (vmodels Gibbs.protein_alphabet bg
            (λ b, outside_count sequences M b
                  / Qsum (outside_count sequences M) Gibbs.protein_alphabet)) as Hbg'.
  { eapply vmodels_ext; [|exact Hbg]. intros b _. cbv beta.
    apply Qdiv_comp; [reflexivity|done]. }
  split; [|split].
  - intros b. split; [apply Hbg'|]. intros Hb. destruct Hbg' as [_ Hd].
    destruct (Hd b Hb) as (x & Hx & _). by eexists.
  - intros b Hb. destruct Hbg' as [_ Hd]. destruct (Hd b Hb) as (x & Hx & Hxq).
    exists x. split; [done|]. split; [|done]. rewrite Hxq.
    apply Qdiv_nonneg; [apply outside_count_nonneg|done].
  - rewrite (sum_values_spec _ bg _ protein_alphabet_NoDup Hbg'), Qsum_div.
    field. qlra.
Qed.

Lemma gibbs_background_is_distribution_witness :
  ∃ bg, Gibbs.calculate_background_probabilities example_alignment Gibbs.M = Ok bg
    ∧ (∀ b, is_Some (bg !! b) ↔ b ∈ Gibbs.protein_alphabet)
    ∧ (∀ b, b ∈ Gibbs.protein_alphabet →
         ∃ x, bg !! b = Some x ∧ 0 <= x
           ∧ x == outside_count example_alignment Gibbs.M b
                  / Qsum (outside_count example_alignment Gibbs.M) Gibbs.protein_alphabet)
    ∧ sum (values bg) == 1.
Proof.
  apply (gibbs_background_is_distribution example_alignment Gibbs.M "A"%char).
  - by apply (bool_decide_unpack _).
  - exists (lit "ACDEFGHIKLMNA"), 0%nat. split; [by left|]. right.
    by apply (bool_decide_unpack _).
Defined.

(** X12: when no residue of the alphabet occurs outside the motif windows
    (an empty corpus, or sequences that are all motif), the background is
    not computed: the total of line 85 is 0 and the first division of line
    87 raises ZeroDivisionError. *)
Theorem gibbs_background_needs_outside_residue (sequences : list (str * nat)) M :
  (∀ b, b ∈ Gibbs.protein_alphabet → ¬ outside_window sequences M b) →
  Gibbs.calculate_background_probabilities sequences M = Raise ZeroDivisionError.
Proof.
  intros Hno. unfold Gibbs.calculate_background_probabilities. cbv zeta.
  destruct (background_counts_total sequences M) as (bf & Hcnt & [_ Hbf] & Hsum).
  rewrite Hcnt, Ok_bind.
  assert (sum (values bf) == 0) as Hz.
  { rewrite Hsum. apply Qsum_zero. intros b Hb. by apply outside_count_zero, Hno. }
  change Gibbs.protein_alphabet with ("A"%char :: lit "CDEFGHIKLMNPQRSTVWY") in *.
  cbn [foldM]. destruct (Hbf "A"%char ltac:(left)) as (x & Hx & _).
  rewrite (item_update_raise bf "A"%char _ x ZeroDivisionError Hx); [done|].
  by apply truediv_zero.
Qed.

Lemma gibbs_background_needs_outside_residue_witness :
  Gibbs.calculate_background_probabilities
    [(lit "ACDEFGHIKLMN", 0%nat); (lit "XACDEFGHIKLMN", 1%nat)] 12
  = Raise ZeroDivisionError.
Proof.
  apply (gibbs_background_needs_outside_residue
           [(lit "ACDEFGHIKLMN", 0%nat); (lit "XACDEFGHIKLMN", 1%nat)] 12).
  intros b Hb (seq & start & Hin & Hout).
  apply elem_of_cons in Hin as [[= -> ->]|Hin].
  - destruct Hout as [Hout|Hout]; by apply elem_of_nil in Hout.
  - apply list_elem_of_singleton in Hin as [= -> ->].
    destruct Hout as [Hout|Hout]; [|by apply elem_of_nil in Hout].
    apply list_elem_of_singleton in Hout as ->.
    revert Hb. by apply (bool_decide_unpack _).
Defined.

(** ** The cells of the weight matrix and its failure *)

Section WeightMatrix.

(** Every row of the alphabet is there with [n] cells. *)
Lemma cell_set_rows {V} (alphabet : str) (n : nat) (m : gmap ascii (list V)) b i (y : V) :
  (∀ s, s ∈ alphabet → ∃ row, m !! s = Some row ∧ length row = n) →
  b ∈ alphabet → (i < n)%nat →
  ∃ m', cell_set m b i (Ok y) = Ok m'
        ∧ ∀ s, s ∈ alphabet → ∃ row, m' !! s = Some row ∧ length row = n.
Proof.
  intros Hrows Hb Hi. destruct (Hrows b Hb) as (row & Hrow & Hlen).
  unfold cell_set. rewrite Ok_bind, (proj2 (getitem_Ok _ _ _) Hrow), Ok_bind.
  rewrite decide_True by lia. eexists. split; [done|].
  intros s Hs. destruct (decide (s = b)) as [->|Hne].
  - rewrite lookup_insert_eq. eexists. split; [done|]. by rewrite length_insert.
  - rewrite lookup_insert_ne by done. by apply Hrows.
Qed.

Lemma log_odds_Ok (ppm : gmap ascii (list Q)) (background : gmap ascii Q) b i :
  0 < cell_value ppm b i → 0 < item_value background b →
  (x ← cell_get ppm b i;
   y ← getitem background b;
   r ← truediv x y;
   math_log2 r)
  = Ok (log2 (Q2R (cell_value ppm b i / item_value background b))).
Proof.
  intros Hx Hy. rewrite (cell_value_pos ppm b i Hx), Ok_bind.
  rewrite (proj2 (getitem_Ok background b _) (item_value_pos background b Hy)), Ok_bind.
  rewrite truediv_Ok by qlra. rewrite Ok_bind. apply math_log2_pos. by apply Qdiv_pos.
Qed.

(** The rows of a prefix of the alphabet are filled when their residues
    have a positive background. *)
Lemma pwm_rows_prefix (ppm : gmap ascii (list Q)) (background : gmap ascii Q)
    (l : str) (m : gmap ascii (list R)) :
  (∀ s j, s ∈ Gibbs.protein_alphabet → (j < Gibbs.M)%nat → 0 < cell_value ppm s j) →
  (∀ s, s ∈ l → s ∈ Gibbs.protein_alphabet ∧ 0 < item_value background s) →
  (∀ s, s ∈ Gibbs.protein_alphabet → ∃ row, m !! s = Some row ∧ length row = Gibbs.M) →
  ∃ m',
    foldM (λ pwm base,
             foldM (λ pwm i,
                      cell_set pwm base i
                        (x ← cell_get ppm base i;
                         b ← getitem background base;
                         r ← truediv x b;
                         math_log2 r))
                   (range (Z.of_nat Gibbs.M)) pwm)
          l m = Ok m'
    ∧ ∀ s, s ∈ Gibbs.protein_alphabet → ∃ row, m' !! s = Some row ∧ length row = Gibbs.M.
Proof.
  intros Hppm. revert m. induction l as [|b l IH]; intros m Hl Hrows; [by exists m|].
  destruct (Hl b ltac:(left)) as [Hb Hbg].
  assert (∀ (js : list nat) m0,
            (∀ j, j ∈ js → (j < Gibbs.M)%nat) →
            (∀ s, s ∈ Gibbs.protein_alphabet →
               ∃ row, m0 !! s = Some row ∧ length row = Gibbs.M) →
            ∃ m1,
              foldM (λ pwm i,
                       cell_set pwm b i
                         (x ← cell_get ppm b i;
                          y ← getitem background b;
                          r ← truediv x y;
                          math_log2 r))
                    js m0 = Ok m1
              ∧ ∀ s, s ∈ Gibbs.protein_alphabet →
                  ∃ row, m1 !! s = Some row ∧ length row = Gibbs.M) as Hinner.
  { induction js as [|j js IHj]; intros m0 Hjs Hm0; [by exists m0|].
    cbn [foldM]. rewrite (log_odds_Ok ppm background b j); [|apply Hppm|]; [|done| |done].
    - destruct (cell_set_rows Gibbs.protein_alphabet Gibbs.M m0 b j
                  (log2 (Q2R (cell_value ppm b j / item_value background b))) Hm0 Hb)
        as (m1 & Hset & Hm1); [apply Hjs; by left|].
      rewrite Hset, Ok_bind. apply IHj; [|done]. intros; apply Hjs; by right.
    - apply Hjs. by left. }
  destruct (Hinner (range (Z.of_nat Gibbs.M)) m) as (m1 & Hrow & Hm1); [|done|].
  { intros j Hj. rewrite range_nat in Hj. apply elem_of_seq in Hj. lia. }
  cbn [foldM]. rewrite Hrow, Ok_bind. apply IH; [|done]. intros; apply Hl; by right.
Qed.

Lemma first_such {A} (P : A → Prop) (P_dec : ∀ x, {P x} + {¬ P x}) (l : list A) x :
  x ∈ l → P x → ∃ l1 y l2, l = l1 ++ y :: l2 ∧ Forall (λ z, ¬ P z) l1 ∧ P y.
Proof.
  induction l as [|z l IH]; intros Hin HP; [by apply elem_of_nil in Hin|].
  destruct (P_dec z) as [Hz|Hz]; [by exists [], z, l|].
  apply elem_of_cons in Hin as [->|Hin]; [done|].
  destruct (IH Hin HP) as (l1 & y & l2 & -> & Hl1 & Hy).
  exists (z :: l1), y, l2. split; [done|]. split; [by constructor|done].
Qed.

Lemma zeros_matrix_rows {V} (zero : V) (alphabet : str) n s :
  s ∈ alphabet → ∃ row, zeros_matrix zero alphabet n !! s = Some row ∧ length row = n.
Proof.
  intros Hs. rewrite zeros_matrix_lookup by done.
  eexists. split; [done|]. by rewrite length_replicate.
Qed.

End WeightMatrix.

(** X13: for a probability matrix with positive cells and a background that
    is positive on the alphabet, [ppm_to_pwm] fills a matrix over the alphabet
    whose cell (b, i) is the base-2 logarithm of ppm[b][i] / background[b]. *)
Theorem pwm_cells_are_log_odds (ppm : gmap ascii (list Q)) (background : gmap ascii Q) :
  (∀ s j, s ∈ Gibbs.protein_alphabet → (j < Gibbs.M)%nat → 0 < cell_value ppm s j) →
  (∀ s, s ∈ Gibbs.protein_alphabet → 0 < item_value background s) →
  ∃ pwm, Gibbs.ppm_to_pwm ppm background = Ok pwm
    ∧ (∀ b, is_Some (pwm !! b) → b ∈ Gibbs.protein_alphabet)
    ∧ ∀ b i, b ∈ Gibbs.protein_alphabet → (i < Gibbs.M)%nat →
        cell_get pwm b i
        = Ok (log2 (Q2R (cell_value ppm b i / item_value background b))).
Proof.
  intros Hppm Hbg.
  destruct (ppm_to_pwm_spec ppm background Hppm Hbg) as (pwm & Hpwm & [Hk Hm]).
  exists pwm. split; [done|]. split; [done|]. intros b i Hb Hi.
  by destruct (Hm b i Hb Hi) as (x & Hx & ->).
Qed.

Lemma pwm_cells_are_log_odds_witness :
  ∃ pwm, Gibbs.ppm_to_pwm skewed_ppm skewed_bg = Ok pwm
    ∧ (∀ b, is_Some (pwm !! b) → b ∈ Gibbs.protein_alphabet)
    ∧ ∀ b i, b ∈ Gibbs.protein_alphabet → (i < Gibbs.M)%nat →
        cell_get pwm b i
        = Ok (log2 (Q2R (cell_value skewed_ppm b i / item_value skewed_bg b))).
Proof.
  apply (pwm_cells_are_log_odds skewed_ppm skewed_bg).
  - exact skewed_ppm_pos.
  - exact skewed_bg_pos.
Defined.

(** X14: a residue of the alphabet whose background probability is 0 makes
    [ppm_to_pwm] raise ZeroDivisionError (the matrix has positive cells and
    the background no negative entry, so that no logarithm fails before the
    division does). *)
Theorem pwm_fails_on_zero_background (ppm : gmap ascii (list Q))
    (background : gmap ascii Q) b :
  (∀ s j, s ∈ Gibbs.protein_alphabet → (j < Gibbs.M)%nat → 0 < cell_value ppm s j) →
  (∀ s, s ∈ Gibbs.protein_alphabet →
     is_Some (background !! s) ∧ 0 <= item_value background s) →
  b ∈ Gibbs.protein_alphabet → item_value background b == 0 →
  Gibbs.ppm_to_pwm ppm background = Raise ZeroDivisionError.
Proof.
  intros Hppm Hbg Hb Hz.
  destruct (first_such (λ s, item_value background s == 0)
              (λ s, Qeq_dec (item_value background s) 0) Gibbs.protein_alphabet b Hb Hz)
    as (l1 & z & l2 & Hl & Hl1 & Hzz).
  assert (∀ s, s ∈ l1 ++ z :: l2 → s ∈ Gibbs.protein_alphabet) as Hsub by (by rewrite <- Hl).
  unfold Gibbs.ppm_to_pwm. cbv zeta.
  set (m0 := zeros_matrix 0%R Gibbs.protein_alphabet Gibbs.M).
  rewrite Hl, foldM_app.
  destruct (pwm_rows_prefix ppm background l1 m0 Hppm) as (m1 & Hpre & Hm1).
  { intros s Hs. assert (s ∈ Gibbs.protein_alphabet) as HsA.
    { apply Hsub, elem_of_app. by left. }
    split; [done|]. rewrite Forall_forall in Hl1. specialize (Hl1 s Hs).
    destruct (Hbg s HsA) as [_ Hnn]. cbv beta in Hl1.
    destruct (Qlt_le_dec 0 (item_value background s)) as [Hlt|Hle]; [done|].
    exfalso. apply Hl1. qlra. }
  { intros s Hs. by apply zeros_matrix_rows. }
  rewrite Hpre, Ok_bind. cbn [foldM].
  assert (z ∈ Gibbs.protein_alphabet) as HzA.
  { apply Hsub, elem_of_app. right. by left. }
  change (range (Z.of_nat Gibbs.M)) with (0%nat :: seq 1 11). cbn [foldM].
  assert ((x ← cell_get ppm z 0;
           y ← getitem background z;
           r ← truediv x y;
           math_log2 r) = Raise ZeroDivisionError) as ->; [|done].
  rewrite (cell_value_pos ppm z 0) by (apply Hppm; [done|unfold Gibbs.M; lia]).
  rewrite Ok_bind. destruct (Hbg z HzA) as [(y & Hy) _].
  rewrite (proj2 (getitem_Ok background z y) Hy), Ok_bind.
  rewrite truediv_zero; [done|]. unfold item_value in Hzz. by rewrite Hy in Hzz.
Qed.

Lemma pwm_fails_on_zero_background_witness :
  Gibbs.ppm_to_pwm skewed_ppm
    (tabulate (λ b, if decide (b = "W"%char) then 0 else 1 # 19) Gibbs.protein_alphabet)
  = Raise ZeroDivisionError.
Proof.
  apply (pwm_fails_on_zero_background skewed_ppm
           (tabulate (λ b, if decide (b = "W"%char) then 0 else 1 # 19) Gibbs.protein_alphabet)
           "W"%char).
  - exact skewed_ppm_pos.
  - intros s Hs. unfold item_value. rewrite tabulate_lookup by done.
    split; [by eexists|]. simpl. case_decide; discriminate.
  - by apply (bool_decide_unpack _).
  - unfold item_value. rewrite tabulate_lookup by (by apply (bool_decide_unpack _)).
    reflexivity.
Defined.

(** ** The consensus motif and its score *)

Section Consensus.

(** The scan for the best key keeps the first key with the greatest score. *)
Lemma best_scan (PWM : gmap ascii (list R)) (score : ascii → R) i ks best :
  (∀ k, k ∈ ks → cell_get PWM k i = Ok (score k)) →
  ∃ b,
    foldM (λ '(best, bs) k,
             s ← cell_get PWM k i;
             Ok (if Rlt_dec bs s then (k, s) else (best, bs)))
          ks (best, score best) = Ok (b, score b)
    ∧ ((b = best ∧ ∀ k, k ∈ ks → (score k <= score best)%R)
       ∨ ∃ l1 l2, ks = l1 ++ b :: l2
           ∧ (score best < score b)%R
           ∧ (∀ k, k ∈ l1 → (score k < score b)%R)
           ∧ ∀ k, k ∈ l2 → (score k <= score b)%R).
Proof.
  revert best. induction ks as [|k ks IH]; intros best Hks.
  - exists best. split; [done|]. left. split; [done|].
    intros k Hk. by apply elem_of_nil in Hk.
  - cbn [foldM]. rewrite (Hks k ltac:(left)), !Ok_bind.
    assert (∀ k', k' ∈ ks → cell_get PWM k' i = Ok (score k')) as Hks'
      by (intros; apply Hks; by right).
    destruct (Rlt_dec (score best) (score k)) as [Hlt|Hge].
    + destruct (IH k Hks') as (b & Hfold & Hb). exists b. split; [done|]. right.
      destruct Hb as [[-> Hall]|(l1 & l2 & -> & Hkb & Hl1 & Hl2)].
      * exists [], ks. split; [done|]. split; [done|]. split; [|done].
        intros k' Hk'. by apply elem_of_nil in Hk'.
      * exists (k :: l1), l2. split; [done|]. split; [rlra|]. split; [|done].
        intros k' Hk'. apply elem_of_cons in Hk' as [->|Hk']; [done|by apply Hl1].
    + destruct (IH best Hks') as (b & Hfold & Hb). exists b. split; [done|].
      destruct Hb as [[-> Hall]|(l1 & l2 & -> & Hkb & Hl1 & Hl2)].
      * left. split; [done|]. intros k' Hk'.
        apply elem_of_cons in Hk' as [->|Hk']; [rlra|by apply Hall].
      * right. exists (k :: l1), l2. split; [done|]. split; [done|]. split; [|done].
        intros k' Hk'. apply elem_of_cons in Hk' as [->|Hk']; [rlra|by apply Hl1].
Qed.

(** The consensus symbol of a column: the first symbol of the alphabet with
    the greatest score, and the maximum of the column is its score. *)
Lemma best_base_spec (PWM : gmap ascii (list R)) (score : ascii → R) i :
  (∀ k, k ∈ Gibbs.protein_alphabet → cell_get PWM k i = Ok (score k)) →
  ∃ b l1 l2,
    Gibbs.best_base PWM i = Ok b
    ∧ Gibbs.column_max PWM i = Ok (score b)
    ∧ Gibbs.protein_alphabet = l1 ++ b :: l2
    ∧ (∀ k, k ∈ l1 → (score k < score b)%R)
    ∧ ∀ k, k ∈ l2 → (score k <= score b)%R.
Proof.
  intros Hcells.
  assert (∀ b l1 l2, Gibbs.protein_alphabet = l1 ++ b :: l2 →
            (∀ k, k ∈ l1 → (score k < score b)%R) →
            (∀ k, k ∈ l2 → (score k <= score b)%R) →
            Gibbs.column_max PWM i = Ok (score b)) as Hmax.
  { intros b l1 l2 Hl Hl1 Hl2. unfold Gibbs.column_max.
    rewrite (mapM_Ok_intro _ score) by done. rewrite Ok_bind.
    apply max_R_greatest.
    - apply list_elem_of_fmap. exists b. split; [done|].
      rewrite Hl. apply elem_of_app. right. by left.
    - intros y Hy. apply list_elem_of_fmap in Hy as (s & -> & Hs).
      rewrite Hl in Hs. apply elem_of_app in Hs as [Hs|Hs].
      + left. by apply Hl1.
      + apply elem_of_cons in Hs as [->|Hs]; [rlra|by apply Hl2]. }
  unfold Gibbs.best_base. remember Gibbs.protein_alphabet as alphabet eqn:EA.
  destruct alphabet as [|k0 ks]; [done|].
  rewrite (Hcells k0 ltac:(left)), Ok_bind.
  destruct (best_scan PWM score i ks k0) as (b & Hfold & Hb).
  { intros k Hk. apply Hcells. by right. }
  rewrite Hfold.
  destruct Hb as [[-> Hall]|(l1 & l2 & -> & Hkb & Hl1 & Hl2)].
  - exists k0, [], ks. split; [done|]. split; [|split; [done|split; [|done]]].
    + apply (Hmax k0 [] ks); [done| |done]. intros k Hk. by apply elem_of_nil in Hk.
    + intros k Hk. by apply elem_of_nil in Hk.
  - assert (∀ k, k ∈ k0 :: l1 → (score k < score b)%R) as Hl1'.
    { intros k Hk. apply elem_of_cons in Hk as [->|Hk]; [done|by apply Hl1]. }
    exists b, (k0 :: l1), l2. split; [done|]. split; [|done].
    by apply (Hmax b (k0 :: l1) l2).
Qed.

Lemma fold_Rplus_ext {A} (f g : A → R) (l : list A) (a : R) :
  (∀ x, x ∈ l → f x = g x) → fold_left Rplus (f <$> l) a = fold_left Rplus (g <$> l) a.
Proof.
  revert a. induction l as [|x l IH]; intros a H; [done|]. simpl.
  rewrite (H x ltac:(left)). apply IH. intros; apply H; by right.
Qed.

End Consensus.

(** What is reported about a matrix that has a cell for every symbol of the
    alphabet and every column. *)
Lemma report_spec (PWM : gmap ascii (list R))
    (score : ascii → nat → R) :
  (∀ b i, b ∈ Gibbs.protein_alphabet → (i < Gibbs.M)%nat →
     cell_get PWM b i = Ok (score b i)) →
  ∃ most_likely_motif LL,
    Gibbs.report PWM = Ok (most_likely_motif, LL)
    ∧ length most_likely_motif = Gibbs.M
    ∧ (∀ i b, most_likely_motif !! i = Some b →
         Gibbs.column_max PWM i = Ok (score b i)
         ∧ ∃ l1 l2, Gibbs.protein_alphabet = l1 ++ b :: l2
             ∧ (∀ k, k ∈ l1 → (score k i < score b i)%R)
             ∧ ∀ k, k ∈ l2 → (score k i <= score b i)%R)
    ∧ LL = fold_left Rplus ((λ '(i, b), score b i) <$> enumerate most_likely_motif) 0%R.
Proof.
  intros Hcells. unfold Gibbs.report.
  destruct (mapM_is_Ok (Gibbs.best_base PWM) (range (Z.of_nat Gibbs.M))) as (motif & Hmotif).
  { intros i Hi. rewrite range_nat in Hi. apply elem_of_seq in Hi.
    destruct (best_base_spec PWM (λ b, score b i) i) as (b & _ & _ & Hb & _).
    - intros k Hk. apply Hcells; [done|lia].
    - by exists b. }
  pose proof (mapM_Ok_length _ _ _ Hmotif) as Hlen.
  rewrite range_nat, length_seq in Hlen.
  assert (∀ i b, motif !! i = Some b →
            Gibbs.column_max PWM i = Ok (score b i)
            ∧ ∃ l1 l2, Gibbs.protein_alphabet = l1 ++ b :: l2
                ∧ (∀ k, k ∈ l1 → (score k i < score b i)%R)
                ∧ ∀ k, k ∈ l2 → (score k i <= score b i)%R) as Hcols.
  { intros i b Hib.
    assert (i < Gibbs.M)%nat as Hi by (rewrite <- Hlen; by eapply lookup_lt_Some).
    destruct (mapM_Ok_lookup _ _ _ i i Hmotif) as (b' & Hb' & Hbest).
    { rewrite range_nat. by apply lookup_seq_lt. }
    rewrite Hib in Hb'. injection Hb' as <-.
    destruct (best_base_spec PWM (λ b, score b i) i) as (b'' & l1 & l2 & Hb'' & Hmax & Hrest).
    { intros k Hk. by apply Hcells. }
    rewrite Hbest in Hb''. injection Hb'' as <-. split; [done|]. by exists l1, l2. }
  rewrite Hmotif, Ok_bind.
  assert (mapM (Gibbs.column_max PWM) (range (Z.of_nat Gibbs.M))
          = Ok ((λ '(i, b), score b i) <$> enumerate motif)) as Hmax.
  { assert (range (Z.of_nat Gibbs.M) = (enumerate motif).*1) as ->.
    { unfold enumerate. rewrite fst_zip by (rewrite length_seq; lia).
      by rewrite range_nat, Hlen. }
    assert (∀ p, p ∈ enumerate motif →
              Gibbs.column_max PWM p.1 = Ok (score p.2 p.1)) as Hall.
    { intros [i b] Hp. apply elem_of_enumerate in Hp. by apply Hcols. }
    revert Hall. generalize (enumerate motif). intros l Hall.
    induction l as [|[i b] l IH]; [done|].
    rewrite !fmap_cons. cbn [mapM fst].
    pose proof (Hall (i, b) ltac:(left)) as Hib. cbn [fst snd] in Hib.
    rewrite Hib, Ok_bind, IH by (intros; apply Hall; by right). done. }
  rewrite Hmax, Ok_bind. eexists motif, _. split; [done|]. by split; [|split].
Qed.


(** X15: what an iteration reports (lines 163-167) about the weight matrix
    of a probability matrix with positive cells and a background that is
    positive on the alphabet: the consensus has one symbol per column, in
    each column the first symbol of the alphabet whose log-odds is the
    greatest of the column, and the log-likelihood is the sum of the log-odds
    of the consensus symbols. *)
Theorem report_is_consensus_and_its_score (ppm : gmap ascii (list Q))
    (background : gmap ascii Q) :
  (∀ s j, s ∈ Gibbs.protein_alphabet → (j < Gibbs.M)%nat → 0 < cell_value ppm s j) →
  (∀ s, s ∈ Gibbs.protein_alphabet → 0 < item_value background s) →
  ∃ PWM most_likely_motif LL,
    Gibbs.ppm_to_pwm ppm background = Ok PWM
    ∧ Gibbs.report PWM = Ok (most_likely_motif, LL)
    ∧ length most_likely_motif = Gibbs.M
    ∧ (∀ i b, most_likely_motif !! i = Some b →
         Gibbs.column_max PWM i = Ok (log_odds ppm background b i)
         ∧ ∃ l1 l2, Gibbs.protein_alphabet = l1 ++ b :: l2
             ∧ (∀ k, k ∈ l1 →
                  (log_odds ppm background k i < log_odds ppm background b i)%R)
             ∧ ∀ k, k ∈ l2 →
                  (log_odds ppm background k i <= log_odds ppm background b i)%R)
    ∧ LL = fold_left Rplus
             ((λ '(i, b), log_odds ppm background b i) <$> enumerate most_likely_motif)
             0%R.
Proof.
  intros Hppm Hbg.
  destruct (ppm_to_pwm_spec ppm background Hppm Hbg) as (PWM & Hpwm & [_ Hm]).
  destruct (report_spec PWM (log_odds ppm background)) as (motif & LL & Hrep & Hrest).
  { intros b i Hb Hi. by destruct (Hm b i Hb Hi) as (x & Hx & ->). }
  by exists PWM, motif, LL.
Qed.

Lemma report_is_consensus_and_its_score_witness :
  ∃ PWM most_likely_motif LL,
    Gibbs.ppm_to_pwm skewed_ppm skewed_bg = Ok PWM
    ∧ Gibbs.report PWM = Ok (most_likely_motif, LL)
    ∧ length most_likely_motif = Gibbs.M
    ∧ (∀ i b, most_likely_motif !! i = Some b →
         Gibbs.column_max PWM i = Ok (log_odds skewed_ppm skewed_bg b i)
         ∧ ∃ l1 l2, Gibbs.protein_alphabet = l1 ++ b :: l2
             ∧ (∀ k, k ∈ l1 →
                  (log_odds skewed_ppm skewed_bg k i < log_odds skewed_ppm skewed_bg b i)%R)
             ∧ ∀ k, k ∈ l2 →
                  (log_odds skewed_ppm skewed_bg k i <= log_odds skewed_ppm skewed_bg b i)%R)
    ∧ LL = fold_left Rplus
             ((λ '(i, b), log_odds skewed_ppm skewed_bg b i) <$> enumerate most_likely_motif)
             0%R.
Proof.
  apply (report_is_consensus_and_its_score skewed_ppm skewed_bg).
  - exact skewed_ppm_pos.
  - exact skewed_bg_pos.
Defined.

(** ** What the iterations of the sampler keep *)

Section SamplerInvariant.

Variable random_raw : nat → nat.
Variable uniform : nat → Q.

(** A draw of [numpy.random.choice] with a uniform sample below 1 is an
    index of the distribution. *)
Lemma np_choice_inv (a : Z) (p : list Q) (u : Q) pos :
  np_choice a p u = Ok pos → u < 1 → (0 < a)%Z ∧ len p = a ∧ (pos < length p)%nat.
Proof.
  unfold np_choice. intros H Hu.
  destruct (a <=? 0)%Z eqn:Ea; [done|]. apply Z.leb_gt in Ea.
  destruct (len p =? a)%Z eqn:El; [|done]. apply Z.eqb_eq in El. cbn [negb] in H.
  destruct (existsb (λ x, lt x 0) p); [done|].
  destruct (lt np_atol (Qabs (sum p - 1))) eqn:Et; [done|].
  cbv zeta in H. injection H as <-. split; [done|]. split; [done|].
  assert (p ≠ []) as Hne by (intros ->; unfold len in El; simpl in El; lia).
  destruct (cumsum_from_spec 0 p) as [Hcl Hlast].
  destruct (Hlast Hne) as [Hl Hin]. rewrite <- Hcl.
  apply (filter_length_lt _ _ (List.last (cumsum_from 0 p) 0)); [done|].
  intros Hle. apply Qle_bool_iff in Hle.
  assert (0 < sum p) as Hpos.
  { assert (¬ np_atol < Qabs (sum p - 1)) as Hn.
    { intros Hlt. apply lt_spec in Hlt. congruence. }
    apply Qnot_lt_le in Hn. apply Qabs_Qle_condition in Hn as [Hn _].
    assert (np_atol < 1) by reflexivity. qlra. }
  assert (List.last (cumsum_from 0 p) 0 / List.last (cumsum_from 0 p) 0 == 1) as E.
  { field. rewrite Hl. qlra. }
  rewrite E in Hle. qlra.
Qed.

Lemma insert_elem_of {A} (l : list A) i x y : y ∈ <[i := x]> l → y = x ∨ y ∈ l.
Proof.
  intros Hy. apply list_elem_of_lookup in Hy as (j & Hj).
  destruct (decide (i = j)) as [->|Hne].
  - left. apply list_lookup_insert_Some in Hj as [(_ & -> & _)|[? _]]; [done|done].
  - right. rewrite list_lookup_insert_ne in Hj by done. by eapply list_elem_of_lookup_2.
Qed.

Lemma fst_insert {A B} (l : list (A * B)) i (a : A) (b b' : B) :
  l !! i = Some (a, b) → (<[i := (a, b')]> l).*1 = l.*1.
Proof.
  intros Hi. rewrite list_fmap_insert. cbn [fst]. apply list_insert_id.
  by rewrite list_lookup_fmap, Hi.
Qed.

Lemma choose_left_out_sequence_entry fuel n k sequences previous idx s k' :
  Gibbs.choose_left_out_sequence random_raw fuel n k sequences previous
  = Some (Ok (idx, s, k')) →
  ∃ start, sequences !! idx = Some (s, start).
Proof.
  unfold Gibbs.choose_left_out_sequence.
  destruct (randint 0 (n - 1) (random_raw k)) as [z|e]; [|done].
  destruct (Gibbs.wait_for_fresh_index _ _ _ _ _ _) as [[[i k1]|e]|]; [|done..].
  intros [= H]. apply bind_Ok in H as ([s' start] & Hentry & [= -> <- _]).
  exists start. by apply index_Ok.
Qed.

(** A successful iteration moves one motif window, inside its sequence. *)
Lemma iteration_inv fuel (st st' : Gibbs.state) idx out :
  uniform (Gibbs.choice_calls st) < 1 →
  Gibbs.iteration random_raw uniform fuel st = Some (Ok (st', idx, out)) →
  ∃ seq start pos,
    Gibbs.sequences st !! idx = Some (seq, start)
    ∧ (pos + Gibbs.M < length seq)%nat
    ∧ Gibbs.sequences st' = <[idx := (seq, pos)]> (Gibbs.sequences st)
    ∧ Gibbs.num_of_sequences st' = Gibbs.num_of_sequences st
    ∧ Gibbs.previous_sequence_indexes st' = Gibbs.previous_sequence_indexes st
    ∧ Gibbs.choice_calls st' = S (Gibbs.choice_calls st).
Proof.
  intros Hu. unfold Gibbs.iteration.
  destruct (Gibbs.choose_left_out_sequence _ _ _ _ _ _) as [[[[i s] k]|e]|] eqn:Hch; [|done..].
  apply choose_left_out_sequence_entry in Hch as (start & Hentry).
  intros [= H]. apply bind_Ok in H as ([[st1 ppm] bg] & Hres & H).
  apply bind_Ok in H as (pwm & _ & H). apply bind_Ok in H as (o & _ & [= -> -> _]).
  unfold Gibbs.resample in Hres.
  apply bind_Ok in Hres as (bg' & _ & Hres). apply bind_Ok in Hres as (ppm' & _ & Hres).
  apply bind_Ok in Hres as (d & _ & Hres). apply bind_Ok in Hres as (pos & Hpos & Hres).
  apply bind_Ok in Hres as (entry & Hentry' & [= <- _ _]).
  apply index_Ok in Hentry'. rewrite Hentry in Hentry'. injection Hentry' as <-.
  unfold Gibbs.choose_new_position in Hpos.
  apply np_choice_inv in Hpos as (Ha & Hlen & Hlt); [|done].
  exists s, start, pos. split; [done|]. split; [|done].
  unfold len in *. lia.
Qed.

Lemma run_inv fuel n (st st' : Gibbs.state) idxs outs :
  (∀ k, uniform k < 1) → aligned (Gibbs.sequences st) →
  Gibbs.run random_raw uniform fuel n st = Some (Ok (st', idxs, outs)) →
  aligned (Gibbs.sequences st')
  ∧ (Gibbs.sequences st').*1 = (Gibbs.sequences st).*1
  ∧ length idxs = n ∧ length outs = n
  ∧ Forall (λ idx, (idx < length (Gibbs.sequences st))%nat) idxs
  ∧ Gibbs.num_of_sequences st' = Gibbs.num_of_sequences st
  ∧ Gibbs.previous_sequence_indexes st' = Gibbs.previous_sequence_indexes st
  ∧ Gibbs.choice_calls st' = (Gibbs.choice_calls st + n)%nat.
Proof.
  intros Hu. revert st idxs outs. induction n as [|n IH]; intros st idxs outs Hal Hrun.
  - injection Hrun as <- <- <-. rewrite Nat.add_0_r.
    split; [done|]. split; [done|]. split; [done|]. split; [done|].
    split; [constructor|done].
  - cbn [Gibbs.run] in Hrun.
    destruct (Gibbs.iteration random_raw uniform fuel st) as [[[[st1 idx] out]|e]|] eqn:Hit;
      [|done..].
    destruct (Gibbs.run random_raw uniform fuel n st1) as [[[[st2 idxs'] outs']|e]|] eqn:Hrest;
      [|done..].
    injection Hrun as <- <- <-.
    apply iteration_inv in Hit as (seq & start & pos & Hentry & Hpos & Hs1 & Hn1 & Hp1 & Hc1);
      [|apply Hu].
    assert (aligned (Gibbs.sequences st1)) as Hal1.
    { intros seq' start' Hin. rewrite Hs1 in Hin.
      apply insert_elem_of in Hin as [[= -> ->]|Hin]; [|by apply Hal].
      split; [lia|]. by apply (Hal seq start), (list_elem_of_lookup_2 _ idx). }
    destruct (IH st1 idxs' outs' Hal1 Hrest) as (Hal2 & Hfst & Hli & Hlo & Hidx & Hn2 & Hp2 & Hc2).
    assert (length (Gibbs.sequences st1) = length (Gibbs.sequences st)) as Hlen1
      by (by rewrite Hs1, length_insert).
    split; [done|]. split; [by rewrite Hfst, Hs1, (fst_insert _ _ _ start)|].
    split; [simpl; lia|]. split; [simpl; lia|].
    split; [|split; [congruence|split; [congruence|lia]]].
    constructor; [by eapply lookup_lt_Some|]. by rewrite <- Hlen1.
Qed.

End SamplerInvariant.

Lemma example_run fuel :
  ∃ st' outs,
    Gibbs.run zero_raw zero_uniform fuel 2 example_state
    = Some (Ok (st', [0%nat; 0%nat], outs)).
Proof.
  destruct (example_iteration fuel example_state eq_refl eq_refl eq_refl)
    as (st1 & out1 & Hit1 & Hs1 & Hn1 & Hp1).
  destruct (example_iteration fuel st1 Hs1 Hn1 Hp1)
    as (st2 & out2 & Hit2 & Hs2 & Hn2 & Hp2).
  exists st2, [out1; out2]. cbn [Gibbs.run]. by rewrite Hit1, Hit2.
Qed.

(** X16: whatever the generators return (uniform samples in [0, 1)), the
    iterations of the sampler that succeed keep the corpus and the validity
    of the alignment: the sequences and their order are unchanged, every
    motif window still lies inside its sequence, one index of the corpus is
    held out and one line is reported per iteration, and the exclusion list
    is never touched. *)
Theorem sampler_keeps_alignment_valid random_raw uniform fuel n
    (st st' : Gibbs.state) idxs outs :
  (∀ k, uniform k < 1) → aligned (Gibbs.sequences st) →
  Gibbs.run random_raw uniform fuel n st = Some (Ok (st', idxs, outs)) →
  aligned (Gibbs.sequences st')
  ∧ (Gibbs.sequences st').*1 = (Gibbs.sequences st).*1
  ∧ length idxs = n ∧ length outs = n
  ∧ Forall (λ idx, (idx < length (Gibbs.sequences st))%nat) idxs
  ∧ Gibbs.num_of_sequences st' = Gibbs.num_of_sequences st
  ∧ Gibbs.previous_sequence_indexes st' = Gibbs.previous_sequence_indexes st
  ∧ Gibbs.choice_calls st' = (Gibbs.choice_calls st + n)%nat.
Proof. apply run_inv. Qed.

Lemma sampler_keeps_alignment_valid_witness :
  ∃ st' idxs outs,
    Gibbs.run zero_raw zero_uniform 0 2 example_state = Some (Ok (st', idxs, outs))
    ∧ aligned (Gibbs.sequences st')
    ∧ (Gibbs.sequences st').*1 = (Gibbs.sequences example_state).*1
    ∧ length idxs = 2%nat ∧ length outs = 2%nat
    ∧ Forall (λ idx, (idx < length (Gibbs.sequences example_state))%nat) idxs
    ∧ Gibbs.num_of_sequences st' = Gibbs.num_of_sequences example_state
    ∧ Gibbs.previous_sequence_indexes st' = Gibbs.previous_sequence_indexes example_state
    ∧ Gibbs.choice_calls st' = (Gibbs.choice_calls example_state + 2)%nat.
Proof.
  destruct (example_run 0) as (st' & outs & Hrun).
  exists st', [0%nat; 0%nat], outs. split; [exact Hrun|].
  apply (sampler_keeps_alignment_valid zero_raw zero_uniform 0 2 example_state st'
           [0%nat; 0%nat] outs).
  - intros k. reflexivity.
  - exact example_alignment_aligned.
  - exact Hrun.
Defined.

(** ** The choice of the sequence to leave out *)

Section LeftOut.

Variable random_raw : nat → nat.

Lemma wait_for_fresh_index_inv fuel n previous i k idx k' :
  Gibbs.wait_for_fresh_index random_raw fuel n previous i k = Some (Ok (idx, k')) →
  (idx ∉ previous) ∧ (k ≤ k')%nat ∧ (idx = i ∨ (0 ≤ Z.of_nat idx < n)%Z).
Proof.
  revert i k. induction fuel as [|fuel IH]; intros i k H; cbn [Gibbs.wait_for_fresh_index] in H.
  - case_bool_decide; [done|]. injection H as <- <-. split; [done|]. split; [lia|by left].
  - case_bool_decide as Hin.
    + destruct (randint 0 (n - 1) (random_raw k)) as [z|e] eqn:Hz; [|done].
      apply IH in H as (Hfresh & Hk & Hidx). split; [done|]. split; [lia|]. right.
      destruct Hidx as [->|Hidx]; [|done].
      unfold randint in Hz. destruct (n - 1 <? 0)%Z eqn:En; [done|]. apply Z.ltb_ge in En.
      injection Hz as <-.
      pose proof (Z.mod_pos_bound (Z.of_nat (random_raw k)) (n - 1 - 0 + 1) ltac:(lia)). lia.
    + injection H as <- <-. split; [done|]. split; [lia|by left].
Qed.

Lemma wait_for_fresh_index_exhausted fuel n previous i k :
  (0 < n)%Z → (∀ j, (Z.of_nat j < n)%Z → j ∈ previous) → (Z.of_nat i < n)%Z →
  Gibbs.wait_for_fresh_index random_raw fuel n previous i k = None.
Proof.
  intros Hn Hfull. revert i k. induction fuel as [|fuel IH]; intros i k Hi;
    cbn [Gibbs.wait_for_fresh_index]; rewrite bool_decide_eq_true_2 by (by apply Hfull);
    [done|].
  destruct (randint_range 0 (n - 1) (random_raw k)) as (z & Hz & Hzr); [lia|].
  rewrite Hz. apply IH. lia.
Qed.

End LeftOut.

(** X17: whenever [choose_left_out_sequence] returns, the index it returns
    is a position of the corpus below num_of_sequences that is not in the
    exclusion list it was given, the string is the sequence at that index,
    and at least one draw of [randint] was used. *)
Theorem left_out_index_is_fresh random_raw fuel (n : Z) k
    (sequences : list (str * nat)) (previous : list nat) idx s k' :
  Gibbs.choose_left_out_sequence random_raw fuel n k sequences previous
  = Some (Ok (idx, s, k')) →
  (idx ∉ previous)
  ∧ (0 ≤ Z.of_nat idx < n)%Z
  ∧ (∃ start, sequences !! idx = Some (s, start))
  ∧ (k < k')%nat.
Proof.
  intros H. pose proof (choose_left_out_sequence_entry _ _ _ _ _ _ _ _ _ H) as Hentry.
  unfold Gibbs.choose_left_out_sequence in H.
  destruct (randint 0 (n - 1) (random_raw k)) as [z|e] eqn:Hz; [|done].
  destruct (Gibbs.wait_for_fresh_index _ _ _ _ _ _) as [[[i k1]|e]|] eqn:Hw; [|done..].
  injection H as H. apply bind_Ok in H as (entry & _ & [= -> _ ->]).
  apply wait_for_fresh_index_inv in Hw as (Hfresh & Hk & Hidx).
  split; [done|]. split; [|split; [done|lia]].
  unfold randint in Hz. destruct (n - 1 <? 0)%Z eqn:En; [done|]. apply Z.ltb_ge in En.
  injection Hz as <-.
  pose proof (Z.mod_pos_bound (Z.of_nat (random_raw k)) (n - 1 - 0 + 1) ltac:(lia)).
  destruct Hidx as [->|Hidx]; lia.
Qed.

Lemma left_out_index_is_fresh_witness :
  (1%nat ∉ [0%nat])
  ∧ (0 ≤ Z.of_nat 1 < 2)%Z
  ∧ (∃ start, example_alignment !! 1%nat
              = Some (lit "ACDEFGHIKLMNACDEFGHIKLMNPQRSTVWY", start))
  ∧ (0 < 2)%nat.
Proof.
  apply (left_out_index_is_fresh (λ k, k) 5 2 0 example_alignment [0%nat] 1
           (lit "ACDEFGHIKLMNACDEFGHIKLMNPQRSTVWY") 2).
  reflexivity.
Defined.

(** X18: when the exclusion list holds every index of the corpus,
    [choose_left_out_sequence] never returns: its loop draws again for ever
    (the loop is still running when any amount of fuel is used up). *)
Theorem left_out_choice_diverges_on_full_list random_raw fuel (n : Z) k
    (sequences : list (str * nat)) (previous : list nat) :
  (0 < n)%Z → (∀ j, (Z.of_nat j < n)%Z → j ∈ previous) →
  Gibbs.choose_left_out_sequence random_raw fuel n k sequences previous = None.
Proof.
  intros Hn Hfull. unfold Gibbs.choose_left_out_sequence.
  destruct (randint_range 0 (n - 1) (random_raw k)) as (z & Hz & Hzr); [lia|].
  rewrite Hz. rewrite wait_for_fresh_index_exhausted; [done..|lia].
Qed.

Lemma left_out_choice_diverges_on_full_list_witness :
  Gibbs.choose_left_out_sequence (λ k, (3 * k)%nat) 1000 2 0 example_alignment [1%nat; 0%nat]
  = None.
Proof.
  apply (left_out_choice_diverges_on_full_list (λ k, (3 * k)%nat) 1000 2 0
           example_alignment [1%nat; 0%nat]).
  - lia.
  - intros j Hj. assert (j = 0 ∨ j = 1)%nat as Hcases by lia.
    destruct Hcases as [Hj0|Hj1].
    + rewrite Hj0. right. left.
    + rewrite Hj1. left.
Defined.

(** ** Leaving one sequence out *)

Section LeaveOneOut.

Lemma enumerate_cons_tail {A} (x y : A) (l : list A) :
  enumerate (x :: l) = (0%nat, x) :: zip (seq 1 (length l)) l
  ∧ enumerate (y :: l) = (0%nat, y) :: zip (seq 1 (length l)) l.
Proof. done. Qed.

(** The counting loop of [build_ppm] does not read the entry at the
    held-out index. *)
Lemma build_counts_skip (sequences : list (str * nat)) j (e : str * nat)
    (m : gmap ascii (list Q)) :
  foldM (λ ppm '(j', (seq, starting_pos)),
           if decide (j' ≠ j) then
             foldM (λ ppm '(i, seq_pos),
                      base ← index seq seq_pos;
                      cell_update ppm base i (λ x, Ok (x + 1)))
                   (enumerate (range2 starting_pos (starting_pos + Gibbs.M))) ppm
           else Ok ppm)
        (enumerate (<[j := e]> sequences)) m
  = foldM (λ ppm '(j', (seq, starting_pos)),
             if decide (j' ≠ j) then
               foldM (λ ppm '(i, seq_pos),
                        base ← index seq seq_pos;
                        cell_update ppm base i (λ x, Ok (x + 1)))
                     (enumerate (range2 starting_pos (starting_pos + Gibbs.M))) ppm
             else Ok ppm)
          (enumerate sequences) m.
Proof.
  destruct (decide (j < length sequences)%nat) as [Hj|Hj];
    [|by rewrite list_insert_ge by lia].
  destruct (lookup_lt_is_Some_2 sequences j Hj) as (x & Hx).
  rewrite <- (take_drop_middle sequences j x Hx) at 2.
  rewrite insert_take_drop by done.
  assert (length (take j sequences) = j) as Hlen by (rewrite length_take; lia).
  rewrite !foldM_enumerate_app. apply bind_ext. intros m1.
  destruct (enumerate_cons_tail e x (drop (S j) sequences)) as [-> ->].
  cbn [foldM]. rewrite Hlen, Nat.add_0_r.
  destruct e as [s1 p1], x as [s2 p2]. by rewrite !decide_False by (intros H; by apply H).
Qed.

End LeaveOneOut.

(** X19: the probability matrix does not depend on the held-out sequence:
    replacing the entry at the held-out index, string or offset, by any other
    gives the same result of [build_ppm], be it a matrix or an exception. *)
Theorem build_ppm_ignores_left_out_sequence (sequences : list (str * nat)) j
    (e : str * nat) :
  Gibbs.build_ppm (<[j := e]> sequences) j = Gibbs.build_ppm sequences j.
Proof. unfold Gibbs.build_ppm. cbv zeta. by rewrite build_counts_skip. Qed.

(** X20: on the empty corpus the start of the sampler succeeds with no
    sequence, and the loop stops in its first iteration with ValueError, from
    [randint(0, -1)] in [choose_left_out_sequence]. *)
Theorem sampler_empty_corpus random_raw uniform fuel n :
  ∃ st, Gibbs.initial_state random_raw [] = Ok st
    ∧ Gibbs.sequences st = [] ∧ Gibbs.num_of_sequences st = 0%Z
    ∧ Gibbs.run random_raw uniform fuel (S n) st = Some (Raise ValueError).
Proof. eexists. split; [done|]. by repeat split. Qed.

(** ** A corpus of sequences that are one window each *)

Section SingleWindow.











End SingleWindow.



(** ** The weights of the candidate distribution *)

Section CandidateWeights.

Lemma product_snoc (l : list Q) (x : Q) : product (l ++ [x]) == product l * x.
Proof.
  induction l as [|y l IH]; simpl; [ring|]. rewrite IH. ring.
Qed.

Lemma window_ratio_snoc PWM background (site : str) (c : ascii) :
  window_ratio PWM background (site ++ [c])
  == window_ratio PWM background site
     * (cell_value PWM c (length site) / item_value background c).
Proof.
  unfold window_ratio. rewrite enumerate_snoc, fmap_app. apply product_snoc.
Qed.

(** The inner loop multiplies entry [i] by the ratios of the window. *)
Lemma distribution_window_value (PWM : gmap ascii (list Q)) (background : gmap ascii Q)
    (site : str) (i : nat) (dist : list Q) (d0 : Q) :
  (∀ j b, site !! j = Some b →
     0 < cell_value PWM b j ∧ 0 < item_value background b) →
  dist !! i = Some d0 →
  ∃ d1,
    foldM (λ distribution '(j, base),
             d ← index distribution i;
             x ← cell_get PWM base j;
             b ← getitem background base;
             r ← truediv x b;
             Ok (<[i := d * r]> distribution))
          (enumerate site) dist = Ok (<[i := d1]> dist)
    ∧ d1 == d0 * window_ratio PWM background site.
Proof.
  intros Hsite Hi. induction site as [|c site IH] using rev_ind.
  - exists d0. split; [by rewrite list_insert_id|]. unfold window_ratio. simpl. ring.
  - destruct IH as (d1 & Hfold & Hd1).
    { intros j b Hj. apply Hsite. by apply lookup_app_l_Some. }
    destruct (Hsite (length site) c) as (Hx & Hy).
    { rewrite lookup_app_r by lia. by rewrite Nat.sub_diag. }
    exists (d1 * (cell_value PWM c (length site) / item_value background c)). split.
    + rewrite enumerate_snoc, foldM_snoc, Hfold, Ok_bind.
      assert (index (<[i := d1]> dist) i = Ok d1) as ->.
      { apply index_Ok, list_lookup_insert_eq. by eapply lookup_lt_Some. }
      rewrite Ok_bind, (cell_value_pos PWM c _ Hx), Ok_bind.
      rewrite (proj2 (getitem_Ok background c _) (item_value_pos background c Hy)), Ok_bind.
      rewrite truediv_Ok by qlra. rewrite Ok_bind. by rewrite list_insert_insert_eq.
    + rewrite window_ratio_snoc, Hd1. ring.
Qed.

(** After the offsets below [k] the entries below [k] hold their weights and
    the others still the seed. *)
Lemma distribution_weights_value (PWM : gmap ascii (list Q)) (background : gmap ascii Q)
    (sequence : str) (n k : nat) :
  (∀ i j b, slice sequence i (i + Gibbs.M) !! j = Some b →
     0 < cell_value PWM b j ∧ 0 < item_value background b) →
  (k ≤ n)%nat →
  ∃ dist,
    foldM (λ distribution i,
             foldM (λ distribution '(j, base),
                      d ← index distribution i;
                      x ← cell_get PWM base j;
                      b ← getitem background base;
                      r ← truediv x b;
                      Ok (<[i := d * r]> distribution))
                   (enumerate (slice sequence i (i + Gibbs.M))) distribution)
          (seq 0 k) (replicate n 1e-6) = Ok dist
    ∧ length dist = n
    ∧ (∀ i, (i < k)%nat →
         ∃ x, dist !! i = Some x ∧ x == candidate_weight PWM background sequence i)
    ∧ ∀ i, (k ≤ i < n)%nat → dist !! i = Some 1e-6.
Proof.
  intros Hsite. induction k as [|k IH]; intros Hk.
  - exists (replicate n 1e-6). split; [done|]. split; [by rewrite length_replicate|].
    split; [intros; lia|]. intros i Hi. apply lookup_replicate_2. lia.
  - destruct IH as (dk & Hfold & Hlen & Hlow & Hhigh); [lia|].
    destruct (distribution_window_value PWM background (slice sequence k (k + Gibbs.M))
                k dk 1e-6) as (d1 & Hin & Hd1).
    { intros j b Hj. by eapply Hsite. }
    { apply Hhigh. lia. }
    exists (<[k := d1]> dk). split; [|split; [|split]].
    + rewrite seq_S, foldM_snoc, Hfold, Ok_bind. exact Hin.
    + by rewrite length_insert.
    + intros i Hi. destruct (decide (i = k)) as [->|Hne].
      * exists d1. split; [apply list_lookup_insert_eq; lia|]. by rewrite Hd1.
      * rewrite list_lookup_insert_ne by done. apply Hlow. lia.
    + intros i Hi. rewrite list_lookup_insert_ne by lia. apply Hhigh. lia.
Qed.

End CandidateWeights.

(** X22: for a held-out sequence longer than the motif, a matrix that is
    positive in the cells the windows read and a background that is positive
    on the symbols of the sequence, the candidate distribution has one entry
    for each offset of [range(len - M)]: the seed 1e-6 times the product over
    the columns of the window of matrix[symbol][column] / background[symbol],
    divided by the sum of these weights. *)
Theorem candidate_weights_are_normalised_ratios (PWM : gmap ascii (list Q))
    (background : gmap ascii Q) (sequence : str) :
  (Gibbs.M < length sequence)%nat →
  (∀ j b, (j < Gibbs.M)%nat → b ∈ sequence → 0 < cell_value PWM b j) →
  (∀ b, b ∈ sequence → 0 < item_value background b) →
  ∃ d,
    Gibbs.generate_distribution_for_left_out_sequence PWM background sequence = Ok d
    ∧ length d = (length sequence - Gibbs.M)%nat
    ∧ ∀ i, (i < length sequence - Gibbs.M)%nat →
        ∃ x, d !! i = Some x
          ∧ x == candidate_weight PWM background sequence i
                 / Qsum (candidate_weight PWM background sequence)
                        (seq 0 (length sequence - Gibbs.M)).
Proof.
  intros Hlen HPWM Hbg.
  unfold Gibbs.generate_distribution_for_left_out_sequence. cbv zeta.
  replace (Z.to_nat (len sequence - Z.of_nat Gibbs.M))
    with (length sequence - Gibbs.M)%nat by (unfold len; lia).
  set (n := (length sequence - Gibbs.M)%nat).
  assert (∀ i j b, slice sequence i (i + Gibbs.M) !! j = Some b →
            0 < cell_value PWM b j ∧ 0 < item_value background b) as Hsite.
  { intros i j b Hj.
    assert (j < Gibbs.M)%nat as HjM.
    { apply lookup_lt_Some in Hj. pose proof (window_length_le sequence Gibbs.M i) as Hw.
      unfold window in Hw. lia. }
    assert (b ∈ sequence) as Hb.
    { apply (window_elem sequence Gibbs.M i). unfold window.
      by eapply list_elem_of_lookup_2. }
    split; [by apply HPWM|by apply Hbg]. }
  destruct (distribution_weights_value PWM background sequence n n Hsite (le_n n))
    as (dist & Hdist & Hlend & Hlow & _).
  assert (range (len sequence - Z.of_nat Gibbs.M) = seq 0 n) as ->.
  { unfold range, n, len. f_equal. lia. }
  rewrite Hdist, Ok_bind.
  destruct (distribution_weights_pos PWM background sequence (seq 0 n) (replicate n 1e-6))
    as (dist' & Hdist' & _ & Hpos).
  { intros i j b Hj. destruct (Hsite i j b Hj) as [Hx Hy]. split.
    - exists (cell_value PWM b j). split; [by apply cell_value_pos|done].
    - exists (item_value background b). split; [by apply item_value_pos|done]. }
  { intros i Hi. apply elem_of_seq in Hi. rewrite length_replicate. lia. }
  { apply Forall_replicate. reflexivity. }
  rewrite Hdist in Hdist'. injection Hdist' as <-.
  assert (0 < sum dist) as Htot.
  { apply sum_pos; [|done]. intros ->. simpl in Hlend. unfold n in Hlend. lia. }
  assert (sum dist == Qsum (candidate_weight PWM background sequence) (seq 0 n)) as Hsum.
  { rewrite <- (Qsum_seq_lookup dist), Hlend. apply Qsum_ext. intros i Hi.
    apply elem_of_seq in Hi. destruct (Hlow i ltac:(lia)) as (x & Hx & Hxq).
    by rewrite Hx. }
  rewrite (mapM_Ok_intro _ (λ x, x / sum dist)).
  - eexists. split; [done|]. split; [by rewrite length_fmap|].
    intros i Hi. destruct (Hlow i Hi) as (x & Hx & Hxq).
    exists (x / sum dist). split; [by rewrite list_lookup_fmap, Hx|].
    by rewrite Hxq, Hsum.
  - intros x _. apply truediv_Ok. qlra.
Qed.

Lemma candidate_weights_are_normalised_ratios_witness :
  ∃ d,
    Gibbs.generate_distribution_for_left_out_sequence skewed_ppm skewed_bg
      (lit "ACDEFGHIKLMNAC") = Ok d
    ∧ length d = (length (lit "ACDEFGHIKLMNAC") - Gibbs.M)%nat
    ∧ ∀ i, (i < length (lit "ACDEFGHIKLMNAC") - Gibbs.M)%nat →
        ∃ x, d !! i = Some x
          ∧ x == candidate_weight skewed_ppm skewed_bg (lit "ACDEFGHIKLMNAC") i
                 / Qsum (candidate_weight skewed_ppm skewed_bg (lit "ACDEFGHIKLMNAC"))
                        (seq 0 (length (lit "ACDEFGHIKLMNAC") - Gibbs.M)).
Proof.
  assert (∀ b, b ∈ lit "ACDEFGHIKLMNAC" → b ∈ Gibbs.protein_alphabet) as Hin.
  { apply Forall_forall. by apply (bool_decide_unpack _). }
  apply (candidate_weights_are_normalised_ratios skewed_ppm skewed_bg (lit "ACDEFGHIKLMNAC")).
  - simpl. unfold Gibbs.M. lia.
  - intros j b Hj Hb. apply skewed_ppm_pos; [by apply Hin|done].
  - intros b Hb. apply skewed_bg_pos. by apply Hin.
Defined.

(** ** Failures of the construction of the probability matrix *)

Section BuildFailures.

(** The counting loop stops with the exception of the first position of the
    first window, among the sequences that are not held out, whose residue
    cannot be counted. *)
Lemma build_ppm_stops (pre post : list (str * nat)) (sequence : str) (start k j : nat)
    (e : exn) :
  aligned pre → j ≠ length pre → (k < Gibbs.M)%nat →
  (start + k ≤ length sequence)%nat →
  over Gibbs.protein_alphabet (take k (drop start sequence)) →
  (∀ (m : gmap ascii (list Q)),
     (∀ b, is_Some (m !! b) → b ∈ Gibbs.protein_alphabet) →
     (base ← index sequence (start + k)%nat; cell_update m base k (λ x, Ok (x + 1)))
     = Raise e) →
  Gibbs.build_ppm (pre ++ (sequence, start) :: post) j = Raise e.
Proof.
  intros Hpre Hj Hk Hlen Hgood Hstop. unfold Gibbs.build_ppm. cbv zeta.
  rewrite foldM_enumerate_app.
  destruct (build_counts_spec pre j _ _ (models_zeros Gibbs.protein_alphabet Gibbs.M) Hpre)
    as (m1 & Hfold & Hm1).
  rewrite Hfold, Ok_bind, enumerate_cons. cbn [foldM].
  rewrite Nat.add_0_r, decide_True by done.
  unfold range2. replace (start + Gibbs.M - start)%nat with (k + S (Gibbs.M - k - 1))%nat by lia.
  rewrite seq_app. cbn [seq]. rewrite foldM_enumerate_app.
  rewrite window_by_index by done.
  destruct (add_window_spec Gibbs.protein_alphabet Gibbs.M m1
              (take k (drop start sequence)) 1 _ Hm1 Hgood) as (m2 & Hadd & [Hk2 _]).
  { rewrite length_take. lia. }
  rewrite Hadd, Ok_bind, enumerate_cons. cbn [foldM].
  rewrite length_seq, Nat.add_0_r. by rewrite (Hstop m2 Hk2).
Qed.

End BuildFailures.

(** X23: [build_ppm] counts the windows of the sequences that are not held
    out in order and stops at the first residue it cannot count: with
    IndexError when the motif window runs past the end of its sequence, with
    KeyError when the window holds a symbol outside the alphabet. *)
Theorem build_ppm_stops_at_first_bad_position (pre post : list (str * nat))
    (sequence : str) (start k j : nat) :
  aligned pre → j ≠ length pre → (k < Gibbs.M)%nat →
  (start + k ≤ length sequence)%nat →
  over Gibbs.protein_alphabet (take k (drop start sequence)) →
  (sequence !! (start + k)%nat = None →
     Gibbs.build_ppm (pre ++ (sequence, start) :: post) j = Raise IndexError)
  ∧ (∀ c, sequence !! (start + k)%nat = Some c → c ∉ Gibbs.protein_alphabet →
       Gibbs.build_ppm (pre ++ (sequence, start) :: post) j = Raise KeyError).
Proof.
  intros Hpre Hj Hk Hlen Hgood. split.
  - intros Hnone. apply (build_ppm_stops pre post sequence start k j); [done..|].
    intros m _. unfold index. by rewrite Hnone.
  - intros c Hc Hout. apply (build_ppm_stops pre post sequence start k j); [done..|].
    intros m Hkeys. rewrite (proj2 (index_Ok _ _ _) Hc), Ok_bind.
    unfold cell_update, getitem. destruct (m !! c) as [row|] eqn:E; [|done].
    exfalso. apply Hout, Hkeys. by eexists.
Qed.

Lemma build_ppm_stops_at_first_bad_position_witness :
  (lit "ACDEFGHIKLMN" !! (2 + 10)%nat = None →
     Gibbs.build_ppm ([(lit "ACDEFGHIKLMNA", 1%nat)] ++ (lit "ACDEFGHIKLMN", 2%nat) :: []) 0
     = Raise IndexError)
  ∧ (∀ c, lit "ACDEFGHIKLMN" !! (2 + 10)%nat = Some c → c ∉ Gibbs.protein_alphabet →
       Gibbs.build_ppm ([(lit "ACDEFGHIKLMNA", 1%nat)] ++ (lit "ACDEFGHIKLMN", 2%nat) :: []) 0
       = Raise KeyError).
Proof.
  apply (build_ppm_stops_at_first_bad_position [(lit "ACDEFGHIKLMNA", 1%nat)] []
           (lit "ACDEFGHIKLMN") 2 10 0).
  - apply aligned_Forall. by apply (bool_decide_unpack _).
  - simpl. lia.
  - unfold Gibbs.M. lia.
  - simpl. lia.
  - by apply (bool_decide_unpack _).
Defined.

(** X24: an iteration of the sampler from a state with an empty exclusion
    list, on an aligned corpus in which every residue of the alphabet occurs
    outside some motif window, succeeds when the sequence it draws is longer
    than the motif: it holds out the index raw mod num_of_sequences of the
    next raw value of [randint], gives that sequence a new offset, which
    with a uniform sample below 1 is below len - M, changes no other entry and
    uses one draw of each generator. *)
Theorem iteration_resamples_drawn_sequence random_raw uniform fuel (st : Gibbs.state)
    (sequence : str) (start : nat) :
  Gibbs.previous_sequence_indexes st = [] →
  (0 < Gibbs.num_of_sequences st)%Z →
  aligned (Gibbs.sequences st) →
  Gibbs.sequences st
    !! Z.to_nat (Z.of_nat (random_raw (Gibbs.randint_calls st)) mod Gibbs.num_of_sequences st)
  = Some (sequence, start) →
  (Gibbs.M < length sequence)%nat →
  (∀ b, b ∈ Gibbs.protein_alphabet → outside_window (Gibbs.sequences st) Gibbs.M b) →
  ∃ st' out pos,
    Gibbs.iteration random_raw uniform fuel st
    = Some (Ok (st',
                Z.to_nat (Z.of_nat (random_raw (Gibbs.randint_calls st))
                          mod Gibbs.num_of_sequences st),
                out))
    ∧ Gibbs.sequences st'
      = <[Z.to_nat (Z.of_nat (random_raw (Gibbs.randint_calls st))
                    mod Gibbs.num_of_sequences st) := (sequence, pos)]> (Gibbs.sequences st)
    ∧ Gibbs.num_of_sequences st' = Gibbs.num_of_sequences st
    ∧ Gibbs.randint_calls st' = S (Gibbs.randint_calls st)
    ∧ Gibbs.choice_calls st' = S (Gibbs.choice_calls st)
    ∧ (uniform (Gibbs.choice_calls st) < 1 → (pos < length sequence - Gibbs.M)%nat).
Proof.
  intros Hprev Hn Hal Hidx Hlen Hcover.
  destruct (iteration_spec random_raw uniform fuel st sequence start
              Hprev Hn Hal Hidx Hlen Hcover)
    as (st' & out & pos & Hit & Hs & Hnum & _ & Hr & Hc & Hpos).
  by exists st', out, pos.
Qed.

Lemma iteration_resamples_drawn_sequence_witness :
  ∃ st' out pos,
    Gibbs.iteration zero_raw (λ _, 1 # 2) 0 example_state
    = Some (Ok (st',
                Z.to_nat (Z.of_nat (zero_raw (Gibbs.randint_calls example_state))
                          mod Gibbs.num_of_sequences example_state),
                out))
    ∧ Gibbs.sequences st'
      = <[Z.to_nat (Z.of_nat (zero_raw (Gibbs.randint_calls example_state))
                    mod Gibbs.num_of_sequences example_state)
          := (lit "ACDEFGHIKLMNA", pos)]> (Gibbs.sequences example_state)
    ∧ Gibbs.num_of_sequences st' = Gibbs.num_of_sequences example_state
    ∧ Gibbs.randint_calls st' = S (Gibbs.randint_calls example_state)
    ∧ Gibbs.choice_calls st' = S (Gibbs.choice_calls example_state)
    ∧ ((λ _ : nat, 1 # 2) (Gibbs.choice_calls example_state) < 1
       → (pos < length (lit "ACDEFGHIKLMNA") - Gibbs.M)%nat).
Proof.
  apply (iteration_resamples_drawn_sequence zero_raw (λ _, 1 # 2) 0 example_state
           (lit "ACDEFGHIKLMNA") 0).
  - reflexivity.
  - reflexivity.
  - exact example_alignment_aligned.
  - reflexivity.
  - simpl. unfold Gibbs.M. lia.
  - exact example_alignment_covered.
Defined.

(** X25: on the empty corpus the EM procedure stops before its loop with
    IndexError, from [sequences[0]] on line 24, whatever the motif length
    (the total of line 21 is computed first and is 0; no division is
    reached). *)
Theorem em_empty_corpus L fuel :
  EM.initialize_pfm [] L = Raise IndexError
  ∧ EM.expectation_maximization fuel [] L = Some (Raise IndexError).
Proof. done. Qed.

(** ** The responsibilities without the seed *)

Section Odds.






End Odds.


